(** * Applytics: event-to-stat derivation, recording and timeseries queries

    A shallow embedding of the Applytics worker (Cloudflare Workers + D1):
    - [src/utils.js]            : [determineCategory], [getTimeGroupExpression]
    - [src/database.js]         : [createEventStatements]
    - [src/handlers/event.js]   : [handleTrackEvent], [handleBatchTrackEvents]
    - [src/api/events.js]       : the variants of the two handlers without
                                  the country column
    - [src/api/timeseries.js]   : [handleTimeseriesQuery],
                                  [handleComparisonQuery]
    - [src/handlers/app.js]     : [handleSingleMetricTimeseries],
                                  [handleMultipleMetricsTimeseries]
    - [src/auth.js], [index.js] : [verifyApiRequest] and the two routers
    - [src/api/stats.js]        : [handleStatsQuery], [handleTopMetrics]
    - [src/api/apps.js]         : [handleAppsQuery], [handleAppDashboard],
                                  with [getAvailableApps] and
                                  [getAppSummary] of [src/database.js]
    - [handleEventHistory] of the two event modules

    The D1 store is modelled by its two tables: the event log as a list of
    rows in insertion order and the stats table as a finite map keyed by the
    [UNIQUE(app_id, metric)] pair.  A prepared statement is a constructor, a
    batch is a list of statements applied in order, as one transaction.
    The [value] columns are nullable integers; a [NOT NULL] column refuses
    a [NULL]. *)

From Stdlib Require Import ZArith Ascii.
From stdpp Require Import gmap strings list fin_maps sorting pretty.

Local Open Scope Z_scope.
#[local] Set Warnings "-clear-no-such-hyp".

(** ** JavaScript primitives used by the handlers *)

Module JS.

(** [s.startsWith(p)] *)
Definition startsWith (s p : string) : bool := String.prefix p s.

(** [s.includes(p)]: [p] occurs at some offset of [s]. *)
Fixpoint includes (s p : string) : bool :=
  String.prefix p s ||
  match s with
  | EmptyString => false
  | String _ s' => includes s' p
  end.

(** Truthiness of a value that is a string, [null] or [undefined]:
    only a non-empty string is truthy. *)
Definition truthy (o : option string) : bool :=
  match o with
  | Some (String _ _) => true
  | _ => false
  end.

(** [a || b] where [a] is a string, [null] or [undefined] and [b] a string. *)
Definition or_else (a : option string) (b : string) : string :=
  match a with
  | Some (String c r) => String c r
  | _ => b
  end.

(** [a || null] *)
Definition or_null (a : option string) : option string :=
  if truthy a then a else None.

(** [s.split(c)] for a one-character separator: always at least one piece. *)
Fixpoint split (sep : Ascii.ascii) (s : string) : list string :=
  match s with
  | EmptyString => [EmptyString]
  | String c s' =>
      if Ascii.eqb c sep then EmptyString :: split sep s'
      else match split sep s' with
           | p :: ps => String c p :: ps
           | [] => [String c EmptyString]
           end
  end.

(** [s.split(c, n)]: split on every separator, keep the first [n] pieces. *)
Definition split_limit (sep : Ascii.ascii) (n : nat) (s : string)
  : list string :=
  take n (split sep s).

(** [arr.slice(k)] for an integer [k]: a negative [k] counts from the end,
    and the start index is clamped to [0 .. length]. *)
Definition slice_from {A} (k : Z) (arr : list A) : list A :=
  let len := Z.of_nat (length arr) in
  let start := if k <? 0 then Z.max (len + k) 0 else Z.min k len in
  drop (Z.to_nat start) arr.

(** [obj[key] = v] on a plain object ([{}]), which is modelled by the finite
    map of its own properties, for a value [v] that is a primitive or
    [null].  The key "__proto__" names an accessor of [Object.prototype]:
    its setter ignores a primitive and takes [null] as the new prototype,
    and creates no own property.  Every other key becomes an own
    property.  The objects filled this way below are assigned "__proto__"
    at most once, from rows with distinct keys. *)
Definition set_prop {V} (key : string) (v : V) (obj : gmap string V)
  : gmap string V :=
  if decide (key = "__proto__") then obj else <[key := v]> obj.

End JS.

(** ** SQL on nullable integers *)

Module SQL.

(** [a + b]: [NULL] when an operand is [NULL]. *)
Definition add (a b : option Z) : option Z :=
  match a, b with
  | Some x, Some y => Some (x + y)
  | _, _ => None
  end.

(** What [value = value + ?] leaves after the values [vs], the first of
    them inserted: their sum, and [NULL] as soon as one of them is. *)
Definition add_all (vs : list (option Z)) : option Z :=
  foldr add (Some 0) vs.

(** The aggregate [SUM]: a [NULL] is skipped, and the sum over no value
    that is left is [NULL]. *)
Definition sum_step (acc v : option Z) : option Z :=
  match v with
  | Some x => Some (default 0 acc + x)
  | None => acc
  end.

Definition sum (vs : list (option Z)) : option Z := foldl sum_step None vs.

(** [ORDER BY] a nullable integer, ascending: [NULL] comes first. *)
Definition le (a b : option Z) : Prop :=
  match a, b with
  | None, _ => True
  | Some _, None => False
  | Some x, Some y => x ≤ y
  end.

#[global] Instance le_dec : RelDecision le.
Proof. intros [a|] [b|]; simpl; apply _. Defined.

(** [ORDER BY] a nullable text, ascending: [NULL] comes first, texts
    compare code unit by code unit. *)
Definition text_le (a b : option string) : Prop :=
  match a, b with
  | None, _ => True
  | Some _, None => False
  | Some x, Some y => String.leb x y = true
  end.

#[global] Instance text_le_dec : RelDecision text_le.
Proof. intros [a|] [b|]; simpl; apply _. Defined.

End SQL.

(** ** [utils.js] *)

(** [determineCategory(eventType)] *)
Definition determineCategory (eventType : string) : string :=
  if JS.startsWith eventType "purchase" || JS.includes eventType "payment"
     || JS.includes eventType "subscription" then "revenue"
  else if String.eqb eventType "install" || String.eqb eventType "uninstall"
     || JS.includes eventType "update" then "lifecycle"
  else if JS.includes eventType "view" || JS.includes eventType "screen"
     || JS.includes eventType "page" then "engagement"
  else if JS.includes eventType "click" || JS.includes eventType "tap"
     || JS.includes eventType "swipe" then "interaction"
  else if JS.includes eventType "error" || JS.includes eventType "crash"
     || JS.includes eventType "exception" then "error"
  else if JS.includes eventType "user" || JS.includes eventType "account"
     || JS.includes eventType "login" then "user"
  else "general".

(** The seven rules of the categorizer as the design document lists them:
    a predicate and the category it yields, in order; the last rule has no
    condition. *)
Definition category_rules : list ((string → bool) * string) :=
  [ (λ t, JS.startsWith t "purchase" || JS.includes t "payment"
          || JS.includes t "subscription", "revenue");
    (λ t, String.eqb t "install" || String.eqb t "uninstall"
          || JS.includes t "update", "lifecycle");
    (λ t, JS.includes t "view" || JS.includes t "screen"
          || JS.includes t "page", "engagement");
    (λ t, JS.includes t "click" || JS.includes t "tap"
          || JS.includes t "swipe", "interaction");
    (λ t, JS.includes t "error" || JS.includes t "crash"
          || JS.includes t "exception", "error");
    (λ t, JS.includes t "user" || JS.includes t "account"
          || JS.includes t "login", "user");
    (λ _, true, "general") ].

(** First matching rule wins. *)
Fixpoint first_match (rules : list ((string → bool) * string)) (t : string)
  : option string :=
  match rules with
  | [] => None
  | (p, c) :: rest => if p t then Some c else first_match rest t
  end.

(** The metric key, as every writer computes it:
    [qualifier ? `${event_type}.${qualifier}` : event_type]. *)
Definition metricKey (event_type : string) (qualifier : option string)
  : string :=
  if JS.truthy qualifier
  then event_type +:+ "." +:+ default "" qualifier
  else event_type.

(** The metric key of the design document:
    [qualifier == null ? event_type : event_type + "." + qualifier]. *)
Definition buildMetricKey_doc (event_type : string) (qualifier : option string)
  : string :=
  match qualifier with
  | None => event_type
  | Some q => event_type +:+ "." +:+ q
  end.

(** The readers' inverse, shared by all four timeseries paths:
    [if (metric.includes('.')) [event_type, qualifier] = metric.split('.', 2)
     else { event_type = metric; qualifier = null }]. *)
Definition splitMetric (metric : string) : string * option string :=
  if JS.includes metric "." then
    let parts := JS.split_limit "."%char 2 metric in
    (default "" (parts !! 0%nat), parts !! 1%nat)
  else (metric, None).

(** The split of the design document: the event type is the text before the
    first dot and the qualifier is everything after it. *)
Fixpoint split_first_dot (metric : string) : string * option string :=
  match metric with
  | EmptyString => (EmptyString, None)
  | String c s' =>
      if Ascii.eqb c "."%char then (EmptyString, Some s')
      else let '(t, q) := split_first_dot s' in (String c t, q)
  end.


(** ** The D1 store: [schema.sql] *)

(** A row of [events].  The [id INTEGER PRIMARY KEY] column is the position
    of the row in the log; nothing deletes rows. *)
Record EventRow := mkEventRow {
  ev_app_id : string;
  ev_event_type : string;
  ev_event_category : string;
  ev_qualifier : option string;
  ev_value : option Z;
  ev_timestamp : Z;
  ev_country : option string
}.

(** A row of [stats] without its key columns [(app_id, metric)]. *)
Record StatRow := mkStatRow {
  st_category : string;
  st_value : option Z;
  st_last_updated : Z
}.

Record DB := mkDB {
  events : list EventRow;
  stats : gmap (string * string) StatRow
}.

Definition empty_db : DB := mkDB [] ∅.

(** The two prepared statements of the writers, with their bound parameters
    in binding order.  A bound integer may be [null]. *)
Inductive Statement :=
  (** [INSERT INTO events (app_id, event_type, event_category, qualifier,
      value, timestamp, country) VALUES (?, ?, ?, ?, ?, ?, ?)] *)
| InsertEvent (app_id event_type event_category : string)
    (qualifier : option string) (value timestamp : option Z)
    (country : option string)
  (** [INSERT INTO stats (app_id, metric, category, value, last_updated)
      VALUES (?, ?, ?, ?, ?) ON CONFLICT (app_id, metric) DO
      UPDATE SET value = value + ?, last_updated = ?] *)
| UpsertStat (app_id metric category : string)
    (value last_updated : option Z) (increment new_last_updated : option Z).

(** A statement fails, [None], when it would put a [NULL] into
    [timestamp INTEGER NOT NULL] or [last_updated INTEGER NOT NULL]; the
    store checks the row to insert before it looks for the conflict.  The
    [value] columns take a [NULL], and [value + ?] is then [NULL]. *)
Definition exec (db : DB) (st : Statement) : option DB :=
  match st with
  | InsertEvent a t c q v ts co =>
      match ts with
      | None => None
      | Some timestamp =>
          Some (mkDB (events db ++ [mkEventRow a t c q v timestamp co])
                  (stats db))
      end
  | UpsertStat a m c v ts inc ts' =>
      match ts with
      | None => None
      | Some last_updated =>
          match stats db !! (a, m) with
          | None =>
              Some (mkDB (events db)
                      (<[(a, m) := mkStatRow c v last_updated]> (stats db)))
          | Some r =>
              match ts' with
              | None => None
              | Some new_last_updated =>
                  Some (mkDB (events db)
                          (<[(a, m) := mkStatRow (st_category r)
                                         (SQL.add (st_value r) inc)
                                         new_last_updated]> (stats db)))
              end
          end
      end
  end.

(** [db.batch(statements)]: the statements in order, as one transaction:
    when a statement fails the call throws and the store is as before.
    Failures of the store other than the constraints above are not
    modelled. *)
Definition batch (statements : list Statement) (db : DB) : option DB :=
  foldl (λ acc st, acc ≫= λ d, exec d st) (Some db) statements.

(** ** [database.js] *)

(** [createEventStatements(db, app_id, event_type, event_category, qualifier,
    value, timestamp, country)] *)
Definition createEventStatements (app_id event_type event_category : string)
    (qualifier : option string) (value timestamp : option Z)
    (country : option string) : list Statement :=
  let metric := metricKey event_type qualifier in
  let eventStmt :=
    InsertEvent app_id event_type event_category qualifier value timestamp
      country in
  let statsStmt :=
    UpsertStat app_id metric event_category value timestamp value timestamp in
  [eventStmt; statsStmt].

(** ** Requests and responses *)

(** The JSON body of a tracked event, with fields of the types the API
    documents: texts for [event_type], [qualifier], [category] and
    [country], integers for [value] and [timestamp].  [None] is an absent
    field; for [event_type], [qualifier] and [category], which the handlers
    only test for truthiness, it is also [null].  [value], [timestamp] and
    [country] keep the two apart, as a destructuring default replaces only
    an absent field: [Some None] is a field sent as [null]. *)
Record EventData := mkEventData {
  d_event_type : option string;
  d_qualifier : option string;
  d_value : option (option Z);
  d_category : option string;
  d_timestamp : option (option Z);
  d_country : option (option string)
}.

(** [const {field = fallback} = data] *)
Definition destructure {A} (field : option (option A)) (fallback : option A)
  : option A :=
  match field with
  | Some v => v
  | None => fallback
  end.

(** What a handler reads besides the store: the clock
    ([Math.floor(Date.now() / 1000)]) and [request.cf?.country]. *)
Record Env := mkEnv {
  now : Z;
  cf_country : option string
}.

(** An element of the [events] array of a batch response. *)
Record BatchItem := mkBatchItem {
  bi_event_type : string;
  bi_qualifier : option string;
  bi_metric : string;
  bi_category : string;
  bi_country : option string
}.

(** A row of a timeseries result: [{time_period, total}]; [SUM(value)] is
    [null] for a bucket whose events all have a [NULL] value. *)
Record SeriesRow := mkSeriesRow {
  time_period : string;
  total : option Z
}.

(** A property value of a data point of a comparison result. *)
Inductive JSVal :=
| VStr (s : string)
| VNum (n : Z)
| VNull.

(** A nullable integer of the store as a JSON value. *)
Definition of_sql (v : option Z) : JSVal :=
  match v with
  | Some n => VNum n
  | None => VNull
  end.

Inductive Response :=
  (** [errorResponse(message, status)] *)
| errorResponse (message : string) (status : Z)
  (** an exception that no [catch] of the handler sees: the promise the
      handler returns rejects *)
| uncaught
  (** the body of [handleTrackEvent]'s [successResponse] *)
| trackSuccess (app_id metric category : string) (value timestamp : option Z)
    (country : option string)
  (** the body of [handleBatchTrackEvents]'s [successResponse] *)
| batchSuccess (app_id : string) (processed : nat) (items : list BatchItem)
  (** the body of a single-metric timeseries response; [from] and [to] are
      kept as timestamps *)
| seriesSuccess (app_id metric period : string) (fromDate toDate : Z)
    (country : option string) (data : list SeriesRow)
  (** the body of a comparison response; a data point is an object *)
| comparisonSuccess (app_id : string) (metrics : list string) (period : string)
    (fromDate toDate : Z) (country : option string)
    (data : list (gmap string JSVal)).

(** [result?.value || value]: the fallback is taken when there is no row
    and when the row's value is [0] or [null]. *)
Definition value_or (result : option StatRow) (value : option Z) : option Z :=
  match result with
  | Some r =>
      match st_value r with
      | Some v => if v =? 0 then value else Some v
      | None => value
      end
  | None => value
  end.

(** ** [handlers/event.js] *)

Module HandlersEvent.

Definition handleTrackEvent (env : Env) (data : EventData) (db : DB)
    (app_id : string) : Response * DB :=
  let qualifier := d_qualifier data in
  let value := destructure (d_value data) (Some 1) in
  let category := d_category data in
  let timestamp := destructure (d_timestamp data) (Some (now env)) in
  let country :=
    match d_country data with
    | Some c => c
    | None => JS.or_null (cf_country env)
    end in
  if negb (JS.truthy (d_event_type data)) then
    (errorResponse "Missing event_type" 400, db)
  else
    let event_type := default "" (d_event_type data) in
    let event_category := JS.or_else category (determineCategory event_type) in
    let statements :=
      createEventStatements app_id event_type event_category qualifier
        value timestamp country in
    match batch statements db with
    | None => (errorResponse "Failed to track event" 500, db)
    | Some db' =>
        let metric := metricKey event_type qualifier in
        let result := stats db' !! (app_id, metric) in
        let currentValue := value_or result value in
        (trackSuccess app_id metric event_category currentValue timestamp
           country,
         db')
    end.

(** The [for (const event of data.events)] loop: [statements] and [results]
    are the arrays built so far; the loop returns early on the first item
    without an [event_type]. *)
Fixpoint batch_loop (defaultTimestamp : Z) (defaultCountry : option string)
    (app_id : string) (items : list EventData)
    (statements : list Statement) (results : list BatchItem)
  : Response + (list Statement * list BatchItem) :=
  match items with
  | [] => inr (statements, results)
  | event :: rest =>
      if negb (JS.truthy (d_event_type event)) then
        inl (errorResponse "Missing event_type in batch item" 400)
      else
        let event_type := default "" (d_event_type event) in
        let qualifier := d_qualifier event in
        let value := destructure (d_value event) (Some 1) in
        let category := d_category event in
        let timestamp :=
          destructure (d_timestamp event) (Some defaultTimestamp) in
        let country :=
          match d_country event with
          | Some c => c
          | None => defaultCountry
          end in
        let event_category :=
          JS.or_else category (determineCategory event_type) in
        let eventStatements :=
          createEventStatements app_id event_type event_category qualifier
            value timestamp country in
        let metric := metricKey event_type qualifier in
        batch_loop defaultTimestamp defaultCountry app_id rest
          (statements ++ eventStatements)
          (results ++ [mkBatchItem event_type qualifier metric event_category
                         country])
  end.

(** [data_events] is [data.events] when it is an array, [None] otherwise. *)
Definition handleBatchTrackEvents (env : Env)
    (data_events : option (list EventData)) (db : DB) (app_id : string)
  : Response * DB :=
  match data_events with
  | None => (errorResponse "Missing or empty events array" 400, db)
  | Some [] => (errorResponse "Missing or empty events array" 400, db)
  | Some items =>
      if (100 <? length items)%nat then
        (errorResponse "Batch size exceeds maximum (100)" 400, db)
      else
        let defaultTimestamp := now env in
        let defaultCountry := JS.or_null (cf_country env) in
        match batch_loop defaultTimestamp defaultCountry app_id items [] [] with
        | inl response => (response, db)
        | inr (statements, results) =>
            match batch statements db with
            | None => (errorResponse "Failed to track batch events" 500, db)
            | Some db' => (batchSuccess app_id (length results) results, db')
            end
        end
  end.

End HandlersEvent.

(** ** [api/events.js]: the variants without the [country] column *)

Module ApiEvents.

Definition handleTrackEvent (env : Env) (data : EventData) (db : DB)
    (app_id : string) : Response * DB :=
  let qualifier := d_qualifier data in
  let value := destructure (d_value data) (Some 1) in
  let category := d_category data in
  let timestamp := destructure (d_timestamp data) (Some (now env)) in
  if negb (JS.truthy (d_event_type data)) then
    (errorResponse "Missing event_type" 400, db)
  else
    let event_type := default "" (d_event_type data) in
    let event_category := JS.or_else category (determineCategory event_type) in
    let metric := metricKey event_type qualifier in
    let stmt1 :=
      InsertEvent app_id event_type event_category qualifier value timestamp
        None in
    let stmt2 :=
      UpsertStat app_id metric event_category value timestamp value timestamp in
    match batch [stmt1; stmt2] db with
    | None => (errorResponse "Failed to track event" 500, db)
    | Some db' =>
        let result := stats db' !! (app_id, metric) in
        let currentValue := value_or result value in
        (trackSuccess app_id metric event_category currentValue timestamp
           None,
         db')
    end.

Fixpoint batch_loop (defaultTimestamp : Z) (app_id : string)
    (items : list EventData)
    (statements : list Statement) (results : list BatchItem)
  : Response + (list Statement * list BatchItem) :=
  match items with
  | [] => inr (statements, results)
  | event :: rest =>
      if negb (JS.truthy (d_event_type event)) then
        inl (errorResponse "Missing event_type in batch item" 400)
      else
        let event_type := default "" (d_event_type event) in
        let qualifier := d_qualifier event in
        let value := destructure (d_value event) (Some 1) in
        let category := d_category event in
        let timestamp :=
          destructure (d_timestamp event) (Some defaultTimestamp) in
        let event_category :=
          JS.or_else category (determineCategory event_type) in
        let metric := metricKey event_type qualifier in
        batch_loop defaultTimestamp app_id rest
          (statements ++
             [InsertEvent app_id event_type event_category qualifier value
                timestamp None;
              UpsertStat app_id metric event_category value timestamp value
                timestamp])
          (results ++ [mkBatchItem event_type qualifier metric event_category
                         None])
  end.

Definition handleBatchTrackEvents (env : Env)
    (data_events : option (list EventData)) (db : DB) (app_id : string)
  : Response * DB :=
  match data_events with
  | None => (errorResponse "Missing or empty events array" 400, db)
  | Some [] => (errorResponse "Missing or empty events array" 400, db)
  | Some items =>
      if (100 <? length items)%nat then
        (errorResponse "Batch size exceeds maximum (100)" 400, db)
      else
        let defaultTimestamp := now env in
        match batch_loop defaultTimestamp app_id items [] [] with
        | inl response => (response, db)
        | inr (statements, results) =>
            match batch statements db with
            | None => (errorResponse "Failed to track batch events" 500, db)
            | Some db' => (batchSuccess app_id (length results) results, db')
            end
        end
  end.

End ApiEvents.

(** [SUM(value)] *)
Definition sum_values (rows : list EventRow) : option Z :=
  SQL.sum (ev_value <$> rows).

(** ** Error kinds

    The handlers answer every failure with [errorResponse(message, status)].
    The design document sorts these answers into kinds: a batch over the
    size limit is a capacity error, any other 400 answer is a validation
    error, and a 500 answer reports a failure of the store.  An exception
    that escapes the handler is no answer of this kind. *)

Inductive ErrorKind := ValidationError | CapacityError | StorageError.

Definition error_kind (r : Response) : option ErrorKind :=
  match r with
  | errorResponse message status =>
      if status =? 400 then
        if String.eqb message "Batch size exceeds maximum (100)"
        then Some CapacityError else Some ValidationError
      else Some StorageError
  | _ => None
  end.

(** ** Sequences of recorder calls *)

Inductive Call :=
| Track (env : Env) (data : EventData) (app_id : string)
| TrackBatch (env : Env) (data_events : option (list EventData))
    (app_id : string)
| ApiTrack (env : Env) (data : EventData) (app_id : string)
| ApiTrackBatch (env : Env) (data_events : option (list EventData))
    (app_id : string).

Definition run_call (db : DB) (c : Call) : Response * DB :=
  match c with
  | Track env data a => HandlersEvent.handleTrackEvent env data db a
  | TrackBatch env evs a => HandlersEvent.handleBatchTrackEvents env evs db a
  | ApiTrack env data a => ApiEvents.handleTrackEvent env data db a
  | ApiTrackBatch env evs a => ApiEvents.handleBatchTrackEvents env evs db a
  end.

(** The store after a sequence of calls, each on the store the previous one
    left. *)
Definition run_calls (calls : list Call) (db : DB) : DB :=
  foldl (λ db c, (run_call db c).2) db calls.

(** The events that feed the counter [(app_id, metric)], and their sum. *)
Definition feeds (app_id metric : string) (e : EventRow) : Prop :=
  ev_app_id e = app_id ∧ metricKey (ev_event_type e) (ev_qualifier e) = metric.

#[global] Instance feeds_dec a m e : Decision (feeds a m e).
Proof. unfold feeds. apply _. Defined.

Definition event_sum (db : DB) (app_id metric : string) : option Z :=
  sum_values (filter (feeds app_id metric) (events db)).

(** ** The timeseries queries *)

(** The four SQL grouping expressions of [getTimeGroupExpression]:
    [strftime(fmt, datetime(timestamp, 'unixepoch'))] with [fmt] one of
    ['%Y-%m-%d %H:00:00'], ['%Y-%m-%d'], ['%Y-%W'], ['%Y-%m']. *)
Inductive TimeGroup := PerHour | PerDay | PerWeek | PerMonth.

(** [getTimeGroupExpression(period)]; [api/timeseries.js] has the same table
    as an [if] chain. *)
Definition getTimeGroupExpression (period : string) : option TimeGroup :=
  if String.eqb period "hour" then Some PerHour
  else if String.eqb period "day" then Some PerDay
  else if String.eqb period "week" then Some PerWeek
  else if String.eqb period "month" then Some PerMonth
  else None.

(** Text comparison, as [ORDER BY time_period] and [Array.prototype.sort]
    do it: code unit by code unit. *)
Definition str_le (a b : string) : Prop := String.leb a b = true.
Definition str_lt (a b : string) : Prop := String.ltb a b = true.

#[global] Instance str_le_dec : RelDecision str_le.
Proof. intros a b. unfold str_le. apply _. Defined.

Definition row_le (r1 r2 : SeriesRow) : Prop :=
  str_le (time_period r1) (time_period r2).

#[global] Instance row_le_dec : RelDecision row_le.
Proof. intros a b. unfold row_le. apply _. Defined.

(** One step of [GROUP BY time_period] with [SUM(value)]: add [v] to the
    group of key [k], opening the group when there is none. *)
Fixpoint group_add (k : string) (v : option Z) (groups : list SeriesRow)
  : list SeriesRow :=
  match groups with
  | [] => [mkSeriesRow k (SQL.sum_step None v)]
  | r :: rest =>
      if decide (time_period r = k)
      then mkSeriesRow k (SQL.sum_step (total r) v) :: rest
      else r :: group_add k v rest
  end.

Definition group_by_sum (key : Z → string) (rows : list EventRow)
  : list SeriesRow :=
  foldl (λ groups e, group_add (key (ev_timestamp e)) (ev_value e) groups)
    [] rows.

(** [rows.find(dp => dp.time_period === period)] *)
Definition find_row (period : string) (rows : list SeriesRow)
  : option SeriesRow :=
  List.find (λ dp, bool_decide (time_period dp = period)) rows.

(** [metricDataPoint ? metricDataPoint.total : 0] for the rows of one
    metric. *)
Definition point_value (period : string) (rows : list SeriesRow) : JSVal :=
  match find_row period rows with
  | Some dp => of_sql (total dp)
  | None => VNum 0
  end.

(** [LIMIT ?]: a negative bound is no bound.  The bound is an integer of
    the store, from [-2^63] to [2^63 - 1]; the store refuses any other. *)
Definition sql_limit {A} (n : Z) (rows : list A) : list A :=
  if n <? 0 then rows else take (Z.to_nat n) rows.

(** An integer the store takes for [LIMIT ?] and [OFFSET ?]. *)
Definition store_integer (n : Z) : Prop := - 2 ^ 63 ≤ n < 2 ^ 63.

(** The [WHERE] clause the four paths build:
    [app_id = ? AND event_type = ? AND timestamp >= ? AND timestamp <= ?],
    then [AND qualifier = ?] or [AND qualifier IS NULL], then
    [AND country = ?] when a country filter is given. *)
Definition where_clause (app_id event_type : string) (fromDate toDate : Z)
    (qualifier country : option string) (e : EventRow) : Prop :=
  ev_app_id e = app_id ∧ ev_event_type e = event_type ∧
  fromDate ≤ ev_timestamp e ∧ ev_timestamp e ≤ toDate ∧
  match qualifier with
  | Some q => ev_qualifier e = Some q
  | None => ev_qualifier e = None
  end ∧
  (if JS.truthy country then ev_country e = country else True).

#[global] Instance where_clause_dec a t f u q c e :
  Decision (where_clause a t f u q c e).
Proof.
  unfold where_clause. destruct q, (JS.truthy c); apply _.
Defined.

(** The plain object [results] of a comparison: its own properties, and
    the array that [results['__proto__'] = rows] has put in the place of its
    prototype.  The empty array stands for the prototype that every object
    starts with: neither has an enumerable property. *)
Record Results := mkResults {
  res_own : gmap string (list SeriesRow);
  res_proto : list SeriesRow
}.

(** [results[metric] = rows] for an array [rows]: under the key "__proto__"
    the array becomes the prototype of [results], under any other key it
    becomes an own property. *)
Definition assign (metric : string) (rows : list SeriesRow)
    (results : Results) : Results :=
  if decide (metric = "__proto__") then mkResults (res_own results) rows
  else mkResults (<[metric := rows]> (res_own results)) (res_proto results).

(** The keys that [for (metric in results)] visits after the own ones: the
    indices of the inherited array that no own property hides.  Under such
    a key [results[metric]] is a row of that array, and [for (... of
    results[metric])] throws a TypeError, as a row is not iterable. *)
Definition inherited_keys (results : Results) : list string :=
  filter (λ k, k ∉ dom (res_own results))
    (pretty <$> seq 0 (length (res_proto results))).

Definition for_in_throws (results : Results) : bool :=
  negb (bool_decide (inherited_keys results = [])).

Section Queries.

(** The store's evaluation of a grouping expression at a timestamp. *)
Variable strftime : TimeGroup → Z → string.

(** [SELECT <timeGroup> AS time_period, SUM(value) AS total FROM events
    WHERE ... GROUP BY time_period], before any ordering. *)
Definition select_grouped (timeGroup : TimeGroup) (app_id event_type : string)
    (fromDate toDate : Z) (qualifier country : option string) (db : DB)
  : list SeriesRow :=
  group_by_sum (strftime timeGroup)
    (filter (where_clause app_id event_type fromDate toDate qualifier country)
       (events db)).

(** [... ORDER BY time_period DESC LIMIT ?] *)
Definition query_desc_limit (timeGroup : TimeGroup) (app_id event_type : string)
    (fromDate toDate : Z) (qualifier country : option string) (limit : Z)
    (db : DB) : list SeriesRow :=
  sql_limit limit
    (merge_sort (flip row_le)
       (select_grouped timeGroup app_id event_type fromDate toDate qualifier
          country db)).

(** [... ORDER BY time_period] *)
Definition query_asc (timeGroup : TimeGroup) (app_id event_type : string)
    (fromDate toDate : Z) (qualifier country : option string) (db : DB)
  : list SeriesRow :=
  merge_sort row_le
    (select_grouped timeGroup app_id event_type fromDate toDate qualifier
       country db).

(** The first loop of the comparison: [results[metric] = metricResults]. *)
Definition collect_results (db : DB) (app_id : string) (metrics : list string)
    (timeGroup : TimeGroup) (fromDate toDate : Z) (country : option string)
  : Results :=
  foldl (λ results metric,
           let '(event_type, qualifier) := splitMetric metric in
           assign metric
             (query_asc timeGroup app_id event_type fromDate toDate
                qualifier country db)
             results)
    (mkResults ∅ []) metrics.

(** [for (metric in results) for (dataPoint of results[metric])
     allTimePeriods.add(dataPoint.time_period)] *)
Definition all_time_periods (results : gmap string (list SeriesRow))
  : gset string :=
  map_fold (λ _ rows acc,
              foldl (λ acc dataPoint, {[time_period dataPoint]} ∪ acc) acc rows)
    ∅ results.

(** The data point of one retained bucket:
    [dataPoint[metric] = metricDataPoint ? metricDataPoint.total : 0] for
    the own properties of [results]. *)
Definition combine_point (results : gmap string (list SeriesRow))
    (period : string) : gmap string JSVal :=
  map_fold (λ metric rows dataPoint,
              JS.set_prop metric (point_value period rows) dataPoint)
    {["time_period" := VStr period]} results.

(** The second half of the comparison, over the own properties of
    [results], when the first loop does not throw: union, sort,
    [slice(-limit)], map. *)
Definition combine (results : gmap string (list SeriesRow)) (limit : Z)
  : list (gmap string JSVal) :=
  let allTimePeriods := all_time_periods results in
  let sortedTimePeriods := merge_sort str_le (elements allTimePeriods) in
  let limitedTimePeriods := JS.slice_from (- limit) sortedTimePeriods in
  combine_point results <$> limitedTimePeriods.

End Queries.

(** ** [api/timeseries.js]

    The query parameters are taken after [parseInt] and date parsing:
    [limit], [fromDate] and [toDate] are integers, and a [limit] that is
    bound to [LIMIT ?] is one the store takes, from [-2^63] to [2^63 - 1].
    [metricsParam] is [None] for an absent or empty parameter and otherwise
    the array [metricsParam.split(',').map(m => m.trim()).filter(Boolean)]. *)

Module ApiTimeseries.
Section Handlers.

Variable strftime : TimeGroup → Z → string.

Definition handleTimeseriesQuery (metric period_param : option string)
    (limit fromDate toDate : Z) (db : DB) (app_id : string) : Response :=
  if negb (JS.truthy metric) then errorResponse "Missing metric parameter" 400
  else
    let metric := default "" metric in
    let period := JS.or_else period_param "day" in
    let '(event_type, qualifier) := splitMetric metric in
    match getTimeGroupExpression period with
    | None => errorResponse "Invalid period parameter" 400
    | Some timeGroup =>
        let results :=
          query_desc_limit strftime timeGroup app_id event_type fromDate toDate
            qualifier None limit db in
        seriesSuccess app_id metric period fromDate toDate None
          (reverse results)
    end.

Definition handleComparisonQuery (metricsParam : option (list string))
    (period_param : option string) (limit fromDate toDate : Z) (db : DB)
    (app_id : string) : Response :=
  match metricsParam with
  | None => errorResponse "Missing metrics parameter" 400
  | Some metrics =>
      if ((length metrics <? 1) || (5 <? length metrics))%nat then
        errorResponse "Please provide between 1 and 5 metrics to compare" 400
      else
        let period := JS.or_else period_param "day" in
        match getTimeGroupExpression period with
        | None => errorResponse "Invalid period parameter" 400
        | Some timeGroup =>
            let results :=
              collect_results strftime db app_id metrics timeGroup fromDate
                toDate None in
            if for_in_throws results then
              errorResponse "Failed to retrieve comparison data" 500
            else
              comparisonSuccess app_id metrics period fromDate toDate None
                (combine (res_own results) limit)
        end
  end.

End Handlers.
End ApiTimeseries.

(** ** [handlers/app.js]: the timeseries paths with the country filter *)

Module HandlersApp.
Section Handlers.

Variable strftime : TimeGroup → Z → string.

(** [splitMetric], the query, and [results.reverse()]. *)
Definition handleSingleMetricTimeseries (db : DB) (app_id metric : string)
    (timeGroup : TimeGroup) (period : string) (fromDate toDate : Z)
    (country : option string) (limit : Z) : Response :=
  let '(event_type, qualifier) := splitMetric metric in
  let results :=
    query_desc_limit strftime timeGroup app_id event_type fromDate toDate
      qualifier country limit db in
  seriesSuccess app_id metric period fromDate toDate (JS.or_null country)
    (reverse results).

(** The function has no [try]; its caller returns its promise without
    awaiting it, so that the [catch] of the caller does not see what it
    throws. *)
Definition handleMultipleMetricsTimeseries (db : DB) (app_id : string)
    (metrics : list string) (timeGroup : TimeGroup) (period : string)
    (fromDate toDate : Z) (country : option string) (limit : Z) : Response :=
  let results :=
    collect_results strftime db app_id metrics timeGroup fromDate toDate
      country in
  if for_in_throws results then uncaught
  else
    comparisonSuccess app_id metrics period fromDate toDate
      (JS.or_null country) (combine (res_own results) limit).

(** [metricsParam] is [None] for an absent or empty parameter and the
    parsed array otherwise. *)
Definition handleTimeseriesQuery (metric : option string)
    (metricsParam : option (list string)) (period_param : option string)
    (limit fromDate toDate : Z) (country : option string) (db : DB)
    (app_id : string) : Response :=
  if negb (JS.truthy metric) && negb (bool_decide (is_Some metricsParam)) then
    errorResponse "Missing metric or metrics parameter" 400
  else
    let period := JS.or_else period_param "day" in
    match getTimeGroupExpression period with
    | None => errorResponse "Invalid period parameter" 400
    | Some timeGroup =>
        if JS.truthy metric then
          handleSingleMetricTimeseries db app_id (default "" metric) timeGroup
            period fromDate toDate country limit
        else
          let metrics := default [] metricsParam in
          if ((length metrics <? 1) || (5 <? length metrics))%nat then
            errorResponse "Please provide between 1 and 5 metrics to compare"
              400
          else
            handleMultipleMetricsTimeseries db app_id metrics timeGroup period
              fromDate toDate country limit
    end.

End Handlers.
End HandlersApp.

(** ** A reference evaluation of the grouping expressions

    The store evaluates [strftime] itself; the results below are stated for
    every evaluation.  This one, the proleptic Gregorian calendar in UTC for
    years 0000 to 9999, instantiates them on concrete logs. *)

Module SQLite.

(** Year, month, day and day of year (from 0) of a day number counted
    from 1970-01-01. *)
Definition days_from_civil (y m d : Z) : Z :=
  let y' := if m <=? 2 then y - 1 else y in
  let era := y' / 400 in
  let yoe := y' - era * 400 in
  let doy := (153 * (if 2 <? m then m - 3 else m + 9) + 2) / 5 + d - 1 in
  let doe := yoe * 365 + yoe / 4 - yoe / 100 + doy in
  era * 146097 + doe - 719468.

Definition civil_from_days (z0 : Z) : Z * Z * Z :=
  let z := z0 + 719468 in
  let era := z / 146097 in
  let doe := z - era * 146097 in
  let yoe := (doe - doe / 1460 + doe / 36524 - doe / 146096) / 365 in
  let doy := doe - (365 * yoe + yoe / 4 - yoe / 100) in
  let mp := (5 * doy + 2) / 153 in
  let d := doy - (153 * mp + 2) / 5 + 1 in
  let m := if mp <? 10 then mp + 3 else mp - 9 in
  let y := yoe + era * 400 in
  (if m <=? 2 then y + 1 else y, m, d).

Definition digit (n : Z) : Ascii.ascii :=
  Ascii.ascii_of_N (48 + Z.to_N (n mod 10)).

Definition pad2 (n : Z) : string :=
  String (digit (n / 10)) (String (digit n) EmptyString).

Definition pad4 (n : Z) : string :=
  String (digit (n / 1000)) (String (digit (n / 100)) (pad2 n)).

(** [%W]: week of the year, 00 to 53, weeks starting on Monday. *)
Definition week_of_year (days : Z) : Z :=
  let '(y, _, _) := civil_from_days days in
  let yday := days - days_from_civil y 1 1 in
  let wday_monday := (days + 3) mod 7 in
  (yday + 7 - wday_monday) / 7.

Definition strftime (g : TimeGroup) (timestamp : Z) : string :=
  let days := timestamp / 86400 in
  let '(y, m, d) := civil_from_days days in
  match g with
  | PerHour =>
      pad4 y +:+ "-" +:+ pad2 m +:+ "-" +:+ pad2 d +:+ " "
      +:+ pad2 ((timestamp mod 86400) / 3600) +:+ ":00:00"
  | PerDay => pad4 y +:+ "-" +:+ pad2 m +:+ "-" +:+ pad2 d
  | PerWeek => pad4 y +:+ "-" +:+ pad2 (week_of_year days)
  | PerMonth => pad4 y +:+ "-" +:+ pad2 m
  end.

End SQLite.

(** ** Vocabulary of the statements *)

(** Every counter holds the sum of the events that feed it, and every event
    has its counter. *)
Definition counter_consistent (db : DB) : Prop :=
  ∀ app_id metric,
    match stats db !! (app_id, metric) with
    | Some r => st_value r = event_sum db app_id metric
    | None => filter (feeds app_id metric) (events db) = []
    end.

(** What the upsert maintains: every counter holds what [value + ?] makes
    of the values of the events that feed it, in the order of recording, and
    every event has its counter. *)
Definition counter_accumulated (db : DB) : Prop :=
  ∀ app_id metric,
    match stats db !! (app_id, metric) with
    | Some r =>
        filter (feeds app_id metric) (events db) ≠ [] ∧
        st_value r
        = SQL.add_all (ev_value <$> filter (feeds app_id metric) (events db))
    | None => filter (feeds app_id metric) (events db) = []
    end.

(** The events of an app were all recorded with an integer value. *)
Definition values_not_null (app_id : string) (db : DB) : Prop :=
  Forall (λ e, ev_app_id e = app_id → is_Some (ev_value e)) (events db).

#[global] Instance values_not_null_dec a db : Decision (values_not_null a db).
Proof. unfold values_not_null. apply _. Defined.

(** The statements of recorded events exactly as the writers bind them: an
    event insert immediately followed by the upsert of the counter this
    event feeds, which carries the category, the value and the timestamp
    of the event. *)
Inductive Recorded : list Statement → Prop :=
| Recorded_nil : Recorded []
| Recorded_cons a t c q v ts co l :
    Recorded l →
    Recorded (InsertEvent a t c q v ts co
                :: UpsertStat a (metricKey t q) c v ts v ts :: l).

(** A Stat row carries the category of the first event that fed it and the
    timestamp of the last one, in the order of recording. *)
Definition first_last_consistent (db : DB) : Prop :=
  ∀ app_id metric,
    match stats db !! (app_id, metric) with
    | Some r =>
        ev_event_category <$> head (filter (feeds app_id metric) (events db))
          = Some (st_category r) ∧
        ev_timestamp <$> last (filter (feeds app_id metric) (events db))
          = Some (st_last_updated r)
    | None => True
    end.

(** The app a statement writes to. *)
Definition stmt_app (st : Statement) : string :=
  match st with
  | InsertEvent a _ _ _ _ _ _ => a
  | UpsertStat a _ _ _ _ _ _ => a
  end.

(** The events of a selection that fall in bucket [k], their sum, and the
    populated buckets. *)
Definition in_bucket (key : Z → string) (k : string) (e : EventRow) : Prop :=
  key (ev_timestamp e) = k.

#[global] Instance in_bucket_dec key k e : Decision (in_bucket key k e).
Proof. unfold in_bucket. apply _. Defined.

Definition bucket_total (key : Z → string) (sel : list EventRow) (k : string)
  : option Z :=
  sum_values (filter (in_bucket key k) sel).

Definition bucket_keys (key : Z → string) (sel : list EventRow) : gset string :=
  list_to_set ((λ e, key (ev_timestamp e)) <$> sel).

(** [data] is the series of the latest [n] buckets of the selection [sel]:
    strictly ascending keys, each a populated bucket with the sum of its
    events, [n] of them (all when fewer are populated), and every populated
    bucket that is left out lies before every one that is kept. *)
Definition latest_buckets (key : Z → string) (sel : list EventRow) (n : nat)
    (data : list SeriesRow) : Prop :=
  StronglySorted str_lt (time_period <$> data) ∧
  (∀ r, r ∈ data →
        time_period r ∈ bucket_keys key sel ∧
        total r = bucket_total key sel (time_period r)) ∧
  length data = (n `min` size (bucket_keys key sel))%nat ∧
  (∀ k r, k ∈ bucket_keys key sel → k ∉ time_period <$> data → r ∈ data →
          str_lt k (time_period r)).

(** The events a query for [metric] selects. *)
Definition metric_selection (db : DB) (app_id : string) (fromDate toDate : Z)
    (country : option string) (metric : string) : list EventRow :=
  filter (where_clause app_id (splitMetric metric).1 fromDate toDate
            (splitMetric metric).2 country)
    (events db).

(** The union of the populated buckets of all requested metrics. *)
Definition union_keys (key : Z → string) (sel : string → list EventRow)
    (metrics : list string) : gset string :=
  ⋃ ((λ m, bucket_keys key (sel m)) <$> metrics).

(** The property of a metric in the point of bucket [k]: the sum of the
    metric's events in [k], and 0 when it has none there. *)
Definition cell (key : Z → string) (sel : list EventRow) (k : string)
  : JSVal :=
  if decide (k ∈ bucket_keys key sel) then of_sql (bucket_total key sel k)
  else VNum 0.

(** [data] is the dense table of the latest [n] buckets of [metrics]: its
    points follow a strictly ascending list of [n] bucket keys of the union
    (all of them when the union has fewer), every key of the union that is
    left out lies before the kept ones, and the point of bucket [k] has
    exactly the properties "time_period" and one per metric, holding the
    sum of the metric's events in [k], which is 0 when there are none. *)
Definition dense_table (key : Z → string) (sel : string → list EventRow)
    (metrics : list string) (n : nat) (data : list (gmap string JSVal)) : Prop :=
  ∃ periods : list string,
    StronglySorted str_lt periods ∧
    (∀ k, k ∈ periods → k ∈ union_keys key sel metrics) ∧
    length periods = (n `min` size (union_keys key sel metrics))%nat ∧
    (∀ k k', k ∈ union_keys key sel metrics → k ∉ periods → k' ∈ periods →
             str_lt k k') ∧
    length data = length periods ∧
    ∀ i k dataPoint,
      periods !! i = Some k → data !! i = Some dataPoint →
      (∀ m, m ∈ metrics → dataPoint !! m = Some (cell key (sel m) k)) ∧
      ("time_period" ∉ metrics → dataPoint !! "time_period" = Some (VStr k)) ∧
      dom dataPoint = {["time_period"]} ∪ list_to_set metrics.

(** ** Example logs *)

Module Examples.

Definition env : Env := mkEnv 1700000000 None.

(** 2023-11-14 22:13:20 UTC plus [n] days. *)
Definition day (n : Z) : Z := 1700000000 + n * 86400.

Definition event (event_type : string) (qualifier : option string)
    (value : Z) (timestamp : Z) : Call :=
  Track env
    (mkEventData (Some event_type) qualifier (Some (Some value)) None
       (Some (Some timestamp)) None)
    "app1".

(** Five populated daily buckets of "view", one qualified "view.home"
    event among them, and a "click" on a sixth day. *)
Definition five_days : DB :=
  run_calls
    [event "view" None 1 (day 0);
     event "view" None 2 (day 1);
     event "view" None 3 (day 2);
     event "view" (Some "home") 10 (day 2);
     event "view" None 4 (day 3);
     event "view" None 5 (day 4);
     event "view" None 6 (day 4);
     event "click" None 7 (day 5)]
    empty_db.

(** Metric "a" has events on days d1 and d2, metric "b" on d2 and d3. *)
Definition two_metrics : DB :=
  run_calls
    [event "a" None 1 (day 1);
     event "a" None 2 (day 2);
     event "b" None 3 (day 2);
     event "b" None 4 (day 3)]
    empty_db.

(** A data point of a comparison of the metrics "a" and "b". *)
Definition point (period : string) (a b : Z) : gmap string JSVal :=
  list_to_map [("time_period", VStr period); ("a", VNum a); ("b", VNum b)].

End Examples.

(** ** Vocabulary of the further properties *)

(** The app a call is made for. *)
Definition call_app (c : Call) : string :=
  match c with
  | Track _ _ a | TrackBatch _ _ a | ApiTrack _ _ a | ApiTrackBatch _ _ a => a
  end.

(** An item of a batch that passes the [event_type] check. *)
Definition valid_item (item : EventData) : Prop :=
  JS.truthy (d_event_type item) = true.

#[global] Instance valid_item_dec item : Decision (valid_item item).
Proof. unfold valid_item. apply _. Defined.

(** The [data] of a comparison response, and the sum of the totals of a
    series. *)
Definition comparison_data (r : Response) : list (gmap string JSVal) :=
  match r with
  | comparisonSuccess _ _ _ _ _ _ data => data
  | _ => []
  end.


(** An event type and qualifier whose metric key splits back into them: no
    dot in either, and the qualifier absent or non-empty. *)
Definition plain_key (event_type : string) (qualifier : option string) : Prop :=
  JS.includes event_type "." = false ∧
  match qualifier with
  | None => True
  | Some q => q ≠ "" ∧ JS.includes q "." = false
  end.

#[global] Instance plain_key_dec t q : Decision (plain_key t q).
Proof. unfold plain_key. destruct q; apply _. Defined.

(** ** [auth.js] *)

(** The two headers the check reads; [headers.get] gives [null], here
    [None], for a header that is not sent. *)
Record Headers := mkHeaders {
  h_app_id : option string;
  h_api_key : option string
}.

(** [{success: true, app_id}] or [{success: false, error}]. *)
Inductive AuthResult :=
| authSuccess (app_id : option string)
| authFailure (error : string).

(** [verifyApiRequest(request, env, skipAppIdCheck = false)]; [API_KEY] is
    [env.API_KEY], [None] when the variable is not set.  The earlier file
    of the same name has no third parameter and is this function at
    [false]. *)
Definition verifyApiRequest (headers : Headers) (API_KEY : option string)
    (skipAppIdCheck : bool) : AuthResult :=
  let app_id := h_app_id headers in
  let apiKey := h_api_key headers in
  if negb skipAppIdCheck && negb (JS.truthy app_id) then
    authFailure "Missing app_id header"
  else if negb (JS.truthy apiKey) || negb (bool_decide (apiKey = API_KEY)) then
    authFailure "Invalid API key"
  else authSuccess app_id.

(** ** The entry points: [index.js] *)

(** What the router reads of a request: the method, the path of the URL and
    the headers. *)
Record Request := mkRequest {
  r_method : string;
  r_pathname : string;
  r_headers : Headers
}.

(** [url.pathname.split('/').filter(Boolean)] *)
Definition pathParts (pathname : string) : list string :=
  filter (λ s, s ≠ "") (JS.split "/" pathname).

(** The outcome of routing: the error response the router itself returns,
    or the handler it calls with the app id it passes. *)
Inductive Route :=
| routeError (message : string) (status : Z) (details : option string)
| toAppsQuery
| toAppInfo (app_id : option string)
| toTrackBatch (app_id : option string)
| toTrack (app_id : option string)
| toAppSummary (app_id : option string)
| toAppDashboard (app_id : option string)
| toEventHistory (app_id : option string)
| toTopMetrics (app_id : option string)
| toStatsQuery (app_id : option string)
| toMetricsMetadata (app_id : option string)
| toComparison (app_id : option string)
| toTimeseries (app_id : option string).

(** [pathParts[i] === s] *)
Definition part_is (parts : list string) (i : nat) (s : string) : bool :=
  bool_decide (parts !! i = Some s).

(** The router over the handlers of [api/]. *)
Module ApiIndex.

Definition fetch (request : Request) (API_KEY : option string) : Route :=
  let parts := pathParts (r_pathname request) in
  if String.eqb (r_method request) "GET" && part_is parts 0 "apps"
     && negb (bool_decide (is_Some (parts !! 1%nat))) then
    match verifyApiRequest (r_headers request) API_KEY false with
    | authFailure error => routeError "Authentication failed" 403 (Some error)
    | authSuccess _ => toAppsQuery
    end
  else
    match verifyApiRequest (r_headers request) API_KEY false with
    | authFailure error => routeError "Authentication failed" 403 (Some error)
    | authSuccess app_id =>
        if String.eqb (r_method request) "POST" then
          if part_is parts 0 "track" then
            if part_is parts 1 "batch" then toTrackBatch app_id
            else toTrack app_id
          else routeError "Invalid endpoint" 404 None
        else if String.eqb (r_method request) "GET" then
          if part_is parts 0 "app" then
            if part_is parts 1 "summary" then toAppSummary app_id
            else if part_is parts 1 "dashboard" then toAppDashboard app_id
            else routeError "Invalid app endpoint" 404 None
          else if part_is parts 0 "events" then toEventHistory app_id
          else if part_is parts 0 "stats" then
            if part_is parts 1 "top" then toTopMetrics app_id
            else toStatsQuery app_id
          else if part_is parts 0 "metrics" then toMetricsMetadata app_id
          else if part_is parts 0 "timeseries" then
            if part_is parts 1 "compare" then toComparison app_id
            else toTimeseries app_id
          else routeError "Invalid endpoint" 404 None
        else routeError "Method not supported" 405 None
    end.

End ApiIndex.

(** The router over the handlers of [handlers/]. *)
Module HandlersIndex.

Definition fetch (request : Request) (API_KEY : option string) : Route :=
  let parts := pathParts (r_pathname request) in
  if String.eqb (r_method request) "GET" && part_is parts 0 "apps"
     && negb (bool_decide (is_Some (parts !! 1%nat))) then
    match verifyApiRequest (r_headers request) API_KEY true with
    | authFailure error => routeError "Authentication failed" 403 (Some error)
    | authSuccess _ => toAppInfo None
    end
  else
    match verifyApiRequest (r_headers request) API_KEY false with
    | authFailure error => routeError "Authentication failed" 403 (Some error)
    | authSuccess app_id =>
        if String.eqb (r_method request) "POST" then
          if part_is parts 0 "track" then
            if part_is parts 1 "batch" then toTrackBatch app_id
            else toTrack app_id
          else routeError "Invalid endpoint" 404 None
        else if String.eqb (r_method request) "GET" then
          if part_is parts 0 "app" then toAppInfo app_id
          else if part_is parts 0 "events" then toEventHistory app_id
          else if part_is parts 0 "stats" then toStatsQuery app_id
          else if part_is parts 0 "timeseries" then toTimeseries app_id
          else routeError "Invalid endpoint" 404 None
        else routeError "Method not supported" 405 None
    end.

End HandlersIndex.

(** The app id a route hands to its handler. *)
Definition route_app_id (r : Route) : option (option string) :=
  match r with
  | routeError _ _ _ | toAppsQuery => None
  | toAppInfo a | toTrackBatch a | toTrack a | toAppSummary a
  | toAppDashboard a | toEventHistory a | toTopMetrics a | toStatsQuery a
  | toMetricsMetadata a | toComparison a | toTimeseries a => Some a
  end.

Definition is_error (r : Route) : bool :=
  match r with routeError _ _ _ => true | _ => false end.

(** ** [utils.js]: pagination *)

Record PageParams := mkPageParams {
  pp_page : Z;
  pp_pageSize : Z;
  pp_offset : Z
}.

(** [getPaginationParams(url)].  The arguments are the integers that
    [parseInt(get('page') || '1')] and [parseInt(get('pageSize') || '20')]
    give; a parameter that does not parse ([NaN]) is not modelled. *)
Definition getPaginationParams (page_param pageSize_param : Z) : PageParams :=
  let page := Z.max 1 page_param in
  let pageSize := Z.min 100 (Z.max 1 pageSize_param) in
  let offset := (page - 1) * pageSize in
  mkPageParams page pageSize offset.

(** [Math.ceil(a / b)] on integers, [b > 0]. *)
Definition ceil_div (a b : Z) : Z := - ((- a) / b).

(** ** The readers of the stats table: [api/stats.js] *)

(** A row of [stats] with its key columns.  The table is scanned in the
    order of the map's keys; every query below that promises an order sorts. *)
Record StatEntry := mkStatEntry {
  se_app_id : string;
  se_metric : string;
  se_row : StatRow
}.

Definition stat_entries (db : DB) : list StatEntry :=
  (λ kv, mkStatEntry kv.1.1 kv.1.2 kv.2) <$> map_to_list (stats db).

Definition metric_le (e1 e2 : StatEntry) : Prop :=
  str_le (se_metric e1) (se_metric e2).

#[global] Instance metric_le_dec : RelDecision metric_le.
Proof. intros a b. unfold metric_le. apply _. Defined.

(** [ORDER BY value]: a [NULL] value comes first. *)
Definition value_le (e1 e2 : StatEntry) : Prop :=
  SQL.le (st_value (se_row e1)) (st_value (se_row e2)).

#[global] Instance value_le_dec : RelDecision value_le.
Proof. intros a b. unfold value_le. apply _. Defined.

(** [LIMIT ? OFFSET ?]: a negative offset is no offset. *)
Definition limit_offset {A} (limit offset : Z) (rows : list A) : list A :=
  sql_limit limit (drop (Z.to_nat offset) rows).

(** A row of the detailed format; [last_updated] is [null] for a timestamp
    of 0, and is kept as the timestamp otherwise. *)
Record DetailedStat := mkDetailedStat {
  ds_metric : string;
  ds_value : option Z;
  ds_category : string;
  ds_last_updated : option Z
}.

Record PaginationInfo := mkPaginationInfo {
  pi_page : Z;
  pi_pageSize : Z;
  pi_totalItems : Z;
  pi_totalPages : Z
}.

Inductive StatsResponse :=
  (** [{app_id, groupBy: 'category', data}] *)
| statsGrouped (app_id : string) (data : gmap string (option Z))
  (** [{app_id, filters: {prefix, category}, data, pagination?}] *)
| statsDetailed (app_id : string) (prefix category : option string)
    (data : list DetailedStat) (pagination : option PaginationInfo)
  (** the simple format: an object from metric to value *)
| statsSimple (data : gmap string (option Z))
  (** [{app_id, category, sort, metrics}] of [handleTopMetrics] *)
| statsTop (app_id category sort : string) (metrics : list StatEntry).

(** One step of [GROUP BY category] with an aggregate: the group of [c]
    takes the row in by [step]; when there is none it is opened with
    [first]. *)
Fixpoint category_add {A} (c : string) (first : A) (step : A → A)
    (groups : list (string * A)) : list (string * A) :=
  match groups with
  | [] => [(c, first)]
  | g :: rest =>
      if decide (g.1 = c) then (c, step g.2) :: rest
      else g :: category_add c first step rest
  end.

(** [SELECT category, SUM(value) ... GROUP BY category] over [rows]. *)
Definition category_sums (rows : list StatEntry) : list (string * option Z) :=
  foldl (λ groups e,
           category_add (st_category (se_row e))
             (SQL.sum_step None (st_value (se_row e)))
             (λ acc, SQL.sum_step acc (st_value (se_row e)))
             groups)
    [] rows.

(** [SELECT category, COUNT( * ) ... GROUP BY category] over [rows]. *)
Definition category_counts (rows : list StatEntry) : list (string * Z) :=
  foldl (λ groups e,
           category_add (st_category (se_row e)) 1 (λ n, n + 1) groups)
    [] rows.

Definition category_le {A} (g1 g2 : string * A) : Prop := str_le g1.1 g2.1.

#[global] Instance category_le_dec {A} : RelDecision (@category_le A).
Proof. intros a b. unfold category_le. apply _. Defined.

(** [SELECT category, SUM(value) as total FROM stats WHERE app_id = ?
    GROUP BY category]; the groups come in ascending order of category, as
    the engine's sorter yields them. *)
Definition select_category_totals (db : DB) (app_id : string)
  : list (string * option Z) :=
  merge_sort category_le
    (category_sums (filter (λ e, se_app_id e = app_id) (stat_entries db))).

(** [for (const row of results) stats[row.category || 'general'] = row.total]
    on a plain object. *)
Definition category_object {A} (rows : list (string * A)) : gmap string A :=
  foldl (λ stats row,
           JS.set_prop (JS.or_else (Some row.1) "general") row.2 stats)
    ∅ rows.

(** [s.toLowerCase()] on the letters A to Z; the handlers compare the
    result with 'asc' only, which no other character lowers to. *)
Fixpoint toLowerCase (s : string) : string :=
  match s with
  | EmptyString => EmptyString
  | String c s' =>
      let n := Ascii.N_of_ascii c in
      String (if ((65 <=? n) && (n <=? 90))%N then Ascii.ascii_of_N (n + 32)
              else c)
        (toLowerCase s')
  end.

Section StatsReaders.

(** The store's [LIKE]: pattern, then text. *)
Variable like : string → string → bool.

(** [WHERE app_id = ?], then [AND metric LIKE ?] with the prefix followed
    by [%] when a prefix is given, then [AND category = ?] when a category
    is given. *)
Definition stats_where (app_id : string) (prefix category : option string)
    (e : StatEntry) : Prop :=
  se_app_id e = app_id ∧
  (if JS.truthy prefix
   then like (default "" prefix +:+ "%") (se_metric e) = true else True) ∧
  (if JS.truthy category
   then st_category (se_row e) = default "" category else True).

#[global] Instance stats_where_dec a p c e : Decision (stats_where a p c e).
Proof.
  unfold stats_where. destruct (JS.truthy p), (JS.truthy c); apply _.
Defined.

(** [... ORDER BY metric] *)
Definition select_stats (app_id : string) (prefix category : option string)
    (db : DB) : list StatEntry :=
  merge_sort metric_le
    (filter (stats_where app_id prefix category) (stat_entries db)).

Definition detailed (e : StatEntry) : DetailedStat :=
  mkDetailedStat (se_metric e) (st_value (se_row e)) (st_category (se_row e))
    (if st_last_updated (se_row e) =? 0 then None
     else Some (st_last_updated (se_row e))).

(** [handleStatsQuery] of [api/stats.js].  [page_param] and
    [pageSize_param] are the parsed integers [getPaginationParams] starts
    from.  The simple format fills a plain object:
    [stats[row.metric] = row.value]. *)
Definition handleStatsQuery (prefix category groupBy format paginate :
    option string) (page_param pageSize_param : Z) (db : DB)
    (app_id : string) : StatsResponse :=
  let format := JS.or_else format "simple" in
  if bool_decide (groupBy = Some "category") then
    statsGrouped app_id (category_object (select_category_totals db app_id))
  else
    let usePagination := bool_decide (paginate = Some "true") in
    let params := getPaginationParams page_param pageSize_param in
    let totalCount :=
      if usePagination
      then Z.of_nat (length (filter (stats_where app_id prefix category)
                               (stat_entries db)))
      else 0 in
    let results :=
      if usePagination
      then limit_offset (pp_pageSize params) (pp_offset params)
             (select_stats app_id prefix category db)
      else select_stats app_id prefix category db in
    if String.eqb format "detailed" then
      statsDetailed app_id (JS.or_null prefix) (JS.or_null category)
        (detailed <$> results)
        (if usePagination
         then Some (mkPaginationInfo (pp_page params) (pp_pageSize params)
                      totalCount (ceil_div totalCount (pp_pageSize params)))
         else None)
    else
      statsSimple
        (foldl (λ stats row,
                  JS.set_prop (se_metric row) (st_value (se_row row)) stats)
           ∅ results).

End StatsReaders.

(** [WHERE app_id = ?], then [AND category = ?] when a category is given. *)
Definition top_where (app_id : string) (category : option string)
    (e : StatEntry) : Prop :=
  se_app_id e = app_id ∧
  (if JS.truthy category
   then st_category (se_row e) = default "" category else True).

#[global] Instance top_where_dec a c e : Decision (top_where a c e).
Proof. unfold top_where. destruct (JS.truthy c); apply _. Defined.

(** [handleTopMetrics]: [limit_param] is [parseInt(get('limit') || '10')],
    and the limit bound to [LIMIT ?] is one the store takes, from [-2^63]
    on.  Rows of equal value come in an order the engine chooses; here it
    is the one the sort leaves. *)
Definition handleTopMetrics (category sort : option string) (limit_param : Z)
    (db : DB) (app_id : string) : StatsResponse :=
  let limit := Z.min 100 limit_param in
  let ascending :=
    bool_decide (toLowerCase <$> sort = Some "asc") in
  let rows := filter (top_where app_id category) (stat_entries db) in
  let sorted :=
    if ascending then merge_sort value_le rows
    else merge_sort (flip value_le) rows in
  statsTop app_id (JS.or_else category "all")
    (if ascending then "asc" else "desc") (sql_limit limit sorted).

(** The [data] of a detailed stats response, and [SUM(value)] over a list
    of Stat rows. *)
Definition stats_data (r : StatsResponse) : list DetailedStat :=
  match r with
  | statsDetailed _ _ _ data _ => data
  | _ => []
  end.


(** ** The event history: [handleEventHistory]

    [limit_param] is [parseInt(get('limit') || '50')], with the limit bound
    to [LIMIT ?] one the store takes, from [-2^63] on; [fromDate] is what
    [parseDateParam] gives.  The variant of [api/events.js] has no country
    filter and is this function at [country = None]. *)

(** [WHERE app_id = ? AND timestamp >= ?], then [AND event_type = ?],
    [AND event_category = ?], [AND country = ?] for the filters given.
    Here [timestamp] is the column. *)
Definition history_where (app_id : string) (fromDate : Z)
    (event_type category country : option string) (e : EventRow) : Prop :=
  ev_app_id e = app_id ∧ fromDate ≤ ev_timestamp e ∧
  (if JS.truthy event_type
   then ev_event_type e = default "" event_type else True) ∧
  (if JS.truthy category
   then ev_event_category e = default "" category else True) ∧
  (if JS.truthy country then ev_country e = country else True).

#[global] Instance history_where_dec a f t c co e :
  Decision (history_where a f t c co e).
Proof.
  unfold history_where.
  destruct (JS.truthy t), (JS.truthy c), (JS.truthy co); apply _.
Defined.

(** An event is at least as new as another. *)
Definition newer_first (e1 e2 : EventRow) : Prop :=
  ev_timestamp e2 ≤ ev_timestamp e1.

#[global] Instance newer_first_dec : RelDecision newer_first.
Proof. intros a b. unfold newer_first. apply _. Defined.

(** [{app_id, from, count, events}]; a returned row is kept as the row of
    the log, and is shown with the text [datetime(timestamp, 'unixepoch')]
    for its timestamp. *)
Inductive HistoryResponse :=
| historySuccess (app_id : string) (fromDate : Z) (count : Z)
    (rows : list EventRow).

Section History.

(** The store's [datetime(timestamp, 'unixepoch')]: a text, or [NULL] for
    a timestamp outside the years the store formats. *)
Variable datetime : Z → option string.

(** [ORDER BY timestamp DESC].  The query selects
    [datetime(timestamp, 'unixepoch') as timestamp], and in [ORDER BY] the
    name is that of the result column: the rows are ordered by this text,
    descending, a [NULL] last. *)
Definition history_before (e1 e2 : EventRow) : Prop :=
  SQL.text_le (datetime (ev_timestamp e2)) (datetime (ev_timestamp e1)).

#[global] Instance history_before_dec : RelDecision history_before.
Proof. intros a b. unfold history_before. apply _. Defined.

Definition handleEventHistory (event_type category country : option string)
    (limit_param fromDate : Z) (db : DB) (app_id : string) : HistoryResponse :=
  let limit := Z.min 100 limit_param in
  let results :=
    sql_limit limit
      (merge_sort history_before
         (filter (history_where app_id fromDate event_type category country)
            (events db))) in
  historySuccess app_id fromDate (Z.of_nat (length results)) results.

End History.

Definition history_rows (r : HistoryResponse) : list EventRow :=
  match r with historySuccess _ _ _ rows => rows end.

(** A reference [datetime(timestamp, 'unixepoch')] for the examples: the
    text of a timestamp of the years 0000 to 9999, and [NULL] for one
    after them.  It is not used on timestamps before the year 0000. *)
Definition datetime_reference (timestamp : Z) : option string :=
  if (timestamp <? -62167219200) || (253402300799 <? timestamp) then None
  else
    let '(y, m, d) := SQLite.civil_from_days (timestamp / 86400) in
    let s := timestamp mod 86400 in
    Some (SQLite.pad4 y +:+ "-" +:+ SQLite.pad2 m +:+ "-" +:+ SQLite.pad2 d
          +:+ " " +:+ SQLite.pad2 (s / 3600) +:+ ":"
          +:+ SQLite.pad2 ((s mod 3600) / 60) +:+ ":"
          +:+ SQLite.pad2 (s mod 60)).

(** ** [database.js]: the apps *)

(** [getAvailableApps(db)]:
    [SELECT DISTINCT app_id FROM stats ORDER BY app_id]. *)
Definition getAvailableApps (db : DB) : list string :=
  merge_sort str_le (remove_dups (se_app_id <$> stat_entries db)).

(** [{app_id, event_count, metric_count, last_activity, categories}];
    [last_activity] is kept as a timestamp. *)
Record AppSummary := mkAppSummary {
  as_app_id : string;
  as_event_count : Z;
  as_metric_count : Z;
  as_last_activity : option Z;
  as_categories : gmap string Z
}.

(** [MAX(timestamp)], [NULL] over no rows. *)
Definition max_timestamp (rows : list EventRow) : option Z :=
  foldr (λ e acc,
           Some (match acc with
                 | Some m => Z.max (ev_timestamp e) m
                 | None => ev_timestamp e
                 end))
    None rows.

(** [getAppSummary(db, app_id)]; [categoryBreakdown] is a plain object. *)
Definition getAppSummary (db : DB) (app_id : string) : AppSummary :=
  let own_events := filter (λ e, ev_app_id e = app_id) (events db) in
  let own_stats := filter (λ e, se_app_id e = app_id) (stat_entries db) in
  let categories := merge_sort category_le (category_counts own_stats) in
  mkAppSummary app_id
    (Z.of_nat (length own_events))
    (Z.of_nat (length own_stats))
    (match max_timestamp own_events with
     | Some t => if t =? 0 then None else Some t
     | None => None
     end)
    (category_object categories).

(** A reference [LIKE] for the examples, for patterns whose only wildcard
    is a final [%]: the text starts with what stands before the [%], letters
    compared without case, as SQLite compares ASCII letters. *)
Fixpoint like_prefix (pattern text : string) : bool :=
  match pattern with
  | EmptyString => bool_decide (text = EmptyString)
  | String c pattern' =>
      if bool_decide (c = "%"%char) && bool_decide (pattern' = EmptyString)
      then true
      else
        match text with
        | EmptyString => false
        | String d text' =>
            bool_decide (toLowerCase (String c EmptyString)
                         = toLowerCase (String d EmptyString))
            && like_prefix pattern' text'
        end
  end.

(** The category a statement writes. *)
Definition stmt_category (st : Statement) : string :=
  match st with
  | InsertEvent _ _ c _ _ _ _ => c
  | UpsertStat _ _ c _ _ _ _ => c
  end.

(** No row of the store has the empty category. *)
Definition categories_nonempty (db : DB) : Prop :=
  Forall (λ e, ev_event_category e ≠ "") (events db) ∧
  map_Forall (λ _ r, st_category r ≠ "") (stats db).

(** ** [api/apps.js] *)



(** A row of [GROUP BY event_type] with [COUNT( * )] and [SUM(value)]. *)
Record TypeGroup := mkTypeGroup {
  tg_metric : string;
  tg_count : Z;
  tg_value_sum : option Z
}.

Fixpoint type_add (t : string) (v : option Z) (groups : list TypeGroup)
  : list TypeGroup :=
  match groups with
  | [] => [mkTypeGroup t 1 (SQL.sum_step None v)]
  | g :: rest =>
      if decide (tg_metric g = t)
      then mkTypeGroup t (tg_count g + 1) (SQL.sum_step (tg_value_sum g) v)
             :: rest
      else g :: type_add t v rest
  end.

(** [ORDER BY count DESC, value_sum DESC]; a [NULL] sum comes last. *)
Definition trending_before (g1 g2 : TypeGroup) : Prop :=
  tg_count g2 < tg_count g1 ∨
  (tg_count g2 = tg_count g1 ∧ SQL.le (tg_value_sum g2) (tg_value_sum g1)).

#[global] Instance trending_before_dec : RelDecision trending_before.
Proof. intros a b. unfold trending_before. apply _. Defined.

(** [ORDER BY total DESC]; a [NULL] total comes last. *)
Definition total_desc (g1 g2 : string * option Z) : Prop := SQL.le g2.2 g1.2.

#[global] Instance total_desc_dec : RelDecision total_desc.
Proof. intros a b. unfold total_desc. apply _. Defined.

(** [{app_id, summary, recent_activity: {last_24h_events, last_24h_value},
    categories, trending}] *)
Record Dashboard := mkDashboard {
  dash_app_id : string;
  dash_summary : AppSummary;
  dash_last_24h_events : Z;
  dash_last_24h_value : Z;
  dash_categories : list (string * option Z);
  dash_trending : list TypeGroup
}.

(** [handleAppDashboard(request, db, app_id)] of [api/apps.js].  The one
    aggregate row of the recent activity has a [SUM(value)] that is [NULL]
    over no event and over events without a value, which [|| 0] turns
    into 0.  Groups that tie in an [ORDER BY] come in an order the engine
    chooses; here it is the one the sort leaves. *)
Definition handleAppDashboard (env : Env) (db : DB) (app_id : string)
  : Dashboard :=
  let summary := getAppSummary db app_id in
  let yesterday := now env - 60 * 60 * 24 in
  let recentActivity :=
    filter (λ e, ev_app_id e = app_id ∧ yesterday ≤ ev_timestamp e)
      (events db) in
  let categoryBreakdown :=
    merge_sort total_desc
      (category_sums (filter (λ e, se_app_id e = app_id) (stat_entries db))) in
  let lastWeek := now env - 60 * 60 * 24 * 7 in
  let trendingMetrics :=
    sql_limit 5
      (merge_sort trending_before
         (foldl (λ groups e, type_add (ev_event_type e) (ev_value e) groups)
            [] (filter (λ e, ev_app_id e = app_id ∧ lastWeek ≤ ev_timestamp e)
                  (events db)))) in
  mkDashboard app_id summary
    (Z.of_nat (length recentActivity)) (default 0 (sum_values recentActivity))
    categoryBreakdown trendingMetrics.


(** * Properties *)

(** ** The string primitives *)

Lemma startsWith_spec s p : JS.startsWith s p = true ↔ ∃ b, s = p +:+ b.
Proof.
  unfold JS.startsWith. revert s. induction p as [|a p IH]; intros s.
  - destruct s; (split; [by eexists|done]).
  - destruct s as [|c s].
    + split; [done|]. by intros [b [=]].
    + change (String.prefix (String a p) (String c s))
        with (if Ascii.ascii_dec a c then String.prefix p s else false).
      change (λ b, String c s = String a p +:+ b)
        with (λ b, String c s = String a (p +:+ b)).
      destruct (Ascii.ascii_dec a c) as [->|Hne].
      * rewrite IH. split; intros [b Hb]; exists b; congruence.
      * split; [done|]. intros [b [= Hc _]]. congruence.
Qed.

(** [includes] is substring search. *)
Lemma includes_spec s p : JS.includes s p = true ↔ ∃ a b, s = a +:+ p +:+ b.
Proof.
  induction s as [|c s IH]; cbn [JS.includes]; rewrite orb_true_iff.
  - fold (JS.startsWith EmptyString p). rewrite startsWith_spec. split.
    + intros [[b Hb]|[=]]. by exists EmptyString, b.
    + intros (a & b & Hab). left. exists b.
      destruct a; [done|discriminate].
  - fold (JS.startsWith (String c s) p). rewrite startsWith_spec, IH. split.
    + intros [[b Hb]|(a & b & Hab)].
      * by exists EmptyString, b.
      * exists (String c a), b.
        change (String c s = String c (a +:+ p +:+ b)). by rewrite Hab.
    + intros ([|c' a] & b & Hab).
      * left. by exists b.
      * right. exists a, b.
        change (String c s = String c' (a +:+ p +:+ b)) in Hab. congruence.
Qed.

(** ** The categorizer *)

(** C4. [determineCategory] is total, evaluates the seven rules in order
    with the first match winning, matches the raw text case-sensitively, and
    maps "purchase_premium" to "revenue", "page_view" to "engagement",
    "random_xyz" to "general" and "error_on_login" to "error" (the error rule
    comes before the user rule, which "login" would satisfy). *)
Theorem determineCategory_first_match :
  (∀ t, first_match category_rules t = Some (determineCategory t)) ∧
  length category_rules = 7%nat ∧
  (∀ t, determineCategory t ∈
          ["revenue"; "lifecycle"; "engagement"; "interaction"; "error";
           "user"; "general"]) ∧
  determineCategory "purchase_premium" = "revenue" ∧
  determineCategory "page_view" = "engagement" ∧
  determineCategory "random_xyz" = "general" ∧
  determineCategory "error_on_login" = "error" ∧
  first_match (drop 5 category_rules) "error_on_login" = Some "user" ∧
  determineCategory "Purchase_Premium" = "general" ∧
  determineCategory "PAGE_VIEW" = "general".
Proof.
  split; [|split; [reflexivity|split]].
  - intros t. unfold determineCategory, category_rules, first_match.
    repeat match goal with
           | |- context [if ?b then _ else _] => destruct b eqn:?
           end; reflexivity.
  - intros t. unfold determineCategory.
    repeat match goal with
           | |- context [if ?b then _ else _] => destruct b
           end; set_solver.
  - repeat split; reflexivity.
Qed.

(** ** The metric key *)

(** C5, counterexample.  With the empty string as qualifier the writers use
    the bare event type, where the stated rule gives a trailing dot. *)
Lemma metricKey_empty_qualifier :
  metricKey "install" (Some "") = "install" ∧
  buildMetricKey_doc "install" (Some "") = "install." ∧
  metricKey "install" (Some "") ≠ buildMetricKey_doc "install" (Some "").
Proof. repeat split; [reflexivity..|discriminate]. Qed.

(** C5, amended.  The metric key is the event type when the qualifier is
    null or the empty string, and event type, dot, qualifier otherwise; the
    keys of ("install", null) and ("purchase", "premium") are "install" and
    "purchase.premium". *)
Theorem metricKey_truthy_qualifier :
  (∀ event_type qualifier,
     metricKey event_type qualifier =
     match qualifier with
     | None => event_type
     | Some EmptyString => event_type
     | Some q => event_type +:+ "." +:+ q
     end) ∧
  metricKey "install" None = "install" ∧
  metricKey "purchase" (Some "premium") = "purchase.premium".
Proof.
  split; [|split; reflexivity].
  intros t [[|c q]|]; reflexivity.
Qed.

(** Away from the empty qualifier the two derivations agree. *)
Lemma metricKey_doc_agree event_type qualifier :
  qualifier ≠ Some "" →
  metricKey event_type qualifier = buildMetricKey_doc event_type qualifier.
Proof. destruct qualifier as [[|c q]|]; [congruence|reflexivity..]. Qed.

(** ** Splitting a requested metric *)

(** C10, the defect.  [metric.split('.', 2)] splits at every dot and keeps two
    pieces, so the text after a second dot is dropped: "a.b.c" queries
    qualifier "b", not "b.c", and the metric of the README's own event
    [{event_type: "update", qualifier: "1.2.0"}] queries qualifier "1". *)
Theorem splitMetric_drops_after_second_dot :
  splitMetric "a.b.c" = ("a", Some "b") ∧
  split_first_dot "a.b.c" = ("a", Some "b.c") ∧
  metricKey "update" (Some "1.2.0") = "update.1.2.0" ∧
  splitMetric "update.1.2.0" = ("update", Some "1").
Proof. repeat split; reflexivity. Qed.

(** The code's split in terms of the first dot: the event type is the text
    before it, the qualifier the text between the first and the second dot. *)
Lemma prefix_dot c s : String.prefix "." (String c s) = Ascii.eqb c ".".
Proof.
  change (String.prefix "." (String c s))
    with (if Ascii.ascii_dec "." c then String.prefix "" s else false).
  destruct (Ascii.ascii_dec "." c) as [<-|Hne].
  - by destruct s.
  - symmetry. apply Ascii.eqb_neq. congruence.
Qed.

Lemma includes_dot m :
  JS.includes m "." = bool_decide (is_Some (split_first_dot m).2).
Proof.
  induction m as [|c s IH]; [reflexivity|].
  cbn [JS.includes split_first_dot]. rewrite prefix_dot.
  destruct (Ascii.eqb c ".") eqn:Hc; simpl.
  - reflexivity.
  - rewrite IH. by destruct (split_first_dot s).
Qed.

Lemma split_first_piece m :
  JS.split "." m =
  match split_first_dot m with
  | (t, None) => [t]
  | (t, Some r) => t :: JS.split "." r
  end.
Proof.
  induction m as [|c s IH]; [reflexivity|].
  cbn [JS.split split_first_dot].
  destruct (Ascii.eqb c ".") eqn:Hc; [reflexivity|].
  rewrite IH. by destruct (split_first_dot s) as [t [r|]].
Qed.

Lemma splitMetric_first_dot m :
  splitMetric m =
  match split_first_dot m with
  | (t, None) => (m, None)
  | (t, Some r) => (t, Some (split_first_dot r).1)
  end.
Proof.
  unfold splitMetric, JS.split_limit. rewrite includes_dot, split_first_piece.
  destruct (split_first_dot m) as [t [r|]]; simpl; [|reflexivity].
  rewrite (split_first_piece r).
  by destruct (split_first_dot r) as [t' [r'|]].
Qed.

(** The two splits agree exactly when nothing follows a second dot. *)
Lemma splitMetric_single_dot m t r :
  split_first_dot m = (t, Some r) →
  (split_first_dot r).2 = None →
  splitMetric m = split_first_dot m.
Proof.
  intros Hm Hr. rewrite splitMetric_first_dot, Hm.
  assert (split_first_dot r = (r, None)) as ->; [|done].
  clear Hm. induction r as [|c s IH]; [done|].
  revert Hr. cbn [split_first_dot]. destruct (Ascii.eqb c "."); [done|].
  destruct (split_first_dot s) as [t' q'] eqn:Hs. simpl. intros ->.
  by injection (IH eq_refl) as ->.
Qed.

(** ** The event recorder *)

(** *** Nullable sums *)

Lemma sum_step_comm a x y :
  SQL.sum_step (SQL.sum_step a x) y = SQL.sum_step (SQL.sum_step a y) x.
Proof. destruct a, x, y; simpl; f_equal; lia. Qed.

Lemma sum_snoc vs v : SQL.sum (vs ++ [v]) = SQL.sum_step (SQL.sum vs) v.
Proof. unfold SQL.sum. by rewrite foldl_app. Qed.

Lemma sum_from acc vs :
  foldl SQL.sum_step acc vs
  = match SQL.sum vs with
    | Some s => Some (default 0 acc + s)
    | None => acc
    end.
Proof.
  induction vs as [|v vs IH] using rev_ind; [done|].
  rewrite foldl_app, sum_snoc. simpl. rewrite IH.
  destruct (SQL.sum vs), v, acc; simpl; f_equal; lia.
Qed.

Lemma sum_cons v vs :
  SQL.sum (v :: vs)
  = match v with
    | Some x => Some (x + default 0 (SQL.sum vs))
    | None => SQL.sum vs
    end.
Proof.
  unfold SQL.sum at 1. simpl. rewrite sum_from.
  destruct v, (SQL.sum vs); simpl; f_equal; lia.
Qed.

Lemma sum_app vs1 vs2 :
  SQL.sum (vs1 ++ vs2)
  = match SQL.sum vs1, SQL.sum vs2 with
    | Some x, Some y => Some (x + y)
    | Some x, None => Some x
    | None, s => s
    end.
Proof.
  unfold SQL.sum at 1. rewrite foldl_app. fold (SQL.sum vs1).
  rewrite sum_from. destruct (SQL.sum vs1), (SQL.sum vs2); simpl; f_equal; lia.
Qed.


Lemma sum_is_Some vs : is_Some (SQL.sum vs) ↔ ∃ v, v ∈ vs ∧ is_Some v.
Proof.
  induction vs as [|v vs IH].
  - split; [by intros [??]|]. by intros (? & ?%elem_of_nil & _).
  - rewrite sum_cons. destruct v as [x|].
    + split; [|done]. intros _. exists (Some x). split; [by left|done].
    + rewrite IH. split.
      * intros (v & Hv & Hs). exists v. split; [by right|done].
      * intros (v & [->|Hv]%elem_of_cons & Hs); [by destruct Hs|].
        by exists v.
Qed.


Lemma add_all_snoc vs v :
  SQL.add_all (vs ++ [v]) = SQL.add (SQL.add_all vs) v.
Proof.
  induction vs as [|x vs IH]; simpl.
  - destruct v; simpl; f_equal; lia.
  - unfold SQL.add_all in *. cbn [foldr]. rewrite IH.
    destruct x, (foldr SQL.add (Some 0) vs), v; simpl; f_equal; lia.
Qed.

Lemma sum_values_app l1 l2 :
  sum_values (l1 ++ l2)
  = match sum_values l1, sum_values l2 with
    | Some x, Some y => Some (x + y)
    | Some x, None => Some x
    | None, s => s
    end.
Proof. unfold sum_values. by rewrite fmap_app, sum_app. Qed.

Lemma sum_values_snoc l e :
  sum_values (l ++ [e]) = SQL.sum_step (sum_values l) (ev_value e).
Proof. unfold sum_values. rewrite fmap_app. apply sum_snoc. Qed.

(** *** Batches *)

Lemma batch_from acc l :
  foldl (λ acc st, acc ≫= λ d, exec d st) acc l = acc ≫= batch l.
Proof.
  destruct acc as [d|]; [done|]. simpl.
  induction l as [|st l IH]; [done|]. exact IH.
Qed.

Lemma batch_app l1 l2 db : batch (l1 ++ l2) db = batch l1 db ≫= batch l2.
Proof. unfold batch at 1. rewrite foldl_app. apply batch_from. Qed.

Lemma batch_cons st l db : batch (st :: l) db = exec db st ≫= batch l.
Proof. unfold batch at 1. simpl. apply batch_from. Qed.

(** What the pair of statements of one event does to the store: it fails
    on a [NULL] timestamp, and otherwise appends the event and upserts its
    counter. *)
Lemma batch_event_pair a t c q v ts co c' db :
  batch [InsertEvent a t c q v ts co;
         UpsertStat a (metricKey t q) c' v ts v ts] db =
  match ts with
  | None => None
  | Some timestamp =>
      Some (mkDB (events db ++ [mkEventRow a t c q v timestamp co])
              (match stats db !! (a, metricKey t q) with
               | None =>
                   <[(a, metricKey t q) := mkStatRow c' v timestamp]> (stats db)
               | Some r =>
                   <[(a, metricKey t q) :=
                       mkStatRow (st_category r) (SQL.add (st_value r) v)
                         timestamp]> (stats db)
               end))
  end.
Proof.
  destruct ts as [timestamp|]; [|done]. unfold batch. simpl.
  by destruct (stats db !! (a, metricKey t q)).
Qed.

(** C6, the defect.  The read-back is [result?.value || value]: when the
    counter stands at 0 after the commit, the response carries the event's
    own value.  After +5 and -5 on one metric the row holds 0 and the second
    response reports -5.  The api/events.js variant does the same. *)
Theorem handleTrackEvent_readback_zero :
  let env := mkEnv 1700000000 None in
  let plus5 :=
    mkEventData (Some "balance") None (Some (Some 5)) None None None in
  let minus5 :=
    mkEventData (Some "balance") None (Some (Some (-5))) None None None in
  let db1 := (HandlersEvent.handleTrackEvent env plus5 empty_db "app1").2 in
  let out := HandlersEvent.handleTrackEvent env minus5 db1 "app1" in
  let db1' := (ApiEvents.handleTrackEvent env plus5 empty_db "app1").2 in
  let out' := ApiEvents.handleTrackEvent env minus5 db1' "app1" in
  out.1 = trackSuccess "app1" "balance" "general" (Some (-5))
            (Some 1700000000) None ∧
  st_value <$> stats out.2 !! ("app1", "balance") = Some (Some 0) ∧
  out'.1 = trackSuccess "app1" "balance" "general" (Some (-5))
             (Some 1700000000) None ∧
  st_value <$> stats out'.2 !! ("app1", "balance") = Some (Some 0).
Proof. vm_compute. repeat split; reflexivity. Qed.

(** Away from 0 the response does carry the committed counter. *)
Lemma handleTrackEvent_readback
    env data db app_id a metric category v ts co db' :
  HandlersEvent.handleTrackEvent env data db app_id =
    (trackSuccess a metric category v ts co, db') →
  ∃ r, stats db' !! (app_id, metric) = Some r ∧
       v = match st_value r with
           | Some n => if n =? 0 then destructure (d_value data) (Some 1)
                       else Some n
           | None => destructure (d_value data) (Some 1)
           end.
Proof.
  unfold HandlersEvent.handleTrackEvent.
  destruct (negb (JS.truthy (d_event_type data))); [discriminate|].
  unfold createEventStatements. rewrite batch_event_pair.
  destruct (destructure (d_timestamp data) _) as [timestamp|]; [|discriminate].
  intros [= <- <- <- <- <- <- <-]. simpl.
  destruct (stats db !! _) as [r|]; rewrite lookup_insert_eq; eauto.
Qed.

(** The end-to-end scenario: 999, then 1998. *)
Example premium_upgrade_twice :
  let env := mkEnv 1700000000 None in
  let data :=
    mkEventData (Some "purchase") (Some "premium_upgrade") (Some (Some 999))
      None None None in
  let out1 := HandlersEvent.handleTrackEvent env data empty_db "app1" in
  let out2 := HandlersEvent.handleTrackEvent env data out1.2 "app1" in
  out1.1 = trackSuccess "app1" "purchase.premium_upgrade" "revenue" (Some 999)
             (Some 1700000000) None ∧
  out2.1 = trackSuccess "app1" "purchase.premium_upgrade" "revenue" (Some 1998)
             (Some 1700000000) None ∧
  length (events out2.2) = 2%nat.
Proof. vm_compute. repeat split; reflexivity. Qed.

(** *** Category of an existing counter *)

(** C3, counterexample.  A second event on an existing counter, recorded
    with another category, leaves the first category on the Stat row. *)
Lemma category_not_overwritten :
  let env := mkEnv 1700000000 None in
  let first :=
    mkEventData (Some "open") None (Some (Some 1)) (Some "lifecycle")
      (Some (Some 100)) None in
  let second :=
    mkEventData (Some "open") None (Some (Some 2)) (Some "promo")
      (Some (Some 200)) None in
  let db1 := (HandlersEvent.handleTrackEvent env first empty_db "app1").2 in
  let out := HandlersEvent.handleTrackEvent env second db1 "app1" in
  is_Some (stats db1 !! ("app1", "open")) ∧
  out.1 = trackSuccess "app1" "open" "promo" (Some 3) (Some 200) None ∧
  stats out.2 !! ("app1", "open") = Some (mkStatRow "lifecycle" (Some 3) 200) ∧
  st_category <$> stats out.2 !! ("app1", "open") ≠ Some "promo".
Proof. vm_compute. repeat split; eauto; discriminate. Qed.

(** C3, amended.  A successful record call on an existing Stat row adds the
    event's value, sets [last_updated] to the event's timestamp, and leaves
    the row's category as it was: the category of a counter is the one
    resolved by the call that created the row. *)
Theorem handleTrackEvent_keeps_category
    env data db app_id metric category v ts co db' r :
  HandlersEvent.handleTrackEvent env data db app_id =
    (trackSuccess app_id metric category v (Some ts) co, db') →
  stats db !! (app_id, metric) = Some r →
  stats db' !! (app_id, metric) =
    Some (mkStatRow (st_category r)
            (SQL.add (st_value r) (destructure (d_value data) (Some 1))) ts).
Proof.
  unfold HandlersEvent.handleTrackEvent.
  destruct (negb (JS.truthy (d_event_type data))); [discriminate|].
  unfold createEventStatements. rewrite batch_event_pair.
  destruct (destructure (d_timestamp data) _) as [timestamp|]; [|discriminate].
  intros [= <- <- <- <- <- <-] Hr. simpl.
  rewrite Hr. apply lookup_insert_eq.
Qed.

(** The theorem on the second of two calls with different categories. *)
Lemma handleTrackEvent_keeps_category_witness :
  let env := mkEnv 1700000000 None in
  let first :=
    mkEventData (Some "open") None (Some (Some 1)) (Some "lifecycle")
      (Some (Some 100)) None in
  let second :=
    mkEventData (Some "open") None (Some (Some 2)) (Some "promo")
      (Some (Some 200)) None in
  let db1 := (HandlersEvent.handleTrackEvent env first empty_db "app1").2 in
  stats (HandlersEvent.handleTrackEvent env second db1 "app1").2
    !! ("app1", "open") = Some (mkStatRow "lifecycle" (Some 3) 200).
Proof.
  intros env first second db1.
  apply (handleTrackEvent_keeps_category env second db1 "app1" "open" "promo"
           (Some 3) 200 None _ (mkStatRow "lifecycle" (Some 1) 100)).
  - vm_compute. reflexivity.
  - vm_compute. reflexivity.
Defined.

(** The first event of a metric creates the row with the resolved category. *)
Lemma handleTrackEvent_creates_row
    env data db app_id metric category v ts co db' :
  HandlersEvent.handleTrackEvent env data db app_id =
    (trackSuccess app_id metric category v (Some ts) co, db') →
  stats db !! (app_id, metric) = None →
  stats db' !! (app_id, metric) =
    Some (mkStatRow category (destructure (d_value data) (Some 1)) ts).
Proof.
  unfold HandlersEvent.handleTrackEvent.
  destruct (negb (JS.truthy (d_event_type data))); [discriminate|].
  unfold createEventStatements. rewrite batch_event_pair.
  destruct (destructure (d_timestamp data) _) as [timestamp|]; [|discriminate].
  intros [= <- <- <- <- <- <-] Hr. simpl.
  rewrite Hr. apply lookup_insert_eq.
Qed.

(** The api/events.js variant binds the same upsert. *)
Lemma api_handleTrackEvent_keeps_category
    env data db app_id metric category v ts co db' r :
  ApiEvents.handleTrackEvent env data db app_id =
    (trackSuccess app_id metric category v (Some ts) co, db') →
  stats db !! (app_id, metric) = Some r →
  stats db' !! (app_id, metric) =
    Some (mkStatRow (st_category r)
            (SQL.add (st_value r) (destructure (d_value data) (Some 1))) ts).
Proof.
  unfold ApiEvents.handleTrackEvent.
  destruct (negb (JS.truthy (d_event_type data))); [discriminate|].
  rewrite batch_event_pair.
  destruct (destructure (d_timestamp data) _) as [timestamp|]; [|discriminate].
  intros [= <- <- <- <- <- <-] Hr. simpl.
  rewrite Hr. apply lookup_insert_eq.
Qed.

(** *** Batches with an invalid item *)

Lemma batch_loop_invalid ts co app_id items statements results :
  (∃ item, item ∈ items ∧ JS.truthy (d_event_type item) = false) →
  HandlersEvent.batch_loop ts co app_id items statements results =
    inl (errorResponse "Missing event_type in batch item" 400).
Proof.
  revert statements results.
  induction items as [|event rest IH];
    intros statements results (item & Hin & Hbad).
  - by apply elem_of_nil in Hin.
  - cbn [HandlersEvent.batch_loop].
    destruct (JS.truthy (d_event_type event)) eqn:Hev; [|reflexivity].
    apply IH. exists item. split; [|done].
    apply elem_of_cons in Hin as [->|?]; [congruence|done].
Qed.

Lemma api_batch_loop_invalid ts app_id items statements results :
  (∃ item, item ∈ items ∧ JS.truthy (d_event_type item) = false) →
  ApiEvents.batch_loop ts app_id items statements results =
    inl (errorResponse "Missing event_type in batch item" 400).
Proof.
  revert statements results.
  induction items as [|event rest IH];
    intros statements results (item & Hin & Hbad).
  - by apply elem_of_nil in Hin.
  - cbn [ApiEvents.batch_loop].
    destruct (JS.truthy (d_event_type event)) eqn:Hev; [|reflexivity].
    apply IH. exists item. split; [|done].
    apply elem_of_cons in Hin as [->|?]; [congruence|done].
Qed.

(** C2, counterexample.  The size check comes before the items are looked
    at: a batch of 101 items without [event_type] is answered with the
    capacity error, not with a validation error. *)
Lemma oversized_invalid_batch_is_capacity_error :
  let env := mkEnv 1700000000 None in
  let item := mkEventData None None None None None None in
  let out :=
    HandlersEvent.handleBatchTrackEvents env (Some (replicate 101 item))
      empty_db "app1" in
  item ∈ replicate 101 item ∧
  JS.truthy (d_event_type item) = false ∧
  out.1 = errorResponse "Batch size exceeds maximum (100)" 400 ∧
  error_kind out.1 = Some CapacityError ∧
  error_kind out.1 ≠ Some ValidationError.
Proof.
  split; [apply elem_of_replicate; auto|].
  vm_compute. repeat split; discriminate.
Qed.

(** C2, amended.  A [recordBatch] call with at least one item without
    [event_type] fails and leaves the store unchanged: no event row, no
    counter update.  The failure is the validation error when the batch has
    at most 100 items and the capacity error when it has more. *)
Theorem handleBatchTrackEvents_invalid_item env items db app_id :
  (∃ item, item ∈ items ∧ JS.truthy (d_event_type item) = false) →
  let out := HandlersEvent.handleBatchTrackEvents env (Some items) db app_id in
  out.2 = db ∧
  ((length items ≤ 100)%nat →
   out.1 = errorResponse "Missing event_type in batch item" 400 ∧
   error_kind out.1 = Some ValidationError) ∧
  ((100 < length items)%nat → error_kind out.1 = Some CapacityError).
Proof.
  intros Hbad out. subst out. unfold HandlersEvent.handleBatchTrackEvents.
  destruct items as [|i0 rest].
  { destruct Hbad as (? & []%elem_of_nil & _). }
  destruct (100 <? length (i0 :: rest))%nat eqn:Hlen.
  - apply Nat.ltb_lt in Hlen. simpl in *. split_and!; [done|intros; lia|done].
  - apply Nat.ltb_ge in Hlen. rewrite batch_loop_invalid by done.
    simpl in *. split_and!; [done|done|intros; lia].
Qed.

(** Item 3 of a batch of 5 has no [event_type]: nothing is persisted. *)
Lemma handleBatchTrackEvents_invalid_item_witness :
  let env := mkEnv 1700000000 None in
  let ok :=
    mkEventData (Some "signup_step") (Some "view_form") None None None None in
  let bad := mkEventData None (Some "verify_email") None None None None in
  let out :=
    HandlersEvent.handleBatchTrackEvents env (Some [ok; ok; bad; ok; ok])
      empty_db "app1" in
  out.2 = empty_db ∧
  ((length [ok; ok; bad; ok; ok] ≤ 100)%nat →
   out.1 = errorResponse "Missing event_type in batch item" 400 ∧
   error_kind out.1 = Some ValidationError) ∧
  ((100 < length [ok; ok; bad; ok; ok])%nat →
   error_kind out.1 = Some CapacityError).
Proof.
  intros env ok bad.
  apply (handleBatchTrackEvents_invalid_item env [ok; ok; bad; ok; ok]
           empty_db "app1").
  exists bad. split; [set_solver|reflexivity].
Defined.

Lemma api_handleBatchTrackEvents_invalid_item env items db app_id :
  (∃ item, item ∈ items ∧ JS.truthy (d_event_type item) = false) →
  let out := ApiEvents.handleBatchTrackEvents env (Some items) db app_id in
  out.2 = db ∧
  ((length items ≤ 100)%nat →
   out.1 = errorResponse "Missing event_type in batch item" 400) ∧
  ((100 < length items)%nat → error_kind out.1 = Some CapacityError).
Proof.
  intros Hbad out. subst out. unfold ApiEvents.handleBatchTrackEvents.
  destruct items as [|i0 rest].
  { destruct Hbad as (? & []%elem_of_nil & _). }
  destruct (100 <? length (i0 :: rest))%nat eqn:Hlen.
  - apply Nat.ltb_lt in Hlen. simpl in *. split_and!; [done|intros; lia|done].
  - apply Nat.ltb_ge in Hlen. rewrite api_batch_loop_invalid by done.
    simpl in *. split_and!; [done|done|intros; lia].
Qed.

(** A call that is answered with an error leaves the store as it was. *)
Lemma error_leaves_store db c message status :
  (run_call db c).1 = errorResponse message status → (run_call db c).2 = db.
Proof.
  destruct c as [env data a|env evs a|env data a|env evs a]; simpl.
  - unfold HandlersEvent.handleTrackEvent.
    destruct (negb (JS.truthy (d_event_type data))); [done|].
    cbv zeta. by destruct (batch _ _).
  - unfold HandlersEvent.handleBatchTrackEvents.
    destruct evs as [[|i0 rest]|]; [done| |done].
    destruct (100 <? _)%nat; [done|].
    destruct (HandlersEvent.batch_loop _ _ _ _ _ _) as [?|[??]]; [done|].
    by destruct (batch _ _).
  - unfold ApiEvents.handleTrackEvent.
    destruct (negb (JS.truthy (d_event_type data))); [done|].
    cbv zeta. by destruct (batch _ _).
  - unfold ApiEvents.handleBatchTrackEvents.
    destruct evs as [[|i0 rest]|]; [done| |done].
    destruct (100 <? _)%nat; [done|].
    destruct (ApiEvents.batch_loop _ _ _ _ _) as [?|[??]]; [done|].
    by destruct (batch _ _).
Qed.

(** *** What the recorder submits *)

Lemma Recorded_app l1 l2 : Recorded l1 → Recorded l2 → Recorded (l1 ++ l2).
Proof. induction 1; simpl; [done|]. intros. constructor. auto. Qed.

Lemma batch_loop_Recorded ts co a items statements results statements' results' :
  HandlersEvent.batch_loop ts co a items statements results =
    inr (statements', results') →
  Recorded statements ∧ Forall (λ st, stmt_app st = a) statements →
  Recorded statements' ∧ Forall (λ st, stmt_app st = a) statements'.
Proof.
  revert statements results. induction items as [|event rest IH];
    intros statements results; cbn [HandlersEvent.batch_loop].
  - by intros [= <- <-].
  - destruct (negb (JS.truthy (d_event_type event))); [done|].
    intros Hloop [Hr Ha]. eapply IH; [exact Hloop|]. split.
    + apply Recorded_app; [done|repeat constructor].
    + apply Forall_app. split; [done|]. by repeat constructor.
Qed.

Lemma api_batch_loop_Recorded ts a items statements results statements' results' :
  ApiEvents.batch_loop ts a items statements results =
    inr (statements', results') →
  Recorded statements ∧ Forall (λ st, stmt_app st = a) statements →
  Recorded statements' ∧ Forall (λ st, stmt_app st = a) statements'.
Proof.
  revert statements results. induction items as [|event rest IH];
    intros statements results; cbn [ApiEvents.batch_loop].
  - by intros [= <- <-].
  - destruct (negb (JS.truthy (d_event_type event))); [done|].
    intros Hloop [Hr Ha]. eapply IH; [exact Hloop|]. split.
    + apply Recorded_app; [done|repeat constructor].
    + apply Forall_app. split; [done|]. by repeat constructor.
Qed.

(** Every call leaves the store that one batch of recorded statements of
    its own app leaves; a call that fails leaves the store of the empty
    batch. *)
Lemma run_call_statements db c :
  ∃ l, batch l db = Some (run_call db c).2 ∧ Recorded l ∧
       Forall (λ st, stmt_app st = call_app c) l.
Proof.
  assert (∃ l, batch l db = Some db ∧ Recorded l ∧
               Forall (λ st, stmt_app st = call_app c) l) as Hnone.
  { exists []. split_and!; [done|constructor|constructor]. }
  destruct c as [env data a|env evs a|env data a|env evs a]; simpl.
  - unfold HandlersEvent.handleTrackEvent.
    destruct (negb (JS.truthy (d_event_type data))); [done|]. cbv zeta.
    destruct (batch _ db) as [db'|] eqn:Hb; [|done].
    eexists. split; [exact Hb|]. split; by repeat constructor.
  - unfold HandlersEvent.handleBatchTrackEvents.
    destruct evs as [[|i0 rest]|]; [done| |done].
    destruct (100 <? _)%nat; [done|].
    destruct (HandlersEvent.batch_loop _ _ _ _ _ _) as [?|[stmts res]] eqn:Hloop;
      [done|].
    destruct (batch stmts db) as [db'|] eqn:Hb; [|done].
    exists stmts. split; [done|].
    eapply batch_loop_Recorded; [exact Hloop|]. split; constructor.
  - unfold ApiEvents.handleTrackEvent.
    destruct (negb (JS.truthy (d_event_type data))); [done|]. cbv zeta.
    destruct (batch _ db) as [db'|] eqn:Hb; [|done].
    eexists. split; [exact Hb|]. split; by repeat constructor.
  - unfold ApiEvents.handleBatchTrackEvents.
    destruct evs as [[|i0 rest]|]; [done| |done].
    destruct (100 <? _)%nat; [done|].
    destruct (ApiEvents.batch_loop _ _ _ _ _) as [?|[stmts res]] eqn:Hloop;
      [done|].
    destruct (batch stmts db) as [db'|] eqn:Hb; [|done].
    exists stmts. split; [done|].
    eapply api_batch_loop_Recorded; [exact Hloop|]. split; constructor.
Qed.

(** An invariant of the store that every recorded pair keeps holds after
    every batch of recorded statements. *)
Lemma batch_Recorded_ind (P : DB → Prop) :
  (∀ a t c q v ts co db db',
     batch [InsertEvent a t c q v ts co;
            UpsertStat a (metricKey t q) c v ts v ts] db = Some db' →
     P db → P db') →
  ∀ l db db', Recorded l → batch l db = Some db' → P db → P db'.
Proof.
  intros Hpair l db db' Hl. revert db.
  induction Hl as [|a t c q v ts co l _ IH]; intros db Hb Hdb.
  { by injection Hb as <-. }
  change (InsertEvent a t c q v ts co
            :: UpsertStat a (metricKey t q) c v ts v ts :: l)
    with ([InsertEvent a t c q v ts co;
           UpsertStat a (metricKey t q) c v ts v ts] ++ l) in Hb.
  rewrite batch_app in Hb.
  destruct (batch [_; _] db) as [db1|] eqn:Hb1; [|done].
  apply (IH db1); [exact Hb|]. by eapply Hpair.
Qed.

Lemma run_calls_ind (P : DB → Prop) :
  (∀ a t c q v ts co db db',
     batch [InsertEvent a t c q v ts co;
            UpsertStat a (metricKey t q) c v ts v ts] db = Some db' →
     P db → P db') →
  ∀ calls db, P db → P (run_calls calls db).
Proof.
  intros Hpair calls. induction calls as [|c calls IH]; intros db Hdb; [done|].
  apply IH. destruct (run_call_statements db c) as (l & Hb & Hl & _).
  by eapply (batch_Recorded_ind P Hpair l db).
Qed.

(** *** The counters *)

Lemma add_zero v : SQL.add (Some 0) v = v.
Proof. by destruct v. Qed.

(** A recorded pair keeps both invariants of the counters. *)
Lemma recorded_pair_invariants a t c q v ts co db db' :
  batch [InsertEvent a t c q v ts co;
         UpsertStat a (metricKey t q) c v ts v ts] db = Some db' →
  counter_accumulated db ∧ first_last_consistent db →
  counter_accumulated db' ∧ first_last_consistent db'.
Proof.
  rewrite batch_event_pair. destruct ts as [timestamp|]; [|done].
  intros [= <-] [Hcc Hfl]. split; intros a' m'; simpl; rewrite filter_app;
    specialize (Hcc a' m'); specialize (Hfl a' m');
    (destruct (decide ((a, metricKey t q) = (a', m'))) as [[= <- <-]|Hne];
     [rewrite (filter_cons_True (feeds a (metricKey t q))) by done;
      rewrite filter_nil
     |rewrite (filter_cons_False (feeds a' m')), filter_nil, app_nil_r
        by (intros [??]; simpl in *; congruence);
      destruct (stats db !! (a, metricKey t q)) as [r|];
      rewrite lookup_insert_ne by done; done]).
  - rewrite fmap_app.
    rewrite (add_all_snoc _ (ev_value (mkEventRow a t c q v timestamp co))).
    destruct (stats db !! (a, metricKey t q)) as [r|];
      rewrite lookup_insert_eq; simpl.
    + destruct Hcc as [_ ->]. split; [|done]. by intros []%app_eq_nil.
    + rewrite Hcc. split; [done|]. simpl. apply eq_sym, add_zero.
  - rewrite last_snoc.
    destruct (stats db !! (a, metricKey t q)) as [r|];
      rewrite lookup_insert_eq; simpl.
    + destruct Hfl as [Hhead _]. split; [|done].
      destruct (filter (feeds a (metricKey t q)) (events db)); [done|].
      exact Hhead.
    + by rewrite Hcc.
Qed.

(** The invariants of the counters hold on every store the recorder
    reaches. *)
Lemma run_calls_invariants calls :
  counter_accumulated (run_calls calls empty_db) ∧
  first_last_consistent (run_calls calls empty_db).
Proof.
  apply (run_calls_ind (λ db, counter_accumulated db ∧ first_last_consistent db)).
  - intros. by eapply recorded_pair_invariants.
  - split; intros a m; simpl; by rewrite lookup_empty.
Qed.



(** C1, the defect.  The default [value = 1] of the destructuring replaces
    an absent value only.  An event sent with [value: null] is recorded with
    a [NULL] value, the counter it feeds then is [NULL], and
    [value = value + ?] keeps it [NULL] whatever is recorded next: after a
    null event and an event of value 5, both answered with success, the
    counter is [NULL] while the events of the metric sum to 5.  The
    api/events.js variant does the same. *)
Theorem counter_consistency_fails_on_null_value :
  let env := mkEnv 1700000000 None in
  let null := mkEventData (Some "open") None (Some None) None None None in
  let five := mkEventData (Some "open") None (Some (Some 5)) None None None in
  let out1 := HandlersEvent.handleTrackEvent env null empty_db "app1" in
  let out2 := HandlersEvent.handleTrackEvent env five out1.2 "app1" in
  let out1' := ApiEvents.handleTrackEvent env null empty_db "app1" in
  let out2' := ApiEvents.handleTrackEvent env five out1'.2 "app1" in
  out1.1 = trackSuccess "app1" "open" "general" None (Some 1700000000) None ∧
  out2.1 = trackSuccess "app1" "open" "general" (Some 5) (Some 1700000000)
             None ∧
  st_value <$> stats out2.2 !! ("app1", "open") = Some None ∧
  event_sum out2.2 "app1" "open" = Some 5 ∧
  st_value <$> stats out2'.2 !! ("app1", "open") = Some None ∧
  event_sum out2'.2 "app1" "open" = Some 5 ∧
  ¬ counter_consistent out2.2.
Proof.
  split_and!; try (vm_compute; reflexivity).
  intros H. specialize (H "app1" "open"). vm_compute in H. discriminate.
Qed.

(** ** Text order of bucket keys *)

Lemma ascii_compare_refl a : Ascii.compare a a = Eq.
Proof. unfold Ascii.compare. apply N.compare_refl. Qed.

Lemma ascii_compare_lt_trans a b c :
  Ascii.compare a b = Lt → Ascii.compare b c = Lt → Ascii.compare a c = Lt.
Proof.
  unfold Ascii.compare. rewrite !N.compare_lt_iff. apply N.lt_trans.
Qed.

Lemma string_compare_refl s : String.compare s s = Eq.
Proof.
  induction s as [|a s IH]; [done|]. simpl. by rewrite ascii_compare_refl.
Qed.

Lemma string_compare_lt_trans s1 s2 s3 :
  String.compare s1 s2 = Lt → String.compare s2 s3 = Lt →
  String.compare s1 s3 = Lt.
Proof.
  revert s2 s3. induction s1 as [|a s1 IH]; intros [|b s2] [|c s3]; simpl;
    try done.
  destruct (Ascii.compare a b) eqn:Hab; try done;
    destruct (Ascii.compare b c) eqn:Hbc; try done; intros H1 H2.
  - apply Ascii.compare_eq_iff in Hab as ->. rewrite Hbc. eauto.
  - apply Ascii.compare_eq_iff in Hab as ->. by rewrite Hbc.
  - apply Ascii.compare_eq_iff in Hbc as <-. by rewrite Hab.
  - by rewrite (ascii_compare_lt_trans a b c).
Qed.

Lemma str_le_lt_eq a b : str_le a b ↔ str_lt a b ∨ a = b.
Proof.
  unfold str_le, str_lt, String.leb, String.ltb.
  destruct (String.compare a b) eqn:Hc.
  - apply String.compare_eq_iff in Hc. naive_solver.
  - naive_solver.
  - split; [done|]. intros [?| ->]; [done|].
    by rewrite string_compare_refl in Hc.
Qed.

Lemma str_lt_irrefl a : ¬ str_lt a a.
Proof. unfold str_lt, String.ltb. by rewrite string_compare_refl. Qed.

Lemma str_lt_trans a b c : str_lt a b → str_lt b c → str_lt a c.
Proof.
  unfold str_lt, String.ltb. intros H1 H2.
  destruct (String.compare a b) eqn:Hab; try done.
  destruct (String.compare b c) eqn:Hbc; try done.
  by rewrite (string_compare_lt_trans a b c).
Qed.

#[global] Instance str_le_trans : Transitive str_le.
Proof.
  intros a b c [Hab| ->]%str_le_lt_eq [Hbc| ->]%str_le_lt_eq;
    apply str_le_lt_eq; eauto using str_lt_trans.
Qed.

#[global] Instance str_le_total : Total str_le.
Proof. intros a b. apply String.leb_total. Qed.

#[global] Instance str_le_antisym : AntiSymm (=) str_le.
Proof. intros a b. apply String.leb_antisym. Qed.

#[global] Instance str_lt_transitive : Transitive str_lt.
Proof. intros a b c. apply str_lt_trans. Qed.

#[global] Instance row_le_trans : Transitive row_le.
Proof. intros a b c. unfold row_le. apply str_le_trans. Qed.

#[global] Instance row_le_total : Total row_le.
Proof. intros a b. unfold row_le. apply str_le_total. Qed.

(** A list sorted by [str_le] without duplicates is strictly ascending. *)
Lemma sorted_le_NoDup_lt (l : list string) :
  StronglySorted str_le l → NoDup l → StronglySorted str_lt l.
Proof.
  induction 1 as [|x l Hs IH Hall]; intros Hnd; [constructor|].
  apply NoDup_cons in Hnd as [Hx Hnd]. constructor; [auto|].
  rewrite Forall_forall in Hall |- *. intros y Hy.
  destruct (proj1 (str_le_lt_eq x y) (Hall y Hy)) as [?| ->]; [done|].
  by destruct Hx.
Qed.

(** The last [n] elements of a strictly ascending list: ascending, [n] of
    them (all when there are fewer), and above everything left out. *)
Lemma last_of_sorted (l : list string) (n : nat) :
  StronglySorted str_lt l →
  let kept := drop (length l - n) l in
  StronglySorted str_lt kept ∧
  length kept = (n `min` length l)%nat ∧
  (∀ k, k ∈ kept → k ∈ l) ∧
  (∀ k k', k ∈ l → k ∉ kept → k' ∈ kept → str_lt k k').
Proof.
  intros Hs kept. subst kept.
  rewrite <-(take_drop (length l - n) l) in Hs.
  apply StronglySorted_app in Hs as (Hsplit & Hlow & Hup).
  split_and!.
  - done.
  - rewrite length_drop. lia.
  - intros k Hk. rewrite <-(take_drop (length l - n) l). set_solver.
  - intros k k' Hk Hnk Hk'. apply Hsplit; [|done].
    assert (k ∈ take (length l - n) l ++ drop (length l - n) l) as Hk2
      by by rewrite take_drop.
    apply elem_of_app in Hk2 as [?|?]; [done|contradiction].
Qed.

(** ** Grouping *)

Lemma find_row_Some k g r :
  find_row k g = Some r → r ∈ g ∧ time_period r = k.
Proof.
  unfold find_row. intros H. apply find_some in H as [Hin Hk].
  apply bool_decide_eq_true in Hk. by rewrite list_elem_of_In.
Qed.

Lemma find_row_None k g : find_row k g = None ↔ k ∉ time_period <$> g.
Proof.
  unfold find_row. induction g as [|r g IH]; simpl.
  - split; [intros _ []%elem_of_nil|done].
  - rewrite not_elem_of_cons. case_bool_decide; naive_solver.
Qed.

Lemma find_row_elem g r :
  NoDup (time_period <$> g) → r ∈ g → find_row (time_period r) g = Some r.
Proof.
  unfold find_row. induction g as [|r' g IH]; simpl; intros Hnd Hin.
  - by apply elem_of_nil in Hin.
  - apply NoDup_cons in Hnd as [Hr' Hnd].
    apply elem_of_cons in Hin as [->|Hin].
    + by rewrite bool_decide_eq_true_2.
    + rewrite bool_decide_eq_false_2; [auto|].
      intros Heq. apply Hr'. rewrite Heq. by apply list_elem_of_fmap_2.
Qed.

Lemma group_add_find k v g k' :
  find_row k' (group_add k v g) =
  if decide (k' = k)
  then Some (mkSeriesRow k (SQL.sum_step (find_row k g ≫= total) v))
  else find_row k' g.
Proof.
  unfold find_row. induction g as [|r g IH]; simpl.
  - case_bool_decide; case_decide; naive_solver.
  - destruct (decide (time_period r = k)) as [Hr|Hr]; simpl.
    + rewrite (bool_decide_eq_true_2 (time_period r = k)) by done. simpl.
      case_bool_decide; case_decide; try naive_solver.
      rewrite bool_decide_eq_false_2 by congruence. done.
    + rewrite (bool_decide_eq_false_2 (time_period r = k)) by done.
      rewrite IH. case_bool_decide; case_decide; naive_solver.
Qed.

Lemma group_add_keys k v g k' :
  k' ∈ time_period <$> group_add k v g ↔ k' = k ∨ k' ∈ time_period <$> g.
Proof.
  induction g as [|r g IH]; simpl.
  - set_solver.
  - case_decide; simpl; set_solver.
Qed.

Lemma group_add_NoDup k v g :
  NoDup (time_period <$> g) → NoDup (time_period <$> group_add k v g).
Proof.
  induction g as [|r g IH]; simpl; intros Hnd.
  - apply NoDup_singleton.
  - apply NoDup_cons in Hnd as [Hr Hnd]. case_decide; simpl.
    + subst k. by apply NoDup_cons.
    + apply NoDup_cons. split; [|auto].
      rewrite group_add_keys. naive_solver.
Qed.

Lemma group_by_sum_snoc key rows e :
  group_by_sum key (rows ++ [e]) =
  group_add (key (ev_timestamp e)) (ev_value e) (group_by_sum key rows).
Proof. unfold group_by_sum. by rewrite foldl_snoc. Qed.

Lemma group_by_sum_NoDup key rows :
  NoDup (time_period <$> group_by_sum key rows).
Proof.
  induction rows as [|e rows IH] using rev_ind; [constructor|].
  rewrite group_by_sum_snoc. by apply group_add_NoDup.
Qed.

Lemma group_by_sum_keys key rows k :
  k ∈ time_period <$> group_by_sum key rows ↔ k ∈ bucket_keys key rows.
Proof.
  unfold bucket_keys. rewrite elem_of_list_to_set.
  induction rows as [|e rows IH] using rev_ind; [done|].
  rewrite group_by_sum_snoc, group_add_keys, fmap_app, elem_of_app, IH.
  set_solver.
Qed.

Lemma bucket_total_snoc key rows e k :
  bucket_total key (rows ++ [e]) k =
  if decide (key (ev_timestamp e) = k)
  then SQL.sum_step (bucket_total key rows k) (ev_value e)
  else bucket_total key rows k.
Proof.
  unfold bucket_total. rewrite filter_app. case_decide.
  - rewrite (filter_cons_True (in_bucket key k)) by done.
    rewrite filter_nil. apply sum_values_snoc.
  - rewrite (filter_cons_False (in_bucket key k)) by done.
    by rewrite filter_nil, app_nil_r.
Qed.

Lemma bucket_total_unpopulated key rows k :
  k ∉ bucket_keys key rows → bucket_total key rows k = None.
Proof.
  unfold bucket_keys, bucket_total. rewrite elem_of_list_to_set. intros Hk.
  assert (filter (in_bucket key k) rows = []) as ->; [|done].
  induction rows as [|e rows IH]; [done|].
  rewrite fmap_cons, not_elem_of_cons in Hk. destruct Hk as [Hne Hk].
  rewrite filter_cons_False; [auto|]. unfold in_bucket. congruence.
Qed.

Lemma group_by_sum_find key rows k :
  find_row k (group_by_sum key rows) =
  if decide (k ∈ bucket_keys key rows)
  then Some (mkSeriesRow k (bucket_total key rows k))
  else None.
Proof.
  induction rows as [|e rows IH] using rev_ind.
  { by rewrite decide_False by set_solver. }
  rewrite group_by_sum_snoc, group_add_find, bucket_total_snoc.
  assert (k ∈ bucket_keys key (rows ++ [e]) ↔
          k ∈ bucket_keys key rows ∨ k = key (ev_timestamp e)) as Hk.
  { unfold bucket_keys. rewrite !elem_of_list_to_set, fmap_app. set_solver. }
  destruct (decide (k = key (ev_timestamp e))) as [->|Hne].
  - rewrite (decide_True (P := _ ∈ bucket_keys key (rows ++ [e])))
      by (apply Hk; by right).
    rewrite !decide_True by done. rewrite IH. case_decide; simpl; [done|].
    by rewrite bucket_total_unpopulated.
  - rewrite IH, !(decide_False (P := key _ = k)) by done.
    case_decide; case_decide; naive_solver.
Qed.

(** Each group carries the sum of the events of its bucket. *)
Lemma group_by_sum_row key rows r :
  r ∈ group_by_sum key rows →
  time_period r ∈ bucket_keys key rows ∧
  total r = bucket_total key rows (time_period r).
Proof.
  intros Hr. pose proof (group_by_sum_NoDup key rows) as Hnd.
  pose proof (find_row_elem _ _ Hnd Hr) as Hfind.
  rewrite group_by_sum_find in Hfind. case_decide; [|done].
  injection Hfind as <-. done.
Qed.

Lemma group_by_sum_length key rows :
  length (group_by_sum key rows) = size (bucket_keys key rows).
Proof.
  rewrite <-(length_fmap time_period).
  rewrite <-(size_list_to_set (C := gset string))
    by apply group_by_sum_NoDup.
  f_equal. apply set_eq. intros k.
  by rewrite elem_of_list_to_set, group_by_sum_keys.
Qed.

(** ** Ordering and truncation of a series *)

#[global] Instance flip_row_le_trans : Transitive (flip row_le).
Proof. intros a b c H1 H2. exact (row_le_trans _ _ _ H2 H1). Qed.

#[global] Instance flip_row_le_total : Total (flip row_le).
Proof. intros a b. destruct (row_le_total a b); [by right|by left]. Qed.

Lemma keys_inj g r1 r2 :
  NoDup (time_period <$> g) → r1 ∈ g → r2 ∈ g →
  time_period r1 = time_period r2 → r1 = r2.
Proof.
  intros Hnd H1 H2 Heq.
  pose proof (find_row_elem _ _ Hnd H1) as F1.
  pose proof (find_row_elem _ _ Hnd H2) as F2.
  rewrite Heq in F1. congruence.
Qed.

(** [ORDER BY time_period DESC] read backwards is [ORDER BY time_period]. *)
Lemma reverse_sort_desc g :
  NoDup (time_period <$> g) →
  reverse (merge_sort (flip row_le) g) = merge_sort row_le g.
Proof.
  intros Hnd. apply (StronglySorted_unique_strong row_le).
  - intros r1 r2 H1 H2 H12 H21.
    apply (keys_inj g); [done| | |by apply str_le_antisym].
    + by rewrite elem_of_reverse, merge_sort_Permutation in H1.
    + by rewrite merge_sort_Permutation in H2.
  - apply Sorted_StronglySorted; [apply _|].
    apply (Sorted_reverse (flip row_le)), Sorted_merge_sort. apply _.
  - apply StronglySorted_merge_sort; apply _.
  - by rewrite reverse_Permutation, !merge_sort_Permutation.
Qed.

Lemma sorted_keys g :
  NoDup (time_period <$> g) →
  StronglySorted str_lt (time_period <$> merge_sort row_le g).
Proof.
  intros Hnd. apply sorted_le_NoDup_lt.
  - apply (StronglySorted_fmap _ row_le str_le); [done|].
    apply StronglySorted_merge_sort; apply _.
  - by rewrite merge_sort_Permutation.
Qed.

(** The last [n] rows of the ascending series are the latest [n] buckets. *)
Lemma latest_of_sorted key sel n :
  let asc := merge_sort row_le (group_by_sum key sel) in
  latest_buckets key sel n (drop (length asc - n) asc).
Proof.
  intros asc. pose proof (group_by_sum_NoDup key sel) as Hnd.
  pose proof (sorted_keys _ Hnd) as Hs. fold asc in Hs.
  destruct (last_of_sorted _ n Hs) as (Ha & Hb & Hc & Hd).
  rewrite length_fmap, <-fmap_drop in *.
  assert (length asc = size (bucket_keys key sel)) as Hlen.
  { unfold asc. by rewrite merge_sort_Permutation, group_by_sum_length. }
  assert (∀ r, r ∈ asc ↔ r ∈ group_by_sum key sel) as Hasc.
  { intros r. unfold asc. by rewrite merge_sort_Permutation. }
  split_and!.
  - done.
  - intros r Hr. apply group_by_sum_row, Hasc.
    by eapply subseteq_drop.
  - rewrite length_fmap in Hb. by rewrite Hb, Hlen.
  - intros k r Hk Hnk Hr. apply Hd; [|done|by apply list_elem_of_fmap_2].
    apply group_by_sum_keys in Hk.
    apply list_elem_of_fmap in Hk as (r' & -> & Hr').
    apply list_elem_of_fmap_2. by apply Hasc.
Qed.

Lemma query_desc_limit_latest strftime tg app_id event_type fromDate toDate
    qualifier country limit db :
  0 ≤ limit →
  latest_buckets (strftime tg)
    (filter (where_clause app_id event_type fromDate toDate qualifier country)
       (events db))
    (Z.to_nat limit)
    (reverse (query_desc_limit strftime tg app_id event_type fromDate toDate
                qualifier country limit db)).
Proof.
  intros Hlimit. unfold query_desc_limit, sql_limit, select_grouped.
  rewrite (proj2 (Z.ltb_ge limit 0)) by done.
  rewrite reverse_take, reverse_sort_desc by apply group_by_sum_NoDup.
  rewrite <-(length_reverse (merge_sort (flip row_le) _)).
  rewrite reverse_sort_desc by apply group_by_sum_NoDup.
  apply latest_of_sorted.
Qed.

(** ** Single-metric timeseries *)

Lemma splitMetric_no_dot metric :
  JS.includes metric "." = false → splitMetric metric = (metric, None).
Proof. unfold splitMetric. by intros ->. Qed.



(** Limit 2 over five populated daily buckets: the two most recent days,
    the earlier one first. *)
Example two_of_five_days :
  ApiTimeseries.handleTimeseriesQuery SQLite.strftime (Some "view") None
    2 0 (Examples.day 30) Examples.five_days "app1" =
  seriesSuccess "app1" "view" "day" 0 (Examples.day 30) None
    [mkSeriesRow "2023-11-17" (Some 4); mkSeriesRow "2023-11-18" (Some 11)].
Proof. vm_compute. reflexivity. Qed.

(** The path of handlers/app.js, with the country filter. *)
Lemma handleSingleMetricTimeseries_latest_buckets
    strftime db app_id metric timeGroup period fromDate toDate country limit :
  0 ≤ limit →
  ∃ data,
    HandlersApp.handleSingleMetricTimeseries strftime db app_id metric timeGroup
      period fromDate toDate country limit =
    seriesSuccess app_id metric period fromDate toDate (JS.or_null country) data ∧
    latest_buckets (strftime timeGroup)
      (filter (where_clause app_id (splitMetric metric).1 fromDate toDate
                 (splitMetric metric).2 country)
         (events db))
      (Z.to_nat limit) data.
Proof.
  intros Hlimit. unfold HandlersApp.handleSingleMetricTimeseries.
  destruct (splitMetric metric) as [event_type qualifier].
  eexists. split; [done|]. by apply query_desc_limit_latest.
Qed.

(** The keys are ordered as text.  For an evaluation of the grouping
    expression that never decreases with the timestamp, as the fixed-width
    formats do for the years 0000 to 9999, this is the order of time: every
    event of a bucket that is left out is earlier than every event of a
    bucket that is returned. *)
Lemma latest_buckets_chronological key sel n data e1 e2 :
  (∀ t1 t2, t1 ≤ t2 → str_le (key t1) (key t2)) →
  latest_buckets key sel n data →
  e1 ∈ sel → e2 ∈ sel →
  key (ev_timestamp e1) ∉ time_period <$> data →
  key (ev_timestamp e2) ∈ time_period <$> data →
  ev_timestamp e1 < ev_timestamp e2.
Proof.
  intros Hmono (_ & _ & _ & Hbefore) H1 H2 Hout Hin.
  apply list_elem_of_fmap in Hin as (r & Hr & Hin).
  assert (str_lt (key (ev_timestamp e1)) (key (ev_timestamp e2))) as Hlt.
  { rewrite Hr. apply Hbefore; [|done..].
    unfold bucket_keys. rewrite elem_of_list_to_set.
    by apply (list_elem_of_fmap_2 (λ e, key (ev_timestamp e))). }
  destruct (Z.lt_ge_cases (ev_timestamp e1) (ev_timestamp e2)) as [|Hge];
    [done|].
  apply Hmono, str_le_lt_eq in Hge as [Hgt|Heq].
  - destruct (str_lt_irrefl _ (str_lt_trans _ _ _ Hlt Hgt)).
  - rewrite Heq in Hlt. destruct (str_lt_irrefl _ Hlt).
Qed.


(** ** Queries for a metric without qualifier *)

Lemma where_null_qualifier a t f u country e :
  ev_qualifier e ≠ None → ¬ where_clause a t f u None country e.
Proof. unfold where_clause. naive_solver. Qed.

Lemma select_grouped_skips_qualified
    strftime tg a t f u country before e after st :
  ev_qualifier e ≠ None →
  select_grouped strftime tg a t f u None country
    (mkDB (before ++ e :: after) st) =
  select_grouped strftime tg a t f u None country (mkDB (before ++ after) st).
Proof.
  intros He. unfold select_grouped. simpl.
  rewrite !filter_app, filter_cons_False; [done|].
  by apply where_null_qualifier.
Qed.

Lemma query_rows_total strftime tg a t f u q country limit db r :
  r ∈ query_desc_limit strftime tg a t f u q country limit db →
  total r =
  bucket_total (strftime tg) (filter (where_clause a t f u q country) (events db))
    (time_period r).
Proof.
  unfold query_desc_limit, sql_limit, select_grouped. intros Hr.
  apply group_by_sum_row.
  destruct (limit <? 0).
  - by rewrite merge_sort_Permutation in Hr.
  - apply subseteq_take in Hr. by rewrite merge_sort_Permutation in Hr.
Qed.

(** C9.  In a timeseries query for a metric without qualifier (no dot in
    the metric), an event with a non-null qualifier contributes to no bucket:
    the answer is the same with and without it in the log, and every total
    is the sum over the events of the app with the requested event type, a
    timestamp in the range and a null qualifier that fall in the bucket. *)
Theorem qualifierless_query_excludes_qualified
    strftime metric period_param limit fromDate toDate app_id before e after st :
  JS.includes metric "." = false →
  ev_qualifier e ≠ None →
  let db := mkDB (before ++ e :: after) st in
  ApiTimeseries.handleTimeseriesQuery strftime (Some metric) period_param limit
    fromDate toDate db app_id =
  ApiTimeseries.handleTimeseriesQuery strftime (Some metric) period_param limit
    fromDate toDate (mkDB (before ++ after) st) app_id ∧
  match ApiTimeseries.handleTimeseriesQuery strftime (Some metric) period_param
          limit fromDate toDate db app_id with
  | seriesSuccess _ _ period _ _ _ data =>
      ∃ timeGroup,
        getTimeGroupExpression period = Some timeGroup ∧
        ∀ r, r ∈ data →
          total r =
          sum_values
            (filter (λ x, ev_app_id x = app_id ∧ ev_event_type x = metric ∧
                          fromDate ≤ ev_timestamp x ∧ ev_timestamp x ≤ toDate ∧
                          ev_qualifier x = None ∧
                          strftime timeGroup (ev_timestamp x) = time_period r)
               (events db))
  | errorResponse _ _ =>
      metric = "" ∨
      getTimeGroupExpression (JS.or_else period_param "day") = None
  | _ => False
  end.
Proof.
  intros Hdot He db. unfold ApiTimeseries.handleTimeseriesQuery.
  destruct metric as [|c m]; [cbn; by split; [|left]|].
  cbn [JS.truthy negb default from_option id].
  rewrite (splitMetric_no_dot _ Hdot).
  destruct (getTimeGroupExpression _) as [tg|] eqn:Htg;
    cbn beta iota zeta; [|by split; [|right]].
  split.
  - unfold query_desc_limit, db.
    by rewrite select_grouped_skips_qualified.
  - exists tg. split; [done|]. intros r Hr. rewrite elem_of_reverse in Hr.
    rewrite (query_rows_total _ _ _ _ _ _ _ _ _ _ _ Hr).
    unfold bucket_total. rewrite list_filter_filter. f_equal.
    apply list_filter_iff. intros x. unfold where_clause, in_bucket. simpl.
    naive_solver.
Qed.

(** The theorem on a log with one "view.home" event between two plain
    "view" events. *)
Lemma qualifierless_query_excludes_qualified_witness :
  let home :=
    mkEventRow "app1" "view" "engagement" (Some "home") (Some 10)
      (Examples.day 2)
      None in
  let plain d v :=
    mkEventRow "app1" "view" "engagement" None (Some v) d None in
  JS.includes "view" "." = false ∧
  ev_qualifier home ≠ None ∧
  ApiTimeseries.handleTimeseriesQuery SQLite.strftime (Some "view") None 30 0
    (Examples.day 30)
    (mkDB ([plain (Examples.day 2) 3] ++ home :: [plain (Examples.day 3) 4]) ∅)
    "app1" =
  ApiTimeseries.handleTimeseriesQuery SQLite.strftime (Some "view") None 30 0
    (Examples.day 30)
    (mkDB ([plain (Examples.day 2) 3] ++ [plain (Examples.day 3) 4]) ∅)
    "app1".
Proof.
  intros home plain. split; [reflexivity|]. split; [discriminate|].
  apply (qualifierless_query_excludes_qualified SQLite.strftime "view" None 30
           0 (Examples.day 30) "app1" [plain (Examples.day 2) 3] home
           [plain (Examples.day 3) 4] ∅); [reflexivity|discriminate].
Defined.

(** The qualified event of the example log is counted by the qualified
    query only. *)
Example view_and_view_home :
  ApiTimeseries.handleTimeseriesQuery SQLite.strftime (Some "view") None
    30 (Examples.day 2) (Examples.day 2) Examples.five_days "app1" =
  seriesSuccess "app1" "view" "day" (Examples.day 2) (Examples.day 2) None
    [mkSeriesRow "2023-11-16" (Some 3)] ∧
  ApiTimeseries.handleTimeseriesQuery SQLite.strftime (Some "view.home") None
    30 (Examples.day 2) (Examples.day 2) Examples.five_days "app1" =
  seriesSuccess "app1" "view.home" "day" (Examples.day 2) (Examples.day 2) None
    [mkSeriesRow "2023-11-16" (Some 10)].
Proof. vm_compute. split; reflexivity. Qed.

(** ** Comparison of several metrics *)

(** The own properties of [results]: one for each requested metric other
    than "__proto__". *)
Lemma collect_results_lookup strftime db a metrics tg f u country m :
  res_own (collect_results strftime db a metrics tg f u country) !! m =
  if decide (m ∈ metrics ∧ m ≠ "__proto__")
  then Some (query_asc strftime tg a (splitMetric m).1 f u (splitMetric m).2
               country db)
  else None.
Proof.
  unfold collect_results.
  induction metrics as [|m' metrics IH] using rev_ind.
  { cbn [foldl res_own]. rewrite lookup_empty. case_decide; [set_solver|done]. }
  rewrite foldl_snoc. set (R := foldl _ _ metrics) in *.
  destruct (splitMetric m') as [t q] eqn:Hm'.
  unfold assign. destruct (decide (m' = "__proto__")) as [->|Hp]; cbn [res_own].
  - rewrite IH. case_decide; case_decide; set_solver.
  - destruct (decide (m' = m)) as [->|Hne].
    + rewrite lookup_insert_eq, decide_True by set_solver. by rewrite Hm'.
    + rewrite lookup_insert_ne, IH by done.
      case_decide; case_decide; set_solver.
Qed.

(** The array in the place of the prototype: the rows of the metric
    "__proto__" when it is requested. *)
Lemma collect_results_proto strftime db a metrics tg f u country :
  res_proto (collect_results strftime db a metrics tg f u country) =
  if decide ("__proto__" ∈ metrics)
  then query_asc strftime tg a (splitMetric "__proto__").1 f u
         (splitMetric "__proto__").2 country db
  else [].
Proof.
  unfold collect_results.
  induction metrics as [|m' metrics IH] using rev_ind.
  { cbn [foldl res_proto]. by rewrite decide_False by set_solver. }
  rewrite foldl_snoc. set (R := foldl _ _ metrics) in *.
  destruct (splitMetric m') as [t q] eqn:Hm'.
  unfold assign. destruct (decide (m' = "__proto__")) as [->|Hp];
    cbn [res_proto].
  - rewrite decide_True by set_solver. by rewrite Hm'.
  - rewrite IH. case_decide; case_decide; set_solver.
Qed.

Lemma Results_eq (r1 r2 : Results) :
  res_own r1 = res_own r2 → res_proto r1 = res_proto r2 → r1 = r2.
Proof. destruct r1, r2. simpl. by intros -> ->. Qed.

(** Without a metric named "__proto__" the loops over [results] see the
    requested metrics and nothing else. *)
Lemma collect_results_plain strftime db a metrics tg f u country :
  "__proto__" ∉ metrics →
  for_in_throws (collect_results strftime db a metrics tg f u country) = false.
Proof.
  intros Hp. unfold for_in_throws, inherited_keys.
  rewrite collect_results_proto, decide_False by done. done.
Qed.

(** A metric without qualifier ignores qualified events in the comparison
    as well. *)
Lemma collect_results_skips_qualified
    strftime a metrics tg f u country before e after st :
  (∀ m, m ∈ metrics → JS.includes m "." = false) →
  ev_qualifier e ≠ None →
  collect_results strftime (mkDB (before ++ e :: after) st) a metrics tg f u
    country =
  collect_results strftime (mkDB (before ++ after) st) a metrics tg f u country.
Proof.
  intros Hdots He. apply Results_eq.
  - apply map_eq. intros m.
    rewrite !collect_results_lookup. case_decide as Hm; [|done].
    rewrite (splitMetric_no_dot m) by (apply Hdots, Hm). unfold query_asc.
    by rewrite select_grouped_skips_qualified.
  - rewrite !collect_results_proto. case_decide; [|done].
    rewrite (splitMetric_no_dot "__proto__") by auto. unfold query_asc.
    by rewrite select_grouped_skips_qualified.
Qed.

Lemma elem_of_all_time_periods (results : gmap string (list SeriesRow)) k :
  k ∈ all_time_periods results ↔
  ∃ m rows, results !! m = Some rows ∧ k ∈ time_period <$> rows.
Proof.
  unfold all_time_periods.
  apply (map_fold_weak_ind
           (λ acc (res : gmap string (list SeriesRow)),
              k ∈ acc ↔ ∃ m rows, res !! m = Some rows ∧ k ∈ time_period <$> rows)).
  - split; [set_solver|]. intros (m & rows & Hm & _).
    by rewrite lookup_empty in Hm.
  - intros m rows res acc Hfresh IH.
    assert (∀ acc0 : gset string,
              k ∈ foldl (λ acc1 dataPoint, {[time_period dataPoint]} ∪ acc1)
                    acc0 rows ↔ k ∈ acc0 ∨ k ∈ time_period <$> rows) as Hin.
    { induction rows as [|r rows IHr]; intros acc0; simpl; [set_solver|].
      rewrite IHr. set_solver. }
    rewrite Hin, IH. split.
    + intros [(m' & rows' & Hm' & Hk)|Hk].
      * exists m', rows'. split; [|done].
        rewrite lookup_insert_ne; [done|]. intros ->. congruence.
      * exists m, rows. by rewrite lookup_insert_eq.
    + intros (m' & rows' & Hm' & Hk).
      destruct (decide (m = m')) as [->|Hne].
      * rewrite lookup_insert_eq in Hm'. injection Hm' as ->. by right.
      * rewrite lookup_insert_ne in Hm' by done. left. eauto.
Qed.

Lemma set_prop_lookup {V} key (v : V) (obj : gmap string V) k :
  JS.set_prop key v obj !! k =
  if decide (k = key ∧ key ≠ "__proto__") then Some v else obj !! k.
Proof.
  unfold JS.set_prop. destruct (decide (key = "__proto__")) as [->|Hp].
  - by rewrite decide_False by naive_solver.
  - destruct (decide (k = key)) as [->|Hne].
    + by rewrite lookup_insert_eq, decide_True.
    + by rewrite lookup_insert_ne, decide_False by naive_solver.
Qed.

Lemma combine_point_lookup (results : gmap string (list SeriesRow)) period key :
  combine_point results period !! key =
  if decide (key = "__proto__") then None
  else
    match results !! key with
    | Some rows => Some (point_value period rows)
    | None => if decide (key = "time_period") then Some (VStr period) else None
    end.
Proof.
  unfold combine_point.
  apply (map_fold_weak_ind
           (λ (dp : gmap string JSVal) (res : gmap string (list SeriesRow)),
              dp !! key =
              if decide (key = "__proto__") then None
              else
                match res !! key with
                | Some rows => Some (point_value period rows)
                | None =>
                    if decide (key = "time_period") then Some (VStr period)
                    else None
                end)).
  - rewrite lookup_empty. case_decide as Hp.
    + subst key. by rewrite lookup_singleton_ne.
    + case_decide.
      * subst key. by rewrite lookup_singleton_eq.
      * by rewrite lookup_singleton_ne.
  - intros m rows res dp Hfresh IH. rewrite set_prop_lookup.
    destruct (decide (key = "__proto__")) as [->|Hp].
    + rewrite decide_False by naive_solver. exact IH.
    + destruct (decide (m = key)) as [->|Hne].
      * by rewrite decide_True, lookup_insert_eq.
      * rewrite decide_False, lookup_insert_ne by naive_solver. exact IH.
Qed.

Lemma find_row_perm g g' k :
  NoDup (time_period <$> g) → g ≡ₚ g' → find_row k g' = find_row k g.
Proof.
  intros Hnd Hperm.
  assert (NoDup (time_period <$> g')) as Hnd' by by rewrite <-Hperm.
  destruct (find_row k g) as [r|] eqn:Hg.
  - apply find_row_Some in Hg as [Hin <-].
    apply find_row_elem; [done|]. by rewrite <-Hperm.
  - apply find_row_None in Hg. apply find_row_None. by rewrite <-Hperm.
Qed.

Lemma query_asc_total strftime tg a t f u q country db k :
  point_value k (query_asc strftime tg a t f u q country db) =
  cell (strftime tg) (filter (where_clause a t f u q country) (events db)) k.
Proof.
  unfold point_value, cell, query_asc, select_grouped.
  rewrite (find_row_perm (group_by_sum _ _))
    by (apply group_by_sum_NoDup || by rewrite merge_sort_Permutation).
  rewrite group_by_sum_find. by case_decide.
Qed.

Lemma query_asc_keys strftime tg a t f u q country db k :
  k ∈ time_period <$> query_asc strftime tg a t f u q country db ↔
  k ∈ bucket_keys (strftime tg)
        (filter (where_clause a t f u q country) (events db)).
Proof.
  unfold query_asc, select_grouped.
  by rewrite merge_sort_Permutation, group_by_sum_keys.
Qed.

Lemma all_time_periods_union strftime db a metrics tg f u country :
  "__proto__" ∉ metrics →
  all_time_periods
    (res_own (collect_results strftime db a metrics tg f u country)) =
  union_keys (strftime tg) (metric_selection db a f u country) metrics.
Proof.
  intros Hp. apply set_eq. intros k.
  rewrite elem_of_all_time_periods. unfold union_keys.
  rewrite elem_of_union_list. split.
  - intros (m & rows & Hm & Hk). rewrite collect_results_lookup in Hm.
    case_decide as Hin; [|done]. destruct Hin as [Hin _]. injection Hm as <-.
    apply query_asc_keys in Hk.
    exists (bucket_keys (strftime tg) (metric_selection db a f u country m)).
    split; [|done].
    by apply (list_elem_of_fmap_2
                (λ m, bucket_keys (strftime tg)
                        (metric_selection db a f u country m))).
  - intros (X & HX & Hk). apply list_elem_of_fmap in HX as (m & -> & Hm).
    eexists m, _. rewrite collect_results_lookup, decide_True
      by (split; [done|by intros ->]).
    split; [done|]. by apply query_asc_keys.
Qed.

(** [slice(-limit)] keeps the last [limit] elements when [limit] is
    positive, and everything when it is 0. *)
Lemma slice_last {A} (limit : Z) (l : list A) :
  0 < limit → JS.slice_from (- limit) l = drop (length l - Z.to_nat limit) l.
Proof.
  intros Hl. unfold JS.slice_from.
  rewrite (proj2 (Z.ltb_lt (- limit) 0)) by lia. f_equal. lia.
Qed.

Lemma slice_zero {A} (l : list A) : JS.slice_from (- 0) l = l.
Proof.
  unfold JS.slice_from. cbn [Z.opp Z.ltb Z.compare].
  by rewrite Z.min_l by lia.
Qed.

(** For a positive limit the comparison is the dense table of the last
    [limit] buckets of the union. *)
Lemma combine_dense strftime db a metrics tg f u country limit :
  "__proto__" ∉ metrics →
  0 < limit →
  dense_table (strftime tg) (metric_selection db a f u country) metrics
    (Z.to_nat limit)
    (combine (res_own (collect_results strftime db a metrics tg f u country))
       limit).
Proof.
  intros Hp Hlimit. unfold combine. rewrite all_time_periods_union by done.
  set (U := union_keys _ _ _).
  set (sorted := merge_sort str_le (elements U)).
  assert (StronglySorted str_lt sorted) as Hs.
  { apply sorted_le_NoDup_lt.
    - apply StronglySorted_merge_sort; apply _.
    - unfold sorted. rewrite merge_sort_Permutation. apply NoDup_elements. }
  assert (∀ k, k ∈ sorted ↔ k ∈ U) as HU.
  { intros k. unfold sorted. by rewrite merge_sort_Permutation, elem_of_elements. }
  assert (length sorted = size U) as Hlen.
  { unfold sorted. by rewrite merge_sort_Permutation. }
  rewrite slice_last by done.
  destruct (last_of_sorted _ (Z.to_nat limit) Hs) as (Ha & Hb & Hc & Hd).
  exists (drop (length sorted - Z.to_nat limit) sorted). split_and!.
  - done.
  - intros k Hk. by apply HU, Hc.
  - by rewrite Hb, Hlen.
  - intros k k' Hk Hnk Hk'. apply Hd; [by apply HU|done..].
  - by rewrite length_fmap.
  - intros i k dp Hi Hdp. rewrite list_lookup_fmap, Hi in Hdp.
    injection Hdp as <-. split_and!.
    + intros m Hm. rewrite combine_point_lookup, collect_results_lookup.
      rewrite decide_False by (by intros ->).
      rewrite decide_True by (split; [done|by intros ->]).
      by rewrite query_asc_total.
    + intros Hm. rewrite combine_point_lookup, collect_results_lookup.
      rewrite decide_False by done.
      by rewrite decide_False by naive_solver.
    + apply set_eq. intros key. rewrite elem_of_dom, combine_point_lookup.
      rewrite collect_results_lookup, elem_of_union, elem_of_singleton.
      rewrite elem_of_list_to_set.
      destruct (decide (key = "__proto__")) as [->|Hkey].
      { split; [by intros [??]|]. intros [?|?]; [done|contradiction]. }
      case_decide; [|case_decide]; split; eauto; naive_solver.
Qed.


Lemma handleMultipleMetricsTimeseries_dense
    strftime db app_id metrics timeGroup period fromDate toDate country limit :
  "__proto__" ∉ metrics →
  0 < limit →
  ∃ data,
    HandlersApp.handleMultipleMetricsTimeseries strftime db app_id metrics
      timeGroup period fromDate toDate country limit =
    comparisonSuccess app_id metrics period fromDate toDate (JS.or_null country)
      data ∧
    dense_table (strftime timeGroup)
      (metric_selection db app_id fromDate toDate country) metrics
      (Z.to_nat limit) data.
Proof.
  intros Hp Hlimit. unfold HandlersApp.handleMultipleMetricsTimeseries.
  rewrite collect_results_plain by done.
  eexists. split; [reflexivity|]. by apply combine_dense.
Qed.

(** Metric "a" populated on d1 and d2, metric "b" on d2 and d3: three
    buckets, each with both metrics, 0 where a metric has no event. *)
Example two_metrics_three_buckets :
  ApiTimeseries.handleComparisonQuery SQLite.strftime (Some ["a"; "b"]) None
    30 0 (Examples.day 30) Examples.two_metrics "app1" =
  comparisonSuccess "app1" ["a"; "b"] "day" 0 (Examples.day 30) None
    [Examples.point "2023-11-15" 1 0; Examples.point "2023-11-16" 2 3;
     Examples.point "2023-11-17" 0 4].
Proof. vm_compute. reflexivity. Qed.

(** With limit 0 nothing is cut: [slice(-0)] is [slice(0)]. *)
Lemma combine_limit_zero (results : gmap string (list SeriesRow)) :
  length (combine results 0) = size (all_time_periods results).
Proof.
  unfold combine. rewrite slice_zero, length_fmap.
  by rewrite merge_sort_Permutation.
Qed.

(** C8, the defect.  With [limit = 0] the comparison returns every bucket of
    the union instead of the last 0 of them, where the single-metric query
    over the same log returns none. *)
Theorem comparison_limit_zero_keeps_all :
  ApiTimeseries.handleComparisonQuery SQLite.strftime (Some ["a"; "b"]) None
    0 0 (Examples.day 30) Examples.two_metrics "app1" =
  comparisonSuccess "app1" ["a"; "b"] "day" 0 (Examples.day 30) None
    [Examples.point "2023-11-15" 1 0; Examples.point "2023-11-16" 2 3;
     Examples.point "2023-11-17" 0 4] ∧
  ApiTimeseries.handleTimeseriesQuery SQLite.strftime (Some "a") None 0 0
    (Examples.day 30) Examples.two_metrics "app1" =
  seriesSuccess "app1" "a" "day" 0 (Examples.day 30) None [].
Proof. vm_compute. split; reflexivity. Qed.

(** A metric named "__proto__".  With an event of that type in the range,
    its rows take the place of the prototype of [results], the loop over
    [results] meets the index "0", and the comparison fails with the 500;
    the handlers' variant throws past its caller.  Without such an event
    the comparison succeeds, and its points have no property of that
    name. *)
Example comparison_of_proto_metric :
  let db :=
    run_calls [Examples.event "__proto__" None 1 (Examples.day 1);
               Examples.event "a" None 2 (Examples.day 1)] empty_db in
  ApiTimeseries.handleComparisonQuery SQLite.strftime (Some ["a"; "__proto__"])
    None 30 0 (Examples.day 30) db "app1"
  = errorResponse "Failed to retrieve comparison data" 500 ∧
  HandlersApp.handleMultipleMetricsTimeseries SQLite.strftime db "app1"
    ["a"; "__proto__"] PerDay "day" 0 (Examples.day 30) None 30
  = uncaught ∧
  ApiTimeseries.handleComparisonQuery SQLite.strftime (Some ["a"; "__proto__"])
    None 30 0 (Examples.day 30) Examples.two_metrics "app1"
  = comparisonSuccess "app1" ["a"; "__proto__"] "day" 0 (Examples.day 30) None
      [{["time_period" := VStr "2023-11-15"; "a" := VNum 1]};
       {["time_period" := VStr "2023-11-16"; "a" := VNum 2]}].
Proof. vm_compute. split_and!; reflexivity. Qed.

(** Fewer than 1 or more than 5 metrics is a validation error, for every
    limit. *)
Lemma handleComparisonQuery_metric_count
    strftime metrics period_param limit fromDate toDate db app_id :
  (length metrics < 1)%nat ∨ (5 < length metrics)%nat →
  ApiTimeseries.handleComparisonQuery strftime (Some metrics) period_param limit
    fromDate toDate db app_id =
  errorResponse "Please provide between 1 and 5 metrics to compare" 400.
Proof.
  intros Hcount. unfold ApiTimeseries.handleComparisonQuery.
  destruct Hcount as [H%Nat.ltb_lt|H%Nat.ltb_lt]; rewrite H; [done|].
  by rewrite orb_true_r.
Qed.

(** ** The empty qualifier, end to end

    An event recorded with the empty string as qualifier feeds the counter
    of the bare event type: the row "install" holds its value although the
    dotted key of the design document, "install.", names no counter. *)
Example empty_qualifier_counter :
  let data :=
    mkEventData (Some "install") (Some "") (Some (Some 1)) None None None in
  let out := HandlersEvent.handleTrackEvent Examples.env data empty_db "app1" in
  out.1 = trackSuccess "app1" "install" "lifecycle" (Some 1) (Some 1700000000)
            None ∧
  st_value <$> stats out.2 !! ("app1", "install") = Some (Some 1) ∧
  stats out.2 !! ("app1", "install.") = None ∧
  ev_qualifier <$> events out.2 = [Some ""].
Proof. vm_compute. repeat split; reflexivity. Qed.

(** ** The reference evaluation on known dates *)

Example strftime_known_dates :
  SQLite.strftime PerDay 0 = "1970-01-01" ∧
  SQLite.strftime PerWeek 0 = "1970-00" ∧
  SQLite.strftime PerHour 1700000000 = "2023-11-14 22:00:00" ∧
  SQLite.strftime PerWeek 1700000000 = "2023-46" ∧
  SQLite.strftime PerMonth 1700000000 = "2023-11" ∧
  SQLite.strftime PerDay 951782400 = "2000-02-29" ∧
  SQLite.strftime PerWeek 1704067200 = "2024-01" ∧
  SQLite.strftime PerDay 253402300799 = "9999-12-31".
Proof. vm_compute. repeat split; reflexivity. Qed.

(** * Further properties of the recorder *)

Lemma handleTrackEvent_store env data db a :
  (HandlersEvent.handleTrackEvent env data db a).2 =
  if JS.truthy (d_event_type data) then
    default db
      (batch (createEventStatements a (default "" (d_event_type data))
                (JS.or_else (d_category data)
                   (determineCategory (default "" (d_event_type data))))
                (d_qualifier data) (destructure (d_value data) (Some 1))
                (destructure (d_timestamp data) (Some (now env)))
                (match d_country data with
                 | Some c => c
                 | None => JS.or_null (cf_country env)
                 end)) db)
  else db.
Proof.
  unfold HandlersEvent.handleTrackEvent.
  destruct (JS.truthy (d_event_type data)); [|reflexivity].
  cbn [negb]. cbv zeta. by destruct (batch _ db).
Qed.

Lemma batch_app_Some l1 l2 db db' :
  batch (l1 ++ l2) db = Some db' ↔
  ∃ db1, batch l1 db = Some db1 ∧ batch l2 db1 = Some db'.
Proof. rewrite batch_app. destruct (batch l1 db); simpl; naive_solver. Qed.

(** The loop only adds statements. *)
Lemma batch_loop_extends ts co a items statements results statements' results' :
  HandlersEvent.batch_loop ts co a items statements results =
    inr (statements', results') →
  ∃ more, statements' = statements ++ more.
Proof.
  revert statements results. induction items as [|item rest IH];
    intros statements results; cbn [HandlersEvent.batch_loop].
  - intros [= <- <-]. exists []. by rewrite app_nil_r.
  - destruct (negb (JS.truthy (d_event_type item))); [done|].
    intros Hloop. apply IH in Hloop as [more ->].
    eexists. by rewrite <-app_assoc.
Qed.

(** The statements the batch loop has built, when the store takes them,
    lead to the store that recording the items one by one leads to. *)
Lemma batch_loop_as_singles
    env a items statements results statements' results' db db0 db' :
  HandlersEvent.batch_loop (now env) (JS.or_null (cf_country env)) a items
    statements results = inr (statements', results') →
  batch statements db = Some db0 →
  batch statements' db = Some db' →
  db' = foldl (λ d item, (HandlersEvent.handleTrackEvent env item d a).2)
          db0 items ∧
  length results' = (length results + length items)%nat ∧
  Forall (λ item, d_timestamp item ≠ Some None) items ∧
  bi_metric <$> results' =
    (bi_metric <$> results) ++
    ((λ item, metricKey (default "" (d_event_type item)) (d_qualifier item))
       <$> items).
Proof.
  revert statements results db0. induction items as [|item rest IH];
    intros statements results db0; cbn [HandlersEvent.batch_loop].
  - intros [= <- <-] H0 H'. split_and!; [simpl; congruence|simpl; lia|done|].
    by rewrite app_nil_r.
  - destruct (JS.truthy (d_event_type item)) eqn:Hitem; [|done].
    cbn [negb]. intros Hloop H0 H'.
    destruct (batch_loop_extends _ _ _ _ _ _ _ _ Hloop) as [more ->].
    apply batch_app_Some in H' as (db1 & H1 & Hmore).
    pose proof H1 as H1'. rewrite batch_app, H0 in H1'. simpl in H1'.
    destruct (IH _ _ db1 Hloop H1) as (-> & Hlen & Hts & Hkeys).
    { apply batch_app_Some. eauto. }
    split_and!.
    + cbn [foldl]. by rewrite handleTrackEvent_store, Hitem, H1'.
    + rewrite length_app in Hlen. simpl in *. lia.
    + constructor; [|done]. intros Hnull. rewrite Hnull in H1'.
      unfold createEventStatements in H1'. by rewrite batch_event_pair in H1'.
    + rewrite Hkeys, fmap_app, <-app_assoc. done.
Qed.

Lemma batch_loop_error ts co a items statements results response :
  HandlersEvent.batch_loop ts co a items statements results = inl response →
  response = errorResponse "Missing event_type in batch item" 400.
Proof.
  revert statements results. induction items as [|item rest IH];
    intros statements results; cbn [HandlersEvent.batch_loop]; [done|].
  destruct (negb (JS.truthy (d_event_type item))); [congruence|]. apply IH.
Qed.

(** X1.  A recorder call that is answered with an error response, from
    either variant of the handlers, leaves the store as it was. *)
Theorem failed_call_changes_nothing db c message status :
  (run_call db c).1 = errorResponse message status → (run_call db c).2 = db.
Proof. apply error_leaves_store. Qed.

Lemma failed_call_changes_nothing_witness :
  let db := Examples.five_days in
  let c := Track Examples.env
             (mkEventData (Some "") (Some "home") (Some (Some 3)) None None
                None)
             "app1" in
  (run_call db c).2 = db.
Proof.
  intros db c.
  apply (failed_call_changes_nothing db c "Missing event_type" 400).
  reflexivity.
Defined.

(** A call with a timestamp sent as [null] breaks [timestamp INTEGER NOT
    NULL]: it is answered with the 500 and records nothing. *)
Example null_timestamp_fails :
  let data := mkEventData (Some "view") None None None (Some None) None in
  HandlersEvent.handleTrackEvent Examples.env data Examples.five_days "app1"
  = (errorResponse "Failed to track event" 500, Examples.five_days) ∧
  HandlersEvent.handleBatchTrackEvents Examples.env
    (Some [mkEventData (Some "view") None None None None None; data])
    Examples.five_days "app1"
  = (errorResponse "Failed to track batch events" 500, Examples.five_days).
Proof. vm_compute. split; reflexivity. Qed.

(** X2.  A batch that succeeds leaves the store that recording its items
    one by one, in order and at the same clock, leaves, and reports as many
    processed events as it has items. *)
Theorem batch_is_sequence_of_singles env items db app_id processed results db' :
  HandlersEvent.handleBatchTrackEvents env (Some items) db app_id =
    (batchSuccess app_id processed results, db') →
  db' = foldl (λ d item, (HandlersEvent.handleTrackEvent env item d app_id).2)
          db items ∧
  processed = length items.
Proof.
  unfold HandlersEvent.handleBatchTrackEvents.
  destruct items as [|i0 rest]; [done|].
  destruct (100 <? _)%nat; [done|].
  destruct (HandlersEvent.batch_loop _ _ _ _ _ _) as [?|[stmts res]] eqn:Hloop.
  { apply batch_loop_error in Hloop as ->. done. }
  destruct (batch stmts db) as [db1|] eqn:Hb; [|done].
  intros [= <- <- <-].
  destruct (batch_loop_as_singles env app_id (i0 :: rest) [] [] stmts res db
              db db1 Hloop eq_refl Hb) as (-> & -> & _).
  done.
Qed.

Lemma batch_is_sequence_of_singles_witness :
  let step qualifier :=
    mkEventData (Some "signup_step") (Some qualifier) None None None None in
  let items := [step "view_form"; step "submit_email"; step "view_form"] in
  let out :=
    HandlersEvent.handleBatchTrackEvents Examples.env (Some items) empty_db
      "app1" in
  out.2 = foldl (λ d item,
                   (HandlersEvent.handleTrackEvent Examples.env item d "app1").2)
            empty_db items ∧
  3%nat = length items.
Proof.
  intros step items out.
  apply (batch_is_sequence_of_singles Examples.env items empty_db "app1" 3
           (mkBatchItem "signup_step" (Some "view_form") "signup_step.view_form"
              "general" None
            :: mkBatchItem "signup_step" (Some "submit_email")
                 "signup_step.submit_email" "general" None
            :: mkBatchItem "signup_step" (Some "view_form")
                 "signup_step.view_form" "general" None :: [])).
  vm_compute. reflexivity.
Defined.

(** What a batch of statements of one app does to the store: it appends
    events of that app, keeps every counter, and leaves the counters of
    every other app as they are. *)
Lemma batch_of_app a l db db' :
  Forall (λ st, stmt_app st = a) l →
  batch l db = Some db' →
  (∃ new, events db' = events db ++ new ∧
          Forall (λ e, ev_app_id e = a) new) ∧
  (∀ k, is_Some (stats db !! k) → is_Some (stats db' !! k)) ∧
  (∀ b m, b ≠ a → stats db' !! (b, m) = stats db !! (b, m)).
Proof.
  intros Hl. revert db. induction Hl as [|st l Hst _ IH]; intros db Hb.
  { injection Hb as <-. split_and!; [|done..]. exists []. by rewrite app_nil_r. }
  rewrite batch_cons in Hb.
  destruct (exec db st) as [db1|] eqn:Hexec; [|done]. simpl in Hb.
  destruct (IH db1 Hb) as ((new & Hev & Hnew) & Hkeep & Hother).
  destruct st as [a' t c q v ts co|a' m c v ts inc ts']; simpl in Hst; subst a';
    simpl in Hexec.
  - destruct ts as [timestamp|]; [|done]. injection Hexec as <-.
    split_and!.
    + exists (mkEventRow a t c q v timestamp co :: new). split.
      * rewrite Hev. simpl. by rewrite <-app_assoc.
      * by constructor.
    + intros k Hk. by apply Hkeep.
    + intros b m Hb'. by rewrite Hother.
  - destruct ts as [timestamp|]; [|done].
    assert (events db1 = events db ∧
            (∀ k, is_Some (stats db !! k) → is_Some (stats db1 !! k)) ∧
            (∀ b m', b ≠ a → stats db1 !! (b, m') = stats db !! (b, m')))
      as (Hev1 & Hkeep1 & Hother1).
    { destruct (stats db !! (a, m)) as [r|] eqn:Hr.
      - destruct ts' as [timestamp'|]; [|done]. injection Hexec as <-.
        split_and!; [done| |].
        + intros k Hk. simpl.
          destruct (decide (k = (a, m))) as [->|Hne];
            [by rewrite lookup_insert_eq|by rewrite lookup_insert_ne].
        + intros b m' Hb'. simpl. rewrite lookup_insert_ne; congruence.
      - injection Hexec as <-. split_and!; [done| |].
        + intros k Hk. simpl.
          destruct (decide (k = (a, m))) as [->|Hne];
            [by rewrite lookup_insert_eq|by rewrite lookup_insert_ne].
        + intros b m' Hb'. simpl. rewrite lookup_insert_ne; congruence. }
    split_and!.
    + exists new. by rewrite Hev, Hev1.
    + intros k Hk. by apply Hkeep, Hkeep1.
    + intros b m' Hb'. rewrite Hother by done. by apply Hother1.
Qed.

(** X3.  A batch that succeeds has between 1 and 100 items, each with a
    non-empty [event_type] and none with a timestamp sent as [null]; the
    response counts every item and names, item by item, the metric key the
    item was recorded under. *)
Theorem batch_success_conditions env items db app_id processed results db' :
  HandlersEvent.handleBatchTrackEvents env (Some items) db app_id =
    (batchSuccess app_id processed results, db') →
  (1 ≤ length items ≤ 100)%nat ∧
  Forall valid_item items ∧
  Forall (λ item, d_timestamp item ≠ Some None) items ∧
  processed = length items ∧
  bi_metric <$> results =
    (λ item, metricKey (default "" (d_event_type item)) (d_qualifier item))
      <$> items.
Proof.
  unfold HandlersEvent.handleBatchTrackEvents.
  destruct items as [|i0 rest]; [done|].
  destruct (100 <? _)%nat eqn:Hlen; [done|]. apply Nat.ltb_ge in Hlen.
  destruct (HandlersEvent.batch_loop _ _ _ _ _ _) as [?|[stmts res]] eqn:Hloop.
  { apply batch_loop_error in Hloop as ->. done. }
  destruct (batch stmts db) as [db1|] eqn:Hb; [|done].
  intros [= <- <- <-].
  destruct (batch_loop_as_singles env app_id (i0 :: rest) [] [] stmts res db
              db db1 Hloop eq_refl Hb) as (_ & Hres & Hts & Hkeys).
  split_and!; [simpl; lia|done| |done..].
  destruct (decide (Forall valid_item (i0 :: rest))) as [|Hbad]; [done|].
  apply not_Forall_Exists, Exists_exists in Hbad as (item & Hin & Hitem);
    [|apply _].
  rewrite batch_loop_invalid in Hloop; [done|].
  exists item. split; [done|]. by apply not_true_is_false.
Qed.

Lemma batch_success_conditions_witness :
  let step qualifier :=
    mkEventData (Some "signup_step") (Some qualifier) None None None None in
  let items := [step "view_form"; step "submit_email"] in
  (1 ≤ length items ≤ 100)%nat ∧
  Forall valid_item items ∧
  Forall (λ item, d_timestamp item ≠ Some None) items ∧
  2%nat = length items ∧
  ["signup_step.view_form"; "signup_step.submit_email"] =
    (λ item, metricKey (default "" (d_event_type item)) (d_qualifier item))
      <$> items.
Proof.
  intros step items.
  refine (batch_success_conditions Examples.env items empty_db "app1" 2
            [mkBatchItem "signup_step" (Some "view_form")
               "signup_step.view_form" "general" None;
             mkBatchItem "signup_step" (Some "submit_email")
               "signup_step.submit_email" "general" None] _ _).
  vm_compute. reflexivity.
Defined.

(** X4.  A recorder call for one app changes nothing of any other app: its
    Stat rows stay as they are and no event with its app id is added. *)
Theorem call_leaves_other_apps db c other :
  call_app c ≠ other →
  (∀ metric,
     stats (run_call db c).2 !! (other, metric) = stats db !! (other, metric)) ∧
  filter (λ e, ev_app_id e = other) (events (run_call db c).2) =
  filter (λ e, ev_app_id e = other) (events db).
Proof.
  intros Hother. destruct (run_call_statements db c) as (l & Hb & _ & Hl).
  destruct (batch_of_app _ _ db _ Hl Hb) as ((new & -> & Hnew) & _ & Hstats).
  split; [intros m; by apply Hstats|].
  rewrite filter_app.
  assert (filter (λ e, ev_app_id e = other) new = []) as ->;
    [|by rewrite app_nil_r].
  induction Hnew as [|e new He _ IH]; [done|].
  rewrite filter_cons_False; [done|congruence].
Qed.

Lemma call_leaves_other_apps_witness :
  let c := Examples.event "view" None 5 (Examples.day 7) in
  let db := Examples.five_days in
  call_app c ≠ "app2" ∧
  (∀ metric,
     stats (run_call db c).2 !! ("app2", metric) = stats db !! ("app2", metric)) ∧
  filter (λ e, ev_app_id e = "app2") (events (run_call db c).2) =
  filter (λ e, ev_app_id e = "app2") (events db).
Proof.
  intros c db. split; [discriminate|].
  apply (call_leaves_other_apps db c "app2"). discriminate.
Defined.

(** X5.  The recorder only appends: after any call the earlier event log is
    a prefix of the new one, the events added carry the app id of the call,
    and every Stat row that existed still exists. *)
Theorem recorder_is_append_only db c :
  (∃ new, events (run_call db c).2 = events db ++ new ∧
          Forall (λ e, ev_app_id e = call_app c) new) ∧
  dom (stats db) ⊆ dom (stats (run_call db c).2).
Proof.
  destruct (run_call_statements db c) as (l & Hb & _ & Hl).
  destruct (batch_of_app _ _ db _ Hl Hb) as (Hev & Hkeep & _).
  split; [done|]. intros k. rewrite !elem_of_dom. apply Hkeep.
Qed.

(** X6.  After any sequence of recorder calls from the empty store, every
    Stat row carries the category of the first event that fed its counter
    and, as [last_updated], the timestamp of the last event recorded for it:
    the event recorded last, not the one with the greatest timestamp. *)
Theorem stat_category_first_timestamp_last (calls : list Call)
    (app_id metric : string) :
  let db := run_calls calls empty_db in
  match stats db !! (app_id, metric) with
  | Some r =>
      ev_event_category <$> head (filter (feeds app_id metric) (events db))
        = Some (st_category r) ∧
      ev_timestamp <$> last (filter (feeds app_id metric) (events db))
        = Some (st_last_updated r)
  | None => True
  end.
Proof.
  intros db. destruct (run_calls_invariants calls) as [_ Hfl].
  exact (Hfl app_id metric).
Qed.

(** An event that arrives late moves [last_updated] back. *)
Example last_updated_moves_back :
  let db :=
    run_calls [Examples.event "open" None 1 (Examples.day 5);
               Examples.event "open" None 1 (Examples.day 2)] empty_db in
  st_last_updated <$> stats db !! ("app1", "open") = Some (Examples.day 2).
Proof. vm_compute. reflexivity. Qed.

(** * Further properties of the timeseries queries *)









Lemma collect_results_same_set strftime db a metrics metrics' tg f u country :
  (∀ m, m ∈ metrics ↔ m ∈ metrics') →
  collect_results strftime db a metrics tg f u country =
  collect_results strftime db a metrics' tg f u country.
Proof.
  intros Hset. apply Results_eq.
  - apply map_eq. intros m. rewrite !collect_results_lookup.
    case_decide as H1; case_decide as H2; [done| | |done]; naive_solver.
  - rewrite !collect_results_proto.
    case_decide as H1; case_decide as H2; [done| | |done]; naive_solver.
Qed.

(** X10.  The data of a comparison depend on the set of requested metrics
    only: requesting them in another order, or some of them twice, gives
    the same data points. *)
Theorem comparison_ignores_order_and_repeats
    strftime db app_id metrics metrics' timeGroup period fromDate toDate
    country limit :
  (∀ m, m ∈ metrics ↔ m ∈ metrics') →
  comparison_data
    (HandlersApp.handleMultipleMetricsTimeseries strftime db app_id metrics
       timeGroup period fromDate toDate country limit) =
  comparison_data
    (HandlersApp.handleMultipleMetricsTimeseries strftime db app_id metrics'
       timeGroup period fromDate toDate country limit).
Proof.
  intros Hset. unfold HandlersApp.handleMultipleMetricsTimeseries.
  rewrite (collect_results_same_set _ _ _ metrics metrics') by done.
  by destruct (for_in_throws _).
Qed.

Lemma comparison_ignores_order_and_repeats_witness :
  comparison_data
    (HandlersApp.handleMultipleMetricsTimeseries SQLite.strftime
       Examples.two_metrics "app1" ["a"; "b"] PerDay "day" 0 (Examples.day 30)
       None 30) =
  comparison_data
    (HandlersApp.handleMultipleMetricsTimeseries SQLite.strftime
       Examples.two_metrics "app1" ["b"; "a"; "b"] PerDay "day" 0
       (Examples.day 30) None 30).
Proof.
  apply (comparison_ignores_order_and_repeats SQLite.strftime
           Examples.two_metrics "app1" ["a"; "b"] ["b"; "a"; "b"]).
  intros m. set_solver.
Defined.

(** X11.  A requested metric named "time_period" takes the place of the
    bucket key: in every data point the property "time_period" then holds
    that metric's total, a number, and the key of the bucket is lost. *)
Theorem metric_named_time_period_hides_bucket
    strftime db app_id metrics timeGroup period fromDate toDate country limit
    dataPoint :
  "time_period" ∈ metrics →
  dataPoint ∈
    comparison_data
      (HandlersApp.handleMultipleMetricsTimeseries strftime db app_id metrics
         timeGroup period fromDate toDate country limit) →
  ∃ k, dataPoint !! "time_period" =
       Some (cell (strftime timeGroup)
               (metric_selection db app_id fromDate toDate country
                  "time_period") k).
Proof.
  intros Hm. unfold HandlersApp.handleMultipleMetricsTimeseries.
  destruct (for_in_throws _); simpl; [by intros ?%elem_of_nil|].
  unfold combine. intros Hdp.
  apply list_elem_of_fmap in Hdp as (k & -> & _). exists k.
  rewrite combine_point_lookup, collect_results_lookup.
  rewrite decide_False, decide_True by done.
  by rewrite query_asc_total.
Qed.

Lemma metric_named_time_period_hides_bucket_witness :
  let db :=
    run_calls [Examples.event "time_period" None 7 (Examples.day 1)] empty_db in
  ∃ k, ({["time_period" := VNum 7]} : gmap string JSVal) !! "time_period" =
       Some (cell (SQLite.strftime PerDay)
               (metric_selection db "app1" 0 (Examples.day 30) None
                  "time_period") k).
Proof.
  intros db.
  apply (metric_named_time_period_hides_bucket SQLite.strftime db "app1"
           ["time_period"] PerDay "day" 0 (Examples.day 30) None 30).
  - set_solver.
  - vm_compute. left.
Defined.

Lemma where_clause_app a t f u q country e :
  where_clause a t f u q country e → ev_app_id e = a.
Proof. by intros [? _]. Qed.

Lemma select_grouped_own_events strftime tg a t f u q country db :
  select_grouped strftime tg a t f u q country
    (mkDB (filter (λ e, ev_app_id e = a) (events db)) (stats db)) =
  select_grouped strftime tg a t f u q country db.
Proof.
  unfold select_grouped. simpl. f_equal.
  rewrite list_filter_filter. apply list_filter_iff. intros e.
  split; [by intros [? _]|]. intros H. split; [done|].
  by eapply where_clause_app.
Qed.

Lemma collect_results_own_events strftime db a metrics tg f u country :
  collect_results strftime
    (mkDB (filter (λ e, ev_app_id e = a) (events db)) (stats db)) a metrics tg
    f u country =
  collect_results strftime db a metrics tg f u country.
Proof.
  unfold collect_results. induction metrics as [|m metrics IH] using rev_ind;
    [done|].
  rewrite !foldl_snoc, IH. destruct (splitMetric m) as [t q].
  unfold query_asc. by rewrite select_grouped_own_events.
Qed.

(** X12.  A timeseries answer depends on the events of the asking app only:
    the single-metric query and the comparison answer the same on the log
    restricted to the events of that app. *)
Theorem timeseries_reads_own_events
    strftime metric metrics period_param limit fromDate toDate db app_id :
  let own := mkDB (filter (λ e, ev_app_id e = app_id) (events db)) (stats db) in
  ApiTimeseries.handleTimeseriesQuery strftime metric period_param limit
    fromDate toDate own app_id =
  ApiTimeseries.handleTimeseriesQuery strftime metric period_param limit
    fromDate toDate db app_id ∧
  ApiTimeseries.handleComparisonQuery strftime metrics period_param limit
    fromDate toDate own app_id =
  ApiTimeseries.handleComparisonQuery strftime metrics period_param limit
    fromDate toDate db app_id.
Proof.
  intros own. subst own. split.
  - unfold ApiTimeseries.handleTimeseriesQuery.
    destruct (negb (JS.truthy metric)); [done|].
    destruct (splitMetric _) as [t q].
    destruct (getTimeGroupExpression _) as [tg|]; [|done].
    unfold query_desc_limit. by rewrite select_grouped_own_events.
  - unfold ApiTimeseries.handleComparisonQuery.
    destruct metrics as [ms|]; [|done].
    destruct (_ || _); [done|].
    destruct (getTimeGroupExpression _) as [tg|]; [|done].
    by rewrite collect_results_own_events.
Qed.

(** * Metric keys and their split *)

Lemma append_cons c a b : String c a +:+ b = String c (a +:+ b).
Proof. reflexivity. Qed.

Lemma append_empty b : "" +:+ b = b.
Proof. reflexivity. Qed.

Lemma includes_cons_dot c s :
  JS.includes (String c s) "." = Ascii.eqb c "." || JS.includes s ".".
Proof. cbn [JS.includes]. by rewrite prefix_dot. Qed.

Lemma split_first_dot_none s :
  JS.includes s "." = false → split_first_dot s = (s, None).
Proof.
  induction s as [|c s IH]; [done|]. rewrite includes_cons_dot.
  intros [Hc Hs]%orb_false_iff. cbn [split_first_dot].
  by rewrite Hc, (IH Hs).
Qed.

Lemma split_first_dot_key t r :
  JS.includes t "." = false → split_first_dot (t +:+ "." +:+ r) = (t, Some r).
Proof.
  induction t as [|c t IH]; [done|]. rewrite includes_cons_dot.
  intros [Hc Ht]%orb_false_iff. rewrite append_cons. cbn [split_first_dot].
  by rewrite Hc, (IH Ht).
Qed.

Lemma splitMetric_plain_key t q :
  plain_key t q → splitMetric (metricKey t q) = (t, q).
Proof.
  intros [Ht Hq]. destruct q as [[|c s]|].
  - by destruct Hq.
  - destruct Hq as [_ Hs]. unfold metricKey. cbn [JS.truthy default from_option id].
    rewrite splitMetric_first_dot, split_first_dot_key by done.
    by rewrite split_first_dot_none.
  - unfold metricKey. cbn [JS.truthy]. by apply splitMetric_no_dot.
Qed.

(** X13.  Round trip of the metric key: for an event type without a dot and
    a qualifier that is absent, or non-empty and without a dot, splitting
    the metric key the recorder builds gives back the event type and the
    qualifier. *)
Theorem splitMetric_inverts_metricKey event_type qualifier :
  JS.includes event_type "." = false →
  match qualifier with
  | None => True
  | Some q => q ≠ "" ∧ JS.includes q "." = false
  end →
  splitMetric (metricKey event_type qualifier) = (event_type, qualifier).
Proof. intros Ht Hq. by apply splitMetric_plain_key. Qed.

Lemma splitMetric_inverts_metricKey_witness :
  splitMetric (metricKey "purchase" (Some "premium_upgrade")) =
  ("purchase", Some "premium_upgrade").
Proof.
  apply (splitMetric_inverts_metricKey "purchase" (Some "premium_upgrade")).
  - reflexivity.
  - split; [discriminate|reflexivity].
Defined.

(** * The counter and the series of a metric *)







(** * Authentication and routing *)

Lemma verifyApiRequest_success headers API_KEY skip a :
  verifyApiRequest headers API_KEY skip = authSuccess a →
  a = h_app_id headers ∧
  JS.truthy (h_api_key headers) = true ∧ h_api_key headers = API_KEY ∧
  (skip = false → JS.truthy a = true).
Proof.
  unfold verifyApiRequest.
  destruct skip, (JS.truthy (h_app_id headers)) eqn:Ha,
    (JS.truthy (h_api_key headers)) eqn:Hk; simpl; try done;
    case_bool_decide; simpl; try done; intros [= <-]; split_and!; done.
Qed.

Ltac split_ifs :=
  repeat match goal with
         | |- context [if ?b then _ else _] => destruct b eqn:?
         end.

(** X15.  The router over [api/] calls a handler only for a request whose
    X-API-Key header is non-empty and equal to the configured key and whose
    X-App-ID header is non-empty, the apps list included; the app id a
    handler receives is that header. *)
Theorem api_router_dispatches_authenticated request API_KEY :
  is_error (ApiIndex.fetch request API_KEY) = false →
  JS.truthy (h_api_key (r_headers request)) = true ∧
  h_api_key (r_headers request) = API_KEY ∧
  JS.truthy (h_app_id (r_headers request)) = true ∧
  ∀ a, route_app_id (ApiIndex.fetch request API_KEY) = Some a →
       a = h_app_id (r_headers request).
Proof.
  unfold ApiIndex.fetch.
  destruct (verifyApiRequest _ _ _) as [a'|e] eqn:Hauth.
  - apply verifyApiRequest_success in Hauth as (-> & Hk & Heq & Ha).
    intros _. split_and!; [done|done|by apply Ha|].
    intros a. split_ifs; simpl; congruence.
  - by split_ifs.
Qed.

Lemma api_router_dispatches_authenticated_witness :
  let request :=
    mkRequest "POST" "/track/batch"
      (mkHeaders (Some "app1") (Some "secret")) in
  ApiIndex.fetch request (Some "secret") = toTrackBatch (Some "app1") ∧
  JS.truthy (h_api_key (r_headers request)) = true ∧
  h_api_key (r_headers request) = Some "secret" ∧
  JS.truthy (h_app_id (r_headers request)) = true ∧
  ∀ a, route_app_id (ApiIndex.fetch request (Some "secret")) = Some a →
       a = h_app_id (r_headers request).
Proof.
  intros request. split; [reflexivity|].
  apply (api_router_dispatches_authenticated request (Some "secret")).
  reflexivity.
Defined.

(** X16.  The router over [handlers/] calls a handler only for a request
    with the configured key.  The apps list, GET on the single path segment
    "apps", needs no X-App-ID header and hands [null] to its handler; every
    other handler receives the non-empty X-App-ID header. *)
Theorem handlers_router_dispatches_authenticated request API_KEY :
  is_error (HandlersIndex.fetch request API_KEY) = false →
  JS.truthy (h_api_key (r_headers request)) = true ∧
  h_api_key (r_headers request) = API_KEY ∧
  ∀ a, route_app_id (HandlersIndex.fetch request API_KEY) = Some a →
       (a = None ∧ r_method request = "GET" ∧
        pathParts (r_pathname request) = ["apps"]) ∨
       (a = h_app_id (r_headers request) ∧ JS.truthy a = true ∧
        pathParts (r_pathname request) ≠ ["apps"]).
Proof.
  unfold HandlersIndex.fetch, part_is.
  destruct (String.eqb (r_method request) "GET"
            && bool_decide (pathParts (r_pathname request) !! 0%nat = Some "apps")
            && negb (bool_decide (is_Some (pathParts (r_pathname request) !! 1%nat))))
    eqn:Hlist.
  - apply andb_true_iff in Hlist as [[Hm H0]%andb_true_iff H1].
    apply String.eqb_eq in Hm. apply bool_decide_eq_true in H0.
    apply negb_true_iff, bool_decide_eq_false in H1.
    assert (pathParts (r_pathname request) = ["apps"]) as Hparts.
    { destruct (pathParts (r_pathname request)) as [|p0 [|p1 ps]];
        simpl in *; [done|congruence|]. destruct H1. eauto. }
    destruct (verifyApiRequest _ _ _) as [a'|e] eqn:Hauth; [|done].
    apply verifyApiRequest_success in Hauth as (-> & Hk & Heq & _).
    intros _. split_and!; [done..|]. intros a [= <-]. by left.
  - destruct (verifyApiRequest _ _ _) as [a'|e] eqn:Hauth; [|done].
    apply verifyApiRequest_success in Hauth as (-> & Hk & Heq & Ha).
    intros Herr. split_and!; [done..|]. intros a Hroute. right.
    assert (pathParts (r_pathname request) ≠ ["apps"]) as Hparts.
    { intros Hp. rewrite Hp in Hlist, Herr.
      destruct (String.eqb (r_method request) "GET") eqn:Hm;
        [vm_compute in Hlist; done|].
      destruct (String.eqb (r_method request) "POST");
        vm_compute in Herr; done. }
    assert (a = h_app_id (r_headers request)) as ->.
    { revert Hroute. clear. split_ifs; simpl; congruence. }
    split_and!; [done|by apply Ha|done].
Qed.

Lemma handlers_router_dispatches_authenticated_witness :
  let request := mkRequest "GET" "/apps/" (mkHeaders None (Some "secret")) in
  HandlersIndex.fetch request (Some "secret") = toAppInfo None ∧
  ApiIndex.fetch request (Some "secret") =
    routeError "Authentication failed" 403 (Some "Missing app_id header") ∧
  JS.truthy (h_api_key (r_headers request)) = true ∧
  h_api_key (r_headers request) = Some "secret".
Proof.
  intros request. split; [reflexivity|]. split; [reflexivity|].
  destruct (handlers_router_dispatches_authenticated request (Some "secret"))
    as (Hk & Heq & _); [reflexivity|].
  by split.
Defined.

(** X17.  Fail closed: when the key is not configured, or is configured as
    the empty string, both routers answer every request with the 403
    "Authentication failed". *)
Theorem unset_key_rejects_every_request request API_KEY :
  JS.truthy API_KEY = false →
  ∃ d1 d2,
    ApiIndex.fetch request API_KEY =
      routeError "Authentication failed" 403 (Some d1) ∧
    HandlersIndex.fetch request API_KEY =
      routeError "Authentication failed" 403 (Some d2).
Proof.
  intros Hkey.
  assert (∀ skip, ∃ d, verifyApiRequest (r_headers request) API_KEY skip =
                       authFailure d) as Hfail.
  { intros skip. destruct (verifyApiRequest _ _ skip) as [a|d] eqn:Hauth;
      [|by eexists].
    apply verifyApiRequest_success in Hauth as (_ & Hk & Heq & _).
    congruence. }
  destruct (Hfail false) as [d1 H1], (Hfail true) as [d2 H2].
  unfold ApiIndex.fetch, HandlersIndex.fetch. rewrite H1, H2.
  destruct (_ && _ && _); eauto.
Qed.

Lemma unset_key_rejects_every_request_witness :
  ∃ d1 d2,
    ApiIndex.fetch
      (mkRequest "GET" "/stats" (mkHeaders (Some "app1") (Some "guess")))
      None =
      routeError "Authentication failed" 403 (Some d1) ∧
    HandlersIndex.fetch
      (mkRequest "GET" "/stats" (mkHeaders (Some "app1") (Some "guess")))
      None =
      routeError "Authentication failed" 403 (Some d2).
Proof.
  apply (unset_key_rejects_every_request
           (mkRequest "GET" "/stats" (mkHeaders (Some "app1") (Some "guess")))
           None).
  reflexivity.
Defined.

Lemma split_nonempty sep s : JS.split sep s ≠ [].
Proof.
  destruct s as [|c s]; [done|]. cbn [JS.split].
  destruct (Ascii.eqb c sep); [done|]. by destruct (JS.split sep s).
Qed.

Lemma split_app sep a b :
  JS.split sep (a +:+ String sep b) = JS.split sep a ++ JS.split sep b.
Proof.
  induction a as [|c a IH].
  - rewrite append_empty. cbn [JS.split]. by rewrite Ascii.eqb_refl.
  - rewrite append_cons. cbn [JS.split]. rewrite IH.
    destruct (Ascii.eqb c sep); [done|].
    pose proof (split_nonempty sep a). by destruct (JS.split sep a).
Qed.

(** X18.  The path of a request is read segment by segment: the parts of
    two paths joined by a slash are the parts of the first followed by the
    parts of the second, and the empty path has no parts.  Leading,
    trailing and repeated slashes therefore never show up as parts, and
    "/track/batch", "track/batch/" and "//track//batch" route alike. *)
Theorem pathParts_of_joined_paths a b :
  pathParts (a +:+ "/" +:+ b) = pathParts a ++ pathParts b ∧
  pathParts "" = [] ∧
  pathParts ("/" +:+ a) = pathParts a ∧
  pathParts (a +:+ "/") = pathParts a.
Proof.
  assert (∀ x y, pathParts (x +:+ "/" +:+ y) = pathParts x ++ pathParts y)
    as Hjoin.
  { intros x y. unfold pathParts.
    change (x +:+ "/" +:+ y) with (x +:+ String "/" y).
    by rewrite split_app, filter_app. }
  split_and!; [apply Hjoin|done|apply (Hjoin "" a)|].
  change (a +:+ "/") with (a +:+ "/" +:+ ""). rewrite Hjoin.
  apply app_nil_r.
Qed.

(** A path segment without a slash is one part. *)
Lemma pathParts_segment s :
  s ≠ "" → JS.includes s "/" = false → pathParts s = [s].
Proof.
  intros Hs Hslash. unfold pathParts.
  assert (JS.split "/" s = [s]) as ->.
  { clear Hs. induction s as [|c s IH]; [done|].
    cbn [JS.includes] in Hslash. apply orb_false_iff in Hslash as [Hc Hs].
    change (String.prefix "/" (String c s))
      with (if Ascii.ascii_dec "/" c then String.prefix "" s else false) in Hc.
    cbn [JS.split]. destruct (Ascii.eqb_spec c "/") as [->|Hne].
    - destruct (Ascii.ascii_dec "/" "/"); [by destruct s|done].
    - by rewrite (IH Hs). }
  by rewrite filter_cons_True, filter_nil.
Qed.

(** One route for the spellings of a path. *)
Example track_batch_spellings :
  pathParts "/track/batch" = ["track"; "batch"] ∧
  pathParts "track/batch/" = ["track"; "batch"] ∧
  pathParts "//track//batch" = ["track"; "batch"].
Proof. repeat split; reflexivity. Qed.

(** * The readers of the stats table *)

Lemma elem_of_stat_entries db e :
  e ∈ stat_entries db ↔
  stats db !! (se_app_id e, se_metric e) = Some (se_row e).
Proof.
  unfold stat_entries. rewrite list_elem_of_fmap. split.
  - intros ([[a m] r] & -> & H). simpl. by apply elem_of_map_to_list in H.
  - intros H. exists ((se_app_id e, se_metric e), se_row e).
    split; [by destruct e|]. by apply elem_of_map_to_list.
Qed.

Lemma NoDup_stat_entries_keys db :
  NoDup ((λ e, (se_app_id e, se_metric e)) <$> stat_entries db).
Proof.
  unfold stat_entries. rewrite <-list_fmap_compose.
  erewrite list_fmap_ext; [apply (NoDup_fst_map_to_list (stats db))|].
  by intros ? [[??]?].
Qed.

(** Among the rows of one app the metric alone is a key. *)
Lemma own_metrics_NoDup (P : StatEntry → Prop) `{∀ e, Decision (P e)} a l :
  (∀ e, P e → se_app_id e = a) →
  NoDup ((λ e, (se_app_id e, se_metric e)) <$> l) →
  NoDup (se_metric <$> filter P l).
Proof.
  intros HP. induction l as [|e l IH]; [constructor|].
  rewrite fmap_cons, NoDup_cons. intros [Hnotin Hnd].
  destruct (decide (P e)) as [He|He].
  - rewrite filter_cons_True by done. rewrite fmap_cons, NoDup_cons.
    split; [|by apply IH]. intros Hin. apply Hnotin.
    apply list_elem_of_fmap in Hin as (e' & Hm & He').
    apply list_elem_of_filter in He' as [HPe' He'].
    apply list_elem_of_fmap. exists e'. split; [|done].
    by rewrite Hm, (HP e He), (HP e' HPe').
  - rewrite filter_cons_False by done. by apply IH.
Qed.

(** A plain object filled from rows with distinct keys holds exactly the
    rows, but for a row whose key is "__proto__". *)
Lemma foldl_set_prop_lookup {A V} (k : A → string) (v : A → V) (l : list A)
    m x :
  NoDup (k <$> l) →
  foldl (λ s row, JS.set_prop (k row) (v row) s) (∅ : gmap string V) l !! m
    = Some x ↔
  m ≠ "__proto__" ∧ ∃ e, e ∈ l ∧ k e = m ∧ v e = x.
Proof.
  induction l as [|e l IH] using rev_ind.
  { intros _. simpl. rewrite lookup_empty. split; [done|].
    by intros (_ & ? & ?%elem_of_nil & _). }
  rewrite fmap_app, NoDup_app. intros (Hnd & Hdisj & _).
  rewrite foldl_app. simpl. rewrite set_prop_lookup.
  destruct (decide (m = k e ∧ k e ≠ "__proto__")) as [[-> Hp]|Hne].
  - split.
    + intros [= <-]. split; [done|]. exists e. split; [|done]. set_solver.
    + intros (_ & e' & [He'|He']%elem_of_app & Hk & <-).
      * exfalso. apply (Hdisj (k e)); [|set_solver].
        apply list_elem_of_fmap. by exists e'.
      * apply list_elem_of_singleton in He'. by subst.
  - rewrite (IH Hnd). split.
    + intros (Hp & e' & ? & ? & ?). split; [done|]. exists e'. set_solver.
    + intros (Hp & e' & [He'|He']%elem_of_app & Hk & Hv).
      * split; [done|]. by exists e'.
      * apply list_elem_of_singleton in He'. subst e'. naive_solver.
Qed.

Lemma stats_where_app like a p c e : stats_where like a p c e → se_app_id e = a.
Proof. by intros [? _]. Qed.

(** The simple format without pagination: the object holds the counters of
    the app that pass the filters, but for one named "__proto__". *)
Lemma simple_data_lookup like prefix category db app_id metric v :
  foldl (λ stats row,
           JS.set_prop (se_metric row) (st_value (se_row row)) stats)
    (∅ : gmap string (option Z)) (select_stats like app_id prefix category db)
    !! metric = Some v ↔
  metric ≠ "__proto__" ∧
  ∃ r, stats db !! (app_id, metric) = Some r ∧ st_value r = v ∧
       (if JS.truthy prefix
        then like (default "" prefix +:+ "%") metric = true else True) ∧
       (if JS.truthy category
        then st_category r = default "" category else True).
Proof.
  rewrite (foldl_set_prop_lookup se_metric (λ row, st_value (se_row row))).
  2:{ unfold select_stats. rewrite merge_sort_Permutation.
      eapply own_metrics_NoDup;
        [apply stats_where_app|apply NoDup_stat_entries_keys]. }
  unfold select_stats. setoid_rewrite merge_sort_Permutation.
  setoid_rewrite list_elem_of_filter. setoid_rewrite elem_of_stat_entries.
  split.
  - intros (Hp & e & [(Ha & Hpre & Hc) He] & <- & <-). split; [done|].
    exists (se_row e). by rewrite <-Ha.
  - intros (Hp & r & Hr & <- & Hpre & Hc). split; [done|].
    exists (mkStatEntry app_id metric r). by repeat split.
Qed.

(** X19.  Without grouping, pagination and the detailed format, the stats
    endpoint answers with an object that holds exactly the counters of the
    app that pass the prefix and the category filter, each with its stored
    value, but for a counter named "__proto__", which the object does not
    hold: nothing of another app, nothing twice, nothing else left out. *)
Theorem stats_simple_lists_filtered_counters
    like prefix category groupBy format paginate page pageSize db app_id
    metric v :
  groupBy ≠ Some "category" →
  JS.or_else format "simple" ≠ "detailed" →
  paginate ≠ Some "true" →
  match handleStatsQuery like prefix category groupBy format paginate
          page pageSize db app_id with
  | statsSimple data =>
      data !! metric = Some v ↔
      metric ≠ "__proto__" ∧
      ∃ r, stats db !! (app_id, metric) = Some r ∧ st_value r = v ∧
           (if JS.truthy prefix
            then like (default "" prefix +:+ "%") metric = true else True) ∧
           (if JS.truthy category
            then st_category r = default "" category else True)
  | _ => False
  end.
Proof.
  intros Hg Hf Hp. unfold handleStatsQuery.
  rewrite (bool_decide_eq_false_2 (groupBy = _)) by done.
  rewrite (bool_decide_eq_false_2 (paginate = _)) by done.
  destruct (String.eqb_spec (JS.or_else format "simple") "detailed"); [done|].
  apply simple_data_lookup.
Qed.

Lemma stats_simple_lists_filtered_counters_witness :
  match handleStatsQuery like_prefix (Some "view") None None None None 1 20
          Examples.five_days "app1" with
  | statsSimple data =>
      data !! "view.home" = Some (Some 10) ↔
      "view.home" ≠ "__proto__" ∧
      ∃ r, stats Examples.five_days !! ("app1", "view.home") = Some r ∧
           st_value r = Some 10 ∧ like_prefix "view%" "view.home" = true ∧ True
  | _ => False
  end.
Proof.
  apply (stats_simple_lists_filtered_counters like_prefix (Some "view") None
           None None None 1 20 Examples.five_days "app1" "view.home"
           (Some 10));
    done.
Defined.

(** A counter named "__proto__" is stored and is not in the simple
    listing; the detailed listing has it. *)
Example proto_counter_not_listed :
  let db :=
    run_calls [Examples.event "__proto__" None 3 (Examples.day 1);
               Examples.event "open" None 2 (Examples.day 1)] empty_db in
  st_value <$> stats db !! ("app1", "__proto__") = Some (Some 3) ∧
  handleStatsQuery like_prefix None None None None None 1 20 db "app1"
  = statsSimple {[ "open" := Some 2 ]} ∧
  ds_metric <$>
    stats_data (handleStatsQuery like_prefix None None None (Some "detailed")
                  None 1 20 db "app1")
  = ["__proto__"; "open"].
Proof. vm_compute. repeat split; reflexivity. Qed.



(** ** Pagination *)


Lemma ceil_div_least a b p : 0 < b → a ≤ p * b → ceil_div a b ≤ p.
Proof.
  intros Hb Hp. unfold ceil_div.
  pose proof (Z.div_mod (- a) b ltac:(lia)).
  pose proof (Z.mod_pos_bound (- a) b Hb). nia.
Qed.





(** ** Grouping by category *)







(** ** Categories are never empty *)

Lemma determineCategory_nonempty t : determineCategory t ≠ "".
Proof. unfold determineCategory. repeat case_match; done. Qed.

Lemma or_else_nonempty a b : b ≠ "" → JS.or_else a b ≠ "".
Proof. by destruct a as [[|??]|]. Qed.

Lemma exec_categories_nonempty db st db' :
  exec db st = Some db' →
  stmt_category st ≠ "" → categories_nonempty db → categories_nonempty db'.
Proof.
  intros Hexec Hst [Hev Hstats].
  destruct st as [a t c q v ts co|a m c v ts inc ts']; simpl in Hst, Hexec;
    destruct ts as [timestamp|]; try done.
  - injection Hexec as <-. split; simpl; [|done].
    apply Forall_app. split; [done|]. by repeat constructor.
  - destruct (stats db !! (a, m)) as [r|] eqn:Hr.
    + destruct ts' as [timestamp'|]; [|done]. injection Hexec as <-.
      split; simpl; [done|]. apply map_Forall_insert_2; [|done].
      simpl. by eapply Hstats.
    + injection Hexec as <-. split; simpl; [done|].
      by apply map_Forall_insert_2.
Qed.

Lemma batch_categories_nonempty l db db' :
  batch l db = Some db' →
  Forall (λ st, stmt_category st ≠ "") l → categories_nonempty db →
  categories_nonempty db'.
Proof.
  intros Hb Hl. revert db Hb. induction Hl as [|st l Hst _ IH]; intros db Hb Hdb.
  { by injection Hb as <-. }
  rewrite batch_cons in Hb.
  destruct (exec db st) as [db1|] eqn:Hexec; [|done]. simpl in Hb.
  eapply IH; [exact Hb|]. by eapply exec_categories_nonempty.
Qed.

Lemma batch_loop_categories ts co a items statements results statements' results' :
  HandlersEvent.batch_loop ts co a items statements results =
    inr (statements', results') →
  Forall (λ st, stmt_category st ≠ "") statements →
  Forall (λ st, stmt_category st ≠ "") statements'.
Proof.
  revert statements results. induction items as [|event rest IH];
    intros statements results; cbn [HandlersEvent.batch_loop].
  - by intros [= <- <-].
  - destruct (negb (JS.truthy (d_event_type event))); [done|].
    intros Hloop Hs. eapply IH; [exact Hloop|].
    apply Forall_app. split; [done|].
    repeat constructor; apply or_else_nonempty, determineCategory_nonempty.
Qed.

Lemma api_batch_loop_categories ts a items statements results statements' results' :
  ApiEvents.batch_loop ts a items statements results =
    inr (statements', results') →
  Forall (λ st, stmt_category st ≠ "") statements →
  Forall (λ st, stmt_category st ≠ "") statements'.
Proof.
  revert statements results. induction items as [|event rest IH];
    intros statements results; cbn [ApiEvents.batch_loop].
  - by intros [= <- <-].
  - destruct (negb (JS.truthy (d_event_type event))); [done|].
    intros Hloop Hs. eapply IH; [exact Hloop|].
    apply Forall_app. split; [done|].
    repeat constructor; apply or_else_nonempty, determineCategory_nonempty.
Qed.

Lemma run_call_categories db c :
  categories_nonempty db → categories_nonempty (run_call db c).2.
Proof.
  intros Hdb.
  destruct c as [env data a|env evs a|env data a|env evs a]; simpl.
  - unfold HandlersEvent.handleTrackEvent.
    destruct (negb (JS.truthy (d_event_type data))); [done|]. cbv zeta.
    destruct (batch _ db) as [db'|] eqn:Hb; [|done]. simpl.
    eapply batch_categories_nonempty; [exact Hb| |done].
    repeat constructor; apply or_else_nonempty, determineCategory_nonempty.
  - unfold HandlersEvent.handleBatchTrackEvents.
    destruct evs as [[|i0 rest]|]; [done| |done].
    destruct (100 <? _)%nat; [done|].
    destruct (HandlersEvent.batch_loop _ _ _ _ _ _) as [?|[stmts res]] eqn:Hloop;
      [done|].
    destruct (batch _ db) as [db'|] eqn:Hb; [|done]. simpl.
    eapply batch_categories_nonempty; [exact Hb| |done].
    eapply batch_loop_categories; [exact Hloop|constructor].
  - unfold ApiEvents.handleTrackEvent.
    destruct (negb (JS.truthy (d_event_type data))); [done|]. cbv zeta.
    destruct (batch _ db) as [db'|] eqn:Hb; [|done]. simpl.
    eapply batch_categories_nonempty; [exact Hb| |done].
    repeat constructor; apply or_else_nonempty, determineCategory_nonempty.
  - unfold ApiEvents.handleBatchTrackEvents.
    destruct evs as [[|i0 rest]|]; [done| |done].
    destruct (100 <? _)%nat; [done|].
    destruct (ApiEvents.batch_loop _ _ _ _ _) as [?|[stmts res]] eqn:Hloop;
      [done|].
    destruct (batch _ db) as [db'|] eqn:Hb; [|done]. simpl.
    eapply batch_categories_nonempty; [exact Hb| |done].
    eapply api_batch_loop_categories; [exact Hloop|constructor].
Qed.

Lemma run_calls_categories calls db :
  categories_nonempty db → categories_nonempty (run_calls calls db).
Proof.
  revert db. induction calls as [|c calls IH]; intros db Hdb; [done|].
  apply IH. by apply run_call_categories.
Qed.

(** X23.  The recorder never stores an empty category: after any sequence
    of calls from the empty store, every event row and every counter has a
    category that is not the empty string, since an empty or missing
    category of the client is replaced by the categorizer's.  So the
    fallback to 'general' of the category readers is never taken on
    recorded data. *)
Theorem recorded_categories_nonempty (calls : list Call) :
  let db := run_calls calls empty_db in
  Forall (λ e, ev_event_category e ≠ "") (events db) ∧
  ∀ app_id metric r,
    stats db !! (app_id, metric) = Some r → st_category r ≠ "".
Proof.
  intros db.
  destruct (run_calls_categories calls empty_db) as [Hev Hstats].
  { split; [constructor|apply map_Forall_empty]. }
  split; [done|]. intros a m r Hr. exact (Hstats _ _ Hr).
Qed.

(** On recorded data, grouping by category gives each category in use the
    sum of its counters. *)
Example category_totals_of_five_days :
  handleStatsQuery like_prefix None None (Some "category") None None 1 20
    (run_calls [Examples.event "view" None 4 (Examples.day 1);
                Examples.event "view" (Some "home") 3 (Examples.day 1);
                Examples.event "click" None 2 (Examples.day 2)] empty_db)
    "app1"
  = statsGrouped "app1"
      {[ "engagement" := Some 7; "interaction" := Some 2 ]}.
Proof. vm_compute. reflexivity. Qed.

(** A client that sends the category "__proto__" gets it stored; the
    grouping then leaves the category out. *)
Example proto_category_not_grouped :
  let db :=
    run_calls [Track Examples.env
                 (mkEventData (Some "open") None None (Some "__proto__") None
                    None) "app1";
               Examples.event "click" None 2 (Examples.day 2)] empty_db in
  st_category <$> stats db !! ("app1", "open") = Some "__proto__" ∧
  handleStatsQuery like_prefix None None (Some "category") None None 1 20 db
    "app1"
  = statsGrouped "app1" {[ "interaction" := Some 2 ]}.
Proof. vm_compute. split; reflexivity. Qed.

(** ** [ORDER BY ... LIMIT ?] *)

#[global] Instance sql_le_trans : Transitive SQL.le.
Proof. intros [a|] [b|] [c|]; simpl; try done. lia. Qed.

#[global] Instance sql_le_total : Total SQL.le.
Proof. intros [a|] [b|]; simpl; try tauto. lia. Qed.

#[global] Instance text_le_trans : Transitive SQL.text_le.
Proof.
  intros [a|] [b|] [c|]; simpl; try done.
  apply (transitivity (R := str_le)).
Qed.

#[global] Instance text_le_total : Total SQL.text_le.
Proof.
  intros [a|] [b|]; simpl; try tauto. apply str_le_total.
Qed.

#[global] Instance value_le_trans : Transitive value_le.
Proof. unfold value_le. intros a b c. apply transitivity. Qed.

#[global] Instance value_le_total : Total value_le.
Proof. unfold value_le. intros a b. apply sql_le_total. Qed.

#[global] Instance flip_value_le_trans : Transitive (flip value_le).
Proof. unfold flip. intros a b c H1 H2. by transitivity b. Qed.

#[global] Instance flip_value_le_total : Total (flip value_le).
Proof. unfold flip, value_le. intros a b. apply sql_le_total. Qed.

#[global] Instance newer_first_trans : Transitive newer_first.
Proof. unfold newer_first. intros a b c. lia. Qed.

#[global] Instance newer_first_total : Total newer_first.
Proof. unfold newer_first. intros a b. lia. Qed.

#[global] Instance history_before_trans datetime :
  Transitive (history_before datetime).
Proof.
  unfold history_before. intros a b c H1 H2.
  by transitivity (datetime (ev_timestamp b)).
Qed.

#[global] Instance history_before_total datetime :
  Total (history_before datetime).
Proof. unfold history_before. intros a b. apply text_le_total. Qed.

(** The rows an ordered, limited query returns: they are in order, they are
    rows of the selection, no two of them the same row of it, no row left
    out comes before a returned one, and a negative limit leaves none out. *)
Lemma sorted_limit_spec {A} (R : relation A)
    `{!RelDecision R, !Transitive R, !Total R} (n : Z) (sel : list A) :
  let rows := sql_limit n (merge_sort R sel) in
  StronglySorted R rows ∧
  (∃ rest, rows ++ rest ≡ₚ sel ∧ Forall (λ r, Forall (R r) rest) rows) ∧
  length rows = if n <? 0 then length sel
                else Nat.min (Z.to_nat n) (length sel).
Proof.
  intros rows.
  pose proof (StronglySorted_merge_sort R sel) as Hs.
  pose proof (merge_sort_Permutation R sel) as Hp.
  assert (length (merge_sort R sel) = length sel) as Hlen by by rewrite Hp.
  unfold rows, sql_limit. destruct (n <? 0).
  - split_and!; [done| |done]. exists []. rewrite app_nil_r. split; [done|].
    apply Forall_forall. by intros.
  - rewrite <-(take_drop (Z.to_nat n) (merge_sort R sel)) in Hs, Hp.
    apply StronglySorted_app in Hs as (Hcross & Hs1 & Hs2).
    split_and!; [done| |by rewrite length_take, Hlen].
    exists (drop (Z.to_nat n) (merge_sort R sel)). split; [done|].
    apply Forall_forall. intros r Hr. apply Forall_forall. intros r' Hr'.
    by apply Hcross.
Qed.

(** X24.  The top-metrics endpoint, for a limit that the store takes, one
    from [-2^63] on.  It answers with counters of the app (of the given
    category, when one is given), each at most once, in descending order of
    value, or ascending when [sort] is 'asc' in any letter case, a null
    value below every integer; no counter left out comes before a returned
    one in that order.  A limit of 0 or more is capped at 100; a negative
    limit is passed to the store as it is and returns every counter. *)
Theorem top_metrics_are_the_extremes category sort limit_param db app_id :
  store_integer (Z.min 100 limit_param) →
  match handleTopMetrics category sort limit_param db app_id with
  | statsTop _ _ order rows =>
      let ascending := bool_decide (toLowerCase <$> sort = Some "asc") in
      let before := if ascending then value_le else flip value_le in
      let selection := filter (top_where app_id category) (stat_entries db) in
      order = (if ascending then "asc" else "desc") ∧
      StronglySorted before rows ∧
      (∃ rest, rows ++ rest ≡ₚ selection ∧
               Forall (λ r, Forall (before r) rest) rows) ∧
      length rows =
        if limit_param <? 0 then length selection
        else Nat.min (Z.to_nat (Z.min 100 limit_param)) (length selection)
  | _ => False
  end.
Proof.
  intros _. unfold handleTopMetrics. cbv zeta. split; [done|].
  assert ((Z.min 100 limit_param <? 0) = (limit_param <? 0)) as Hneg.
  { destruct (Z.ltb_spec limit_param 0), (Z.ltb_spec (Z.min 100 limit_param) 0);
      lia. }
  rewrite <-Hneg.
  destruct (bool_decide (toLowerCase <$> sort = Some "asc")).
  - apply (sorted_limit_spec value_le).
  - apply (sorted_limit_spec (flip value_le)).
Qed.

Lemma top_metrics_are_the_extremes_witness :
  store_integer (Z.min 100 (-1)) ∧
  match handleTopMetrics None (Some "ASC") (-1) Examples.five_days "app1" with
  | statsTop _ _ order rows =>
      let ascending := bool_decide (toLowerCase <$> Some "ASC" = Some "asc") in
      let before := if ascending then value_le else flip value_le in
      let selection :=
        filter (top_where "app1" None) (stat_entries Examples.five_days) in
      order = (if ascending then "asc" else "desc") ∧
      StronglySorted before rows ∧
      (∃ rest, rows ++ rest ≡ₚ selection ∧
               Forall (λ r, Forall (before r) rest) rows) ∧
      length rows =
        if -1 <? 0 then length selection
        else Nat.min (Z.to_nat (Z.min 100 (-1))) (length selection)
  | _ => False
  end.
Proof.
  assert (store_integer (Z.min 100 (-1))) as Hlimit
    by (unfold store_integer; lia).
  split; [exact Hlimit|].
  apply (top_metrics_are_the_extremes None (Some "ASC") (-1)
           Examples.five_days "app1").
  exact Hlimit.
Defined.

(** The two largest counters of the example, and all of them for the
    limit -1. *)
Example top_of_five_days :
  (match handleTopMetrics None None 2 Examples.five_days "app1" with
   | statsTop _ _ _ rows => (λ e, (se_metric e, st_value (se_row e))) <$> rows
   | _ => []
   end) = [("view", Some 21); ("view.home", Some 10)] ∧
  (match handleTopMetrics None (Some "ASC") (-1) Examples.five_days "app1" with
   | statsTop _ _ _ rows => (λ e, (se_metric e, st_value (se_row e))) <$> rows
   | _ => []
   end) = [("click", Some 7); ("view.home", Some 10); ("view", Some 21)].
Proof. split; vm_compute; reflexivity. Qed.

(** ** The event history *)

(** X25.  The event history, for a limit that the store takes, one from
    [-2^63] on.  It answers with events of the app that are no older than
    [from] and match every filter given; an empty filter is no filter, and a
    country filter leaves out the events without a country.  The events
    come in descending order of the text [datetime(timestamp, 'unixepoch')],
    an event without such a text last, each event at most once, and no
    event left out comes before a returned one in that order.  Where this
    order puts no older event of the selection before a newer one, as for
    timestamps of the years 0000 to 9999, the events come newest first and
    no event left out is newer than a returned one.  The reported count is
    the number of events returned; a limit of 0 or more is capped at 100, a
    negative one returns every matching event. *)
Theorem event_history_newest_first
    datetime event_type category country limit_param fromDate db app_id :
  store_integer (Z.min 100 limit_param) →
  match handleEventHistory datetime event_type category country limit_param
          fromDate db app_id with
  | historySuccess _ _ count rows =>
      let selection :=
        filter (history_where app_id fromDate event_type category country)
          (events db) in
      count = Z.of_nat (length rows) ∧
      Forall (λ e, ev_app_id e = app_id ∧ fromDate ≤ ev_timestamp e ∧
                   (JS.truthy event_type = true →
                    Some (ev_event_type e) = event_type) ∧
                   (JS.truthy category = true →
                    Some (ev_event_category e) = category) ∧
                   (JS.truthy country = true → ev_country e = country))
        rows ∧
      StronglySorted (history_before datetime) rows ∧
      (∃ rest, rows ++ rest ≡ₚ selection ∧
               Forall (λ r, Forall (history_before datetime r) rest) rows ∧
               ((∀ e1 e2, e1 ∈ selection → e2 ∈ selection →
                          history_before datetime e1 e2 → newer_first e1 e2) →
                StronglySorted newer_first rows ∧
                Forall (λ r, Forall (newer_first r) rest) rows)) ∧
      length rows =
        if limit_param <? 0 then length selection
        else Nat.min (Z.to_nat (Z.min 100 limit_param)) (length selection)
  end.
Proof.
  intros _. unfold handleEventHistory. cbv zeta. split; [done|].
  assert ((Z.min 100 limit_param <? 0) = (limit_param <? 0)) as Hneg.
  { destruct (Z.ltb_spec limit_param 0), (Z.ltb_spec (Z.min 100 limit_param) 0);
      lia. }
  rewrite <-Hneg.
  destruct (sorted_limit_spec (history_before datetime)
              (Z.min 100 limit_param)
              (filter (history_where app_id fromDate event_type category
                         country) (events db)))
    as (Hs & (rest & Hp & Hrest) & Hlen).
  set (selection := filter _ (events db)) in *.
  set (rows := sql_limit _ _) in *.
  assert (∀ e, e ∈ rows → e ∈ selection) as Hrows.
  { intros e He. rewrite <-Hp. apply elem_of_app. by left. }
  split_and!; [|done| |done].
  - apply Forall_forall. intros e He.
    apply Hrows, list_elem_of_filter in He as [(Ha & Hf & Ht & Hc & Hco) _].
    split_and!; [done|done|..]; intros Htr; rewrite Htr in *.
    + destruct event_type; [by simplify_eq/=|done].
    + destruct category; [by simplify_eq/=|done].
    + done.
  - exists rest. split_and!; [done..|]. intros Hmono. split.
    + clear -Hs Hrows Hmono. induction Hs as [|e l Hl IH Hall];
        constructor.
      * apply IH. intros e' He'. apply Hrows. by right.
      * rewrite Forall_forall in Hall |- *. intros e' He'.
        apply Hmono; [apply Hrows; by left|apply Hrows; by right|by apply Hall].
    + rewrite Forall_forall in Hrest |- *. intros r Hr.
      specialize (Hrest r Hr). rewrite Forall_forall in Hrest |- *.
      intros r' Hr'. apply Hmono; [by apply Hrows| |by apply Hrest].
      rewrite <-Hp. apply elem_of_app. by right.
Qed.

Lemma event_history_newest_first_witness :
  let db := Examples.five_days in
  store_integer (Z.min 100 3) ∧
  ev_timestamp <$>
    history_rows
      (handleEventHistory datetime_reference (Some "view") None None 3 0 db
         "app1")
  = [Examples.day 4; Examples.day 4; Examples.day 3] ∧
  match handleEventHistory datetime_reference (Some "view") None None 3 0 db
          "app1" with
  | historySuccess _ _ count rows =>
      let selection :=
        filter (history_where "app1" 0 (Some "view") None None) (events db) in
      count = Z.of_nat (length rows) ∧
      Forall (λ e, ev_app_id e = "app1" ∧ 0 ≤ ev_timestamp e ∧
                   (JS.truthy (Some "view") = true →
                    Some (ev_event_type e) = Some "view") ∧
                   (JS.truthy (@None string) = true →
                    Some (ev_event_category e) = None) ∧
                   (JS.truthy (@None string) = true → ev_country e = None))
        rows ∧
      StronglySorted (history_before datetime_reference) rows ∧
      (∃ rest, rows ++ rest ≡ₚ selection ∧
               Forall (λ r, Forall (history_before datetime_reference r) rest)
                 rows ∧
               ((∀ e1 e2, e1 ∈ selection → e2 ∈ selection →
                          history_before datetime_reference e1 e2 →
                          newer_first e1 e2) →
                StronglySorted newer_first rows ∧
                Forall (λ r, Forall (newer_first r) rest) rows)) ∧
      length rows =
        if 3 <? 0 then length selection
        else Nat.min (Z.to_nat (Z.min 100 3)) (length selection)
  end.
Proof.
  intros db.
  assert (store_integer (Z.min 100 3)) as Hlimit by (unfold store_integer; lia).
  split; [exact Hlimit|]. split; [vm_compute; reflexivity|].
  apply (event_history_newest_first datetime_reference (Some "view") None None
           3 0 db "app1").
  exact Hlimit.
Defined.

(** On the example the text order is the order of the timestamps. *)
Example history_order_of_five_days :
  let selection :=
    filter (history_where "app1" 0 None None None)
      (events Examples.five_days) in
  Forall (λ e1,
            Forall (λ e2, history_before datetime_reference e1 e2 →
                          newer_first e1 e2) selection) selection.
Proof. cbv zeta. refine (bool_decide_unpack _ _). vm_compute. exact I. Qed.

(** An event with a timestamp after the year 9999 has no text to be
    ordered by: it is the newest and comes last. *)
Example history_after_year_9999 :
  let db :=
    run_calls [Examples.event "open" None 1 (Examples.day 1);
               Examples.event "open" None 1 253402300800;
               Examples.event "open" None 1 (Examples.day 2)] empty_db in
  ev_timestamp <$>
    history_rows
      (handleEventHistory datetime_reference None None None 50 0 db "app1")
  = [Examples.day 2; Examples.day 1; 253402300800].
Proof. vm_compute. reflexivity. Qed.

(** ** The apps *)

(** On a store the recorder reached, a counter exists exactly when an event
    feeds it. *)
Lemma reachable_counter_iff calls a m :
  let db := run_calls calls empty_db in
  is_Some (stats db !! (a, m)) ↔ ∃ e, e ∈ events db ∧ feeds a m e.
Proof.
  intros db. destruct (run_calls_invariants calls) as [Hcc Hfl].
  specialize (Hcc a m). specialize (Hfl a m). fold db in Hcc, Hfl.
  destruct (stats db !! (a, m)) as [r|]; split.
  - intros _. destruct Hfl as [Hhead _].
    destruct (filter (feeds a m) (events db)) as [|e l] eqn:Hf; [done|].
    exists e. apply and_comm, (list_elem_of_filter (feeds a m)).
    rewrite Hf. left.
  - done.
  - by intros [??].
  - intros (e & He & Hfeeds).
    assert (e ∈ filter (feeds a m) (events db)) as Hin
      by by apply list_elem_of_filter.
    rewrite Hcc in Hin. by apply elem_of_nil in Hin.
Qed.

Lemma elem_of_getAvailableApps db a :
  a ∈ getAvailableApps db ↔ ∃ m, is_Some (stats db !! (a, m)).
Proof.
  unfold getAvailableApps.
  rewrite merge_sort_Permutation, elem_of_remove_dups, list_elem_of_fmap.
  setoid_rewrite elem_of_stat_entries. split.
  - intros (e & -> & He). by exists (se_metric e), (se_row e).
  - intros (m & r & Hr). by exists (mkStatEntry a m r).
Qed.

(** X26.  The list of available apps is in strictly ascending order, so it
    names no app twice; read from the counters, it names, on every store
    the recorder reached, exactly the apps that have a recorded event. *)
Theorem available_apps_are_recorded_apps (calls : list Call) :
  let db := run_calls calls empty_db in
  StronglySorted str_lt (getAvailableApps db) ∧
  ∀ a, a ∈ getAvailableApps db ↔ ∃ e, e ∈ events db ∧ ev_app_id e = a.
Proof.
  intros db. split.
  - apply sorted_le_NoDup_lt.
    + apply StronglySorted_merge_sort; apply _.
    + unfold getAvailableApps. rewrite merge_sort_Permutation.
      apply NoDup_remove_dups.
  - intros a. rewrite elem_of_getAvailableApps. split.
    + intros (m & Hm). apply reachable_counter_iff in Hm as (e & He & Ha & _).
      by exists e.
    + intros (e & He & Ha).
      exists (metricKey (ev_event_type e) (ev_qualifier e)).
      apply reachable_counter_iff. by exists e.
Qed.




(** ** Every event is counted once *)





(** ** The dashboard *)

#[global] Instance total_desc_trans : Transitive total_desc.
Proof. unfold total_desc. intros a b c H1 H2. by transitivity b.2. Qed.

#[global] Instance total_desc_total : Total total_desc.
Proof. unfold total_desc. intros a b. apply sql_le_total. Qed.

#[global] Instance trending_before_trans : Transitive trending_before.
Proof.
  unfold trending_before. intros a b c [H1|[H1 H1']] [H2|[H2 H2']];
    [left; lia..|right].
  split; [lia|]. by transitivity (tg_value_sum b).
Qed.

#[global] Instance trending_before_total : Total trending_before.
Proof.
  unfold trending_before. intros a b.
  destruct (Z.lt_total (tg_count a) (tg_count b)) as [?|[Heq|?]];
    [by right; left| |by left; left].
  destruct (sql_le_total (tg_value_sum a) (tg_value_sum b)).
  - right. right. by split.
  - left. right. by split.
Qed.











(** The dashboard of the example app, seen just after its last event. *)
Example dashboard_of_five_days :
  let dash :=
    handleAppDashboard (mkEnv (Examples.day 5) None) Examples.five_days
      "app1" in
  dash_categories dash = [("engagement", Some 31); ("interaction", Some 7)] ∧
  (dash_last_24h_events dash, dash_last_24h_value dash) = (3, 18) ∧
  dash_trending dash
  = [mkTypeGroup "view" 7 (Some 31); mkTypeGroup "click" 1 (Some 7)].
Proof. vm_compute. done. Qed.

(** A counter that a null value turned into [NULL] drops out of the
    category totals, while the events still sum to their values. *)
Example dashboard_with_null_value :
  let db :=
    run_calls [Track Examples.env
                 (mkEventData (Some "open") None (Some None) None None None)
                 "app1";
               Track Examples.env
                 (mkEventData (Some "open") None (Some (Some 5)) None None None)
                 "app1"] empty_db in
  let dash := handleAppDashboard Examples.env db "app1" in
  SQL.sum (snd <$> dash_categories dash) = None ∧
  sum_values (filter (λ e, ev_app_id e = "app1") (events db)) = Some 5.
Proof. vm_compute. split; reflexivity. Qed.
